(** * MandarinReader: lookup pipeline and vocabulary store

    A shallow embedding of the TypeScript sources
    [shared/pinyin.ts], [shared/dictionary.ts], [shared/storage.ts] and of the
    start-up listeners of [background/service-worker.ts], with the properties
    of the specification stated and proved over it.

    JavaScript strings are sequences of UTF-16 code units; they are modelled
    as lists of [N].  JavaScript numbers that hold counters and epoch
    milliseconds are modelled as [Z].  An object used as a map is read
    through its own properties. *)

From Stdlib Require Import ZArith NArith Lia Bool Ascii String Sorted Permutation.
From stdpp Require Import gmap list.

Open Scope Z_scope.
Set Default Proof Using "Type".

(** ** Strings of the host language *)

Abbreviation jsstring := (list N).

(** An ASCII literal as a string of code units. *)
Definition js (s : string) : jsstring :=
  map N_of_ascii (list_ascii_of_string s).

Definition in_range (lo hi c : N) : bool := ((lo <=? c) && (c <=? hi))%N.

(** [WhiteSpace] and [LineTerminator] of ECMAScript: what [\s] matches and
    what [String.prototype.trim] removes. *)
Definition isWhiteSpace (c : N) : bool :=
  in_range 0x09 0x0D c || (c =? 0x20)%N || (c =? 0xA0)%N || (c =? 0x1680)%N
  || in_range 0x2000 0x200A c || (c =? 0x2028)%N || (c =? 0x2029)%N
  || (c =? 0x202F)%N || (c =? 0x205F)%N || (c =? 0x3000)%N || (c =? 0xFEFF)%N.

Fixpoint dropWhile {A} (f : A -> bool) (l : list A) : list A :=
  match l with
  | [] => []
  | x :: l' => if f x then dropWhile f l' else l
  end.

Fixpoint takeWhile {A} (f : A -> bool) (l : list A) : list A :=
  match l with
  | [] => []
  | x :: l' => if f x then x :: takeWhile f l' else []
  end.

(** Removes the longest suffix whose elements all pass [f]. *)
Fixpoint dropWhileEnd {A} (f : A -> bool) (l : list A) : list A :=
  match l with
  | [] => []
  | x :: l' =>
      match dropWhileEnd f l' with
      | [] => if f x then [] else [x]
      | kept => x :: kept
      end
  end.

(** [s.trim()] *)
Definition trim (s : jsstring) : jsstring :=
  dropWhileEnd isWhiteSpace (dropWhile isWhiteSpace s).

(** [s.slice(from, to)] for indices within [0 .. length]. *)
Definition slice (s : jsstring) (from to : nat) : jsstring :=
  take (to - from) (drop from s).

Fixpoint startsWith (p s : jsstring) : bool :=
  match p, s with
  | [], _ => true
  | a :: p', b :: s' => (a =? b)%N && startsWith p' s'
  | _ :: _, [] => false
  end.

(** [s.indexOf(needle)], [-1] when absent. *)
Fixpoint indexOf_from (needle s : jsstring) (i : Z) : Z :=
  if startsWith needle s then i
  else match s with
       | [] => -1
       | _ :: s' => indexOf_from needle s' (i + 1)
       end.

Definition indexOf (s needle : jsstring) : Z := indexOf_from needle s 0.

(** [s.lastIndexOf(needle)], [-1] when absent. *)
Fixpoint lastIndexOf_from (needle s : jsstring) (i acc : Z) : Z :=
  let acc' := if startsWith needle s then i else acc in
  match s with
  | [] => acc'
  | _ :: s' => lastIndexOf_from needle s' (i + 1) acc'
  end.

Definition lastIndexOf (s needle : jsstring) : Z :=
  lastIndexOf_from needle s 0 (-1).

Definition includes (s needle : jsstring) : bool := 0 <=? indexOf s needle.

(** Case mapping of one code unit, on the letters the program's data is
    written in: A..Z and a..z, the Latin-1 letters U+00C0..U+00DE and
    U+00E0..U+00FE (the signs U+00D7 and U+00F7 apart), and the Latin
    Extended ranges U+0100..U+012F, U+014A..U+0177 and U+01CD..U+01DC that
    hold the pinyin tone letters.  The Kelvin sign U+212A is the one other
    code unit whose lower case is an ASCII letter.  Any other code unit keeps
    its value. *)
Definition lowerUnit (c : N) : N :=
  if in_range 0x41 0x5A c then (c + 32)%N
  else if in_range 0xC0 0xDE c && negb (c =? 0xD7)%N then (c + 32)%N
  else if (in_range 0x100 0x12F c || in_range 0x14A 0x177 c) && N.even c then (c + 1)%N
  else if in_range 0x1CD 0x1DB c && N.odd c then (c + 1)%N
  else if (c =? 0x212A)%N then 0x6B%N
  else c.

Definition upperUnit (c : N) : N :=
  if in_range 0x61 0x7A c then (c - 32)%N
  else if in_range 0xE0 0xFE c && negb (c =? 0xF7)%N then (c - 32)%N
  else if (in_range 0x100 0x12F c || in_range 0x14A 0x177 c) && N.odd c then (c - 1)%N
  else if in_range 0x1CE 0x1DC c && N.even c then (c - 1)%N
  else c.

(** The lower case of one code unit as a string: U+0130 alone becomes two
    units, "i" and the combining dot U+0307. *)
Definition lowerUnits (c : N) : jsstring :=
  if (c =? 0x130)%N then [0x69; 0x307]%N else [lowerUnit c].

(** [s.toLowerCase()].  On the letters listed above it is the mapping of
    ECMAScript; a unit outside them is kept, where ECMAScript may put
    another unit that is no ASCII character either.  It stands for the
    method where the result is matched against ASCII patterns
    ([scoreDefinition], [isVariantDefinition]) or is made of pinyin letters
    ([getToneVowel], [numericToToneMark]); the search of the vocabulary page,
    which lower-cases text of any script, takes the method as a parameter. *)
Definition toLowerCase (s : jsstring) : jsstring := flat_map lowerUnits s.

(** [s.toUpperCase()], for strings of the letters listed above. *)
Definition toUpperCase (s : jsstring) : jsstring := map upperUnit s.

(** [s.split(/\s+/)]: the pieces between maximal runs of white space; a run
    at either end leaves an empty piece there. *)
Fixpoint split_ws_go (inRun : bool) (cur : jsstring) (s : jsstring) : list jsstring :=
  match s with
  | [] => [rev cur]
  | c :: s' =>
      if isWhiteSpace c then
        if inRun then split_ws_go true [] s'
        else rev cur :: split_ws_go true [] s'
      else split_ws_go false (c :: cur) s'
  end.

Definition split_ws (s : jsstring) : list jsstring := split_ws_go false [] s.

(** [pieces.join(sep)] *)
Fixpoint join (sep : jsstring) (pieces : list jsstring) : jsstring :=
  match pieces with
  | [] => []
  | [x] => x
  | x :: rest => x ++ sep ++ join sep rest
  end.

(** [s.replace(/pat/g, by)] for a literal, non-empty pattern. *)
Fixpoint replaceAll_fuel (fuel : nat) (pat by_ s : jsstring) : jsstring :=
  match fuel with
  | O => s
  | S fuel' =>
      match s with
      | [] => []
      | c :: s' =>
          if startsWith pat s then by_ ++ replaceAll_fuel fuel' pat by_ (drop (length pat) s)
          else c :: replaceAll_fuel fuel' pat by_ s'
      end
  end.

Definition replaceAll (pat by_ s : jsstring) : jsstring :=
  replaceAll_fuel (length s) pat by_ s.

(** ** [shared/pinyin.ts] *)

Definition ch_a : N := 0x61.
Definition ch_e : N := 0x65.
Definition ch_i : N := 0x69.
Definition ch_o : N := 0x6F.
Definition ch_u : N := 0x75.
Definition ch_v : N := 0x76.
Definition ch_uuml : N := 0xFC.

(** The table [toneMarks]: the five forms of each vowel key. *)
Definition toneMarks (vowel : jsstring) : option (list jsstring) :=
  if decide (vowel = [ch_a]) then Some [[0x101]; [0xE1]; [0x1CE]; [0xE0]; [ch_a]]%N
  else if decide (vowel = [ch_e]) then Some [[0x113]; [0xE9]; [0x11B]; [0xE8]; [ch_e]]%N
  else if decide (vowel = [ch_i]) then Some [[0x12B]; [0xED]; [0x1D0]; [0xEC]; [ch_i]]%N
  else if decide (vowel = [ch_o]) then Some [[0x14D]; [0xF3]; [0x1D2]; [0xF2]; [ch_o]]%N
  else if decide (vowel = [ch_u]) then Some [[0x16B]; [0xFA]; [0x1D4]; [0xF9]; [ch_u]]%N
  else if decide (vowel = [ch_uuml]) then Some [[0x1D6]; [0x1D8]; [0x1DA]; [0x1DC]; [ch_uuml]]%N
  else if decide (vowel = [ch_v]) then Some [[0x1D6]; [0x1D8]; [0x1DA]; [0x1DC]; [ch_uuml]]%N
  else None.

(** The loop of [getToneVowel] over [vowels]: state is
    [(lastVowelIndex, lastVowel)]. *)
Definition toneVowel_step (lower : jsstring) (st : Z * option jsstring) (v : jsstring)
  : Z * option jsstring :=
  let idx := lastIndexOf lower v in
  if fst st <? idx then (idx, Some v) else st.

Definition getToneVowel (syllable : jsstring) : option jsstring :=
  let lower := toLowerCase syllable in
  if includes lower [ch_a] then Some [ch_a]
  else if includes lower [ch_e] then Some [ch_e]
  else if includes lower [ch_o; ch_u] then Some [ch_o]
  else
    let vowels := [[ch_i]; [ch_o]; [ch_u]; [ch_uuml]; [ch_v]] in
    snd (fold_left (toneVowel_step lower) vowels (-1, None)).

(** The class [[a-züv]] under the [i] flag. *)
Definition isPinyinLetter (c : N) : bool :=
  in_range 0x61 0x7A c || in_range 0x41 0x5A c || (c =? 0xFC)%N || (c =? 0xDC)%N.

Definition isDigit (c : N) : bool := in_range 0x30 0x39 c.

(** [syllable.match(/^([a-züv]+)(\d)?$/i)]: the two groups, when it matches. *)
Definition matchSyllable (syllable : jsstring) : option (jsstring * option N) :=
  let letters := takeWhile isPinyinLetter syllable in
  let rest := dropWhile isPinyinLetter syllable in
  match letters with
  | [] => None
  | _ :: _ =>
      match rest with
      | [] => Some (letters, None)
      | [dg] => if isDigit dg then Some (letters, Some dg) else None
      | _ => None
      end
  end.

(** [parseInt(toneNum, 10)] on one decimal digit. *)
Definition parseDigit (dg : N) : Z := Z.of_N dg - 0x30.

(** The callback of [syllables.map] in [numericToToneMark]. *)
Definition convertSyllable (syllable : jsstring) : jsstring :=
  match matchSyllable syllable with
  | None => syllable
  | Some (letters, None) => letters
  | Some (letters, Some toneNum) =>
      let tone := parseDigit toneNum in
      if (tone <? 1) || (5 <? tone) then syllable
      else
        match getToneVowel letters with
        | None => letters
        | Some vowel =>
            match toneMarks (toLowerCase vowel) ≫= (fun row => row !! Z.to_nat (tone - 1)) with
            | None => letters
            | Some toneChar =>
                let vowelIndex := Z.to_nat (indexOf (toLowerCase letters) (toLowerCase vowel)) in
                let at_ := slice letters vowelIndex (S vowelIndex) in
                let isUpperCase := bool_decide (at_ = toUpperCase at_) in
                let replacement := if isUpperCase then toUpperCase toneChar else toneChar in
                slice letters 0 vowelIndex ++ replacement
                  ++ drop (S vowelIndex) letters
            end
        end
  end.

Definition numericToToneMark (pinyin : jsstring) : jsstring :=
  join [0x20%N] (map convertSyllable (split_ws pinyin)).

Definition normalizePinyin (pinyin : jsstring) : jsstring :=
  replaceAll [0x56%N] [0xDC%N]
    (replaceAll [0x76%N] [0xFC%N]
       (replaceAll [0x55; 0x3A]%N [0xDC%N]
          (replaceAll [0x75; 0x3A]%N [0xFC%N] pinyin))).

Definition parseCedictPinyin (pinyin : jsstring) : jsstring :=
  numericToToneMark (normalizePinyin pinyin).

(** ** [shared/types.ts] *)

Record CharacterInfo := {
  ci_character : jsstring;
  ci_radical : jsstring;
  ci_radicalMeaning : option jsstring;
  ci_strokeCount : Z;
  ci_components : option (list jsstring)
}.

Record DictionaryEntry := {
  de_traditional : jsstring;
  de_simplified : jsstring;
  de_pinyin : jsstring;
  de_pinyinTones : jsstring;
  de_definitions : list jsstring
}.

Record ContextEntry := {
  ctx_sentence : jsstring;
  ctx_sourceUrl : jsstring;
  ctx_timestamp : Z
}.

Record VocabularyEntry := {
  ve_id : jsstring;
  ve_word : jsstring;
  ve_pinyin : jsstring;
  ve_definitions : list jsstring;
  ve_lookupCount : Z;
  ve_firstSeenAt : Z;
  ve_lastSeenAt : Z;
  ve_contexts : list ContextEntry;
  ve_characters : list CharacterInfo;
  ve_hskLevel : option Z
}.

Record WordSegment := {
  ws_word : jsstring;
  ws_pinyin : jsstring;
  ws_pinyinTones : jsstring;
  ws_definitions : list jsstring;
  ws_characters : list CharacterInfo;
  ws_isKnown : bool;
  ws_hskLevel : option Z
}.

Record LookupResult := {
  lr_originalText : jsstring;
  lr_fullPinyin : jsstring;
  lr_naturalTranslation : option jsstring;
  lr_segments : list WordSegment;
  lr_seenWith : list (jsstring * list jsstring)
}.

Record SyncedVocabEntry := {
  sv_w : jsstring;
  sv_p : jsstring;
  sv_d : list jsstring;
  sv_c : Z;
  sv_f : Z;
  sv_l : Z
}.

(** ** [shared/dictionary.ts] *)

(** One sense of [cedict.json]: the fields [t], [s], [p], [d]. *)
Record CedictSense := {
  ce_t : jsstring;
  ce_s : jsstring;
  ce_p : jsstring;
  ce_d : list jsstring
}.

Record UnihanEntry := {
  un_r : jsstring;
  un_sc : Z;
  un_c : option (list jsstring)
}.

Abbreviation CedictData := (gmap jsstring (list CedictSense)).
Abbreviation UnihanData := (gmap jsstring UnihanEntry).
Abbreviation RadicalData := (gmap jsstring jsstring).
Abbreviation HskData := (gmap jsstring Z).

(** [isChinese]: the first code unit lies in U+4E00 .. U+9FFF. *)
Definition isChineseUnit (code : N) : bool := in_range 0x4E00 0x9FFF code.

Definition isChinese (char : jsstring) : bool :=
  match char with
  | code :: _ => isChineseUnit code
  | [] => false
  end.

Definition notChineseUnit (c : N) : bool := negb (isChineseUnit c).

(** Regular-expression helpers for the patterns of [scoreDefinition]. *)
Definition isWordChar (c : N) : bool :=
  in_range 0x61 0x7A c || in_range 0x41 0x5A c || isDigit c || (c =? 0x5F)%N.

Definition wordCharAt (o : option N) : bool :=
  match o with
  | Some c => isWordChar c
  | None => false
  end.

(** The assertion [\b] between the unit [prev] and the head of [rest]. *)
Definition boundary (prev : option N) (rest : jsstring) : bool :=
  xorb (wordCharAt prev) (wordCharAt (head rest)).

(** [Canonicalize] of a pattern without the [u] flag. *)
Definition canonicalize (c : N) : N :=
  let cu := upperUnit c in
  if (128 <=? c)%N && (cu <? 128)%N then c else cu.

Fixpoint startsWith_ci (p s : jsstring) : bool :=
  match p, s with
  | [], _ => true
  | a :: p', b :: s' => (canonicalize a =? canonicalize b)%N && startsWith_ci p' s'
  | _ :: _, [] => false
  end.

(** One alternative of [\b(alt1|alt2|..)\b] tried where [rest] starts,
    the opening [\b] already checked. *)
Definition altThenBoundary (ci : bool) (rest alt : jsstring) : bool :=
  (if ci then startsWith_ci alt rest else startsWith alt rest)
  && boundary (last (take (length alt) rest)) (drop (length alt) rest).

(** [/\b(alt1|alt2|..)\b/.test(s)], with the [i] flag when [ci]. *)
Fixpoint testWords_go (ci : bool) (alts : list jsstring) (prev : option N) (s : jsstring) : bool :=
  (boundary prev s && existsb (altThenBoundary ci s) alts)
  || match s with
     | [] => false
     | c :: s' => testWords_go ci alts (Some c) s'
     end.

Definition testWords (ci : bool) (alts : list jsstring) (s : jsstring) : bool :=
  testWords_go ci alts None s.

(** [/^(p1|p2|..)/.test(s)] *)
Definition testPrefixes (prefixes : list jsstring) (s : jsstring) : bool :=
  existsb (fun p => startsWith p s) prefixes.

(** [/^p [a-z]/.test(s)] for a literal [p] that ends in the space. *)
Definition testPrefixThenLower (p s : jsstring) : bool :=
  startsWith p s &&
  match drop (length p) s with
  | c :: _ => in_range 0x61 0x7A c
  | [] => false
  end.

Definition isVariantDefinition (def : jsstring) : bool :=
  testPrefixes [js "variant of"; js "see "; js "old variant"; js "archaic variant"; js "same as"]
    (toLowerCase def).

(** One statement [if (cond) score += delta;]. *)
Definition adjust (cond : bool) (delta : Z) (score : Z) : Z :=
  if cond then score + delta else score.

Definition scoreDefinition (def : jsstring) : Z :=
  let lower := toLowerCase def in
  let score := 100 in
  let score := adjust (isVariantDefinition def) (-80) score in
  let score :=
    adjust (testWords false [js "archaic"; js "literary"; js "dialect"; js "old-fashioned"] lower)
      (-40) score in
  let score :=
    adjust (testWords true [js "Taiwan pr."; js "also pr."; js "Taiwan variant"] def)
      (-30) score in
  let score :=
    adjust (testPrefixes [js "abbr. "; js "abbr."; js "abbreviation"] lower) (-25) score in
  let score := adjust (testWords false [js "euphemism"] lower) (-20) score in
  let score := adjust (testPrefixes [js "lit. "] lower) (-15) score in
  let score := adjust (testPrefixes [js "fig. "] lower) (-10) score in
  let score := adjust (testPrefixes [js "CL:"] def) (-35) score in
  let score := adjust (length def <? 5)%nat (-20) score in
  let score := adjust (testPrefixThenLower (js "to ") lower) 10 score in
  let score := adjust (testPrefixThenLower (js "a ") lower) 5 score in
  let score := adjust (testPrefixThenLower (js "the ") lower) 5 score in
  score.

(** [new Set(defs)] spread back into an array: the first occurrence of each
    string, in order of first occurrence. *)
Fixpoint uniq_go (seen : list jsstring) (l : list jsstring) : list jsstring :=
  match l with
  | [] => []
  | x :: l' =>
      if bool_decide (x ∈ seen) then uniq_go seen l'
      else x :: uniq_go (x :: seen) l'
  end.

Definition uniq (l : list jsstring) : list jsstring := uniq_go [] l.

(** [defs.sort((a, b) => scoreDefinition(b) - scoreDefinition(a))].
    [Array.prototype.sort] is stable, so the result is the one stable
    arrangement by descending score: an insertion sort computes it. *)
Fixpoint insertByScore (x : jsstring) (l : list jsstring) : list jsstring :=
  match l with
  | [] => [x]
  | y :: l' =>
      if scoreDefinition x <? scoreDefinition y then y :: insertByScore x l'
      else x :: y :: l'
  end.

Definition sortByScore (l : list jsstring) : list jsstring :=
  foldr insertByScore [] l.

(** The body of the [for] loop of [selectBestEntry]; the state is
    [(allDefinitions, bestEntry, bestScore)]. *)
Definition selectBest_step (st : list jsstring * CedictSense * Z) (entry : CedictSense)
  : list jsstring * CedictSense * Z :=
  let '(allDefinitions, bestEntry, bestScore) := st in
  let realDefs := List.filter (fun d => negb (isVariantDefinition d)) (ce_d entry) in
  let score := Z.of_nat (length realDefs) in
  let allDefinitions := allDefinitions ++ ce_d entry in
  if bestScore <? score then (allDefinitions, entry, score)
  else (allDefinitions, bestEntry, bestScore).

(** [selectBestEntry]; its callers pass a non-empty array, for the empty one
    [entries[0]] is [undefined] and there is no result to speak of. *)
Definition selectBestEntry (entries : list CedictSense)
  : option (CedictSense * list jsstring) :=
  match entries with
  | [] => None
  | first :: _ =>
      let '(allDefinitions, bestEntry, _) :=
        fold_left selectBest_step entries ([], first, 0) in
      let sortedDefs := sortByScore (uniq allDefinitions) in
      Some (bestEntry,
            if (0 <? length sortedDefs)%nat then sortedDefs else allDefinitions)
  end.

(** The object literal both [lookupWord] and [lookupWithSegmentation] build
    from the result of [selectBestEntry]. *)
Definition hitEntry (sel : CedictSense * list jsstring) : DictionaryEntry :=
  let '(entry, allDefinitions) := sel in
  {| de_traditional := ce_t entry;
     de_simplified := ce_s entry;
     de_pinyin := ce_p entry;
     de_pinyinTones := parseCedictPinyin (ce_p entry);
     de_definitions := allDefinitions |}.

(** The placeholder pushed for a Han character without a dictionary hit. *)
Definition unknownEntry (char : jsstring) : DictionaryEntry :=
  {| de_traditional := char;
     de_simplified := char;
     de_pinyin := [];
     de_pinyinTones := [];
     de_definitions := [js "(no definition found)"] |}.

(** [cedict[key]] followed by the test [entries && entries.length > 0]. *)
Definition senses (cedict : CedictData) (key : jsstring) : option (list CedictSense) :=
  match cedict !! key with
  | Some (e :: es) => Some (e :: es)
  | _ => None
  end.

(** The inner [for] loop of [lookupWithSegmentation]: lengths [len], [len-1],
    .., [1] at position [pos]; the first hit with its length. *)
Fixpoint probe (cedict : CedictData) (normalized : jsstring) (pos len : nat)
  : option (nat * DictionaryEntry) :=
  match len with
  | O => None
  | S len' =>
      let substr := slice normalized pos (pos + len) in
      match senses cedict substr ≫= selectBestEntry with
      | Some sel => Some (len, hitEntry sel)
      | None => probe cedict normalized pos len'
      end
  end.

(** The [while] loop of [lookupWithSegmentation]; one unit of [fuel] per
    iteration, [None] when the fuel runs out before the loop ends. *)
Fixpoint scanLoop (cedict : CedictData) (normalized : jsstring)
    (fuel pos : nat) (results : list DictionaryEntry) : option (list DictionaryEntry) :=
  if (pos <? length normalized)%nat then
    match fuel with
    | O => None
    | S fuel' =>
        match probe cedict normalized pos (Nat.min 6 (length normalized - pos)) with
        | Some (len, entry) =>
            scanLoop cedict normalized fuel' (pos + len) (results ++ [entry])
        | None =>
            let char := slice normalized pos (S pos) in
            if isChinese char
            then scanLoop cedict normalized fuel' (S pos) (results ++ [unknownEntry char])
            else scanLoop cedict normalized fuel' (S pos) results
        end
    end
  else Some results.

(** [getCharacterInfo] *)
Definition getCharacterInfo (unihan : UnihanData) (radicals : RadicalData)
    (char : jsstring) : CharacterInfo :=
  match unihan !! char with
  | Some data =>
      {| ci_character := char;
         ci_radical := un_r data;
         ci_radicalMeaning := radicals !! un_r data;
         ci_strokeCount := un_sc data;
         ci_components := un_c data |}
  | None =>
      {| ci_character := char;
         ci_radical := char;
         ci_radicalMeaning := None;
         ci_strokeCount := 0;
         ci_components := None |}
  end.

(** The characters of a segment: [for (const char of entry.simplified)]
    keeps the characters that pass [isChinese].  The iteration is by code
    point; a surrogate pair starts with a unit outside U+4E00 .. U+9FFF and
    is dropped, so the kept characters are the code units in that range. *)
Definition segmentCharacters (unihan : UnihanData) (radicals : RadicalData)
    (simplified : jsstring) : list CharacterInfo :=
  map (fun c => getCharacterInfo unihan radicals [c])
      (List.filter isChineseUnit simplified).

(** One iteration of the loop of [performLookup] over the entries. *)
Definition toSegment (unihan : UnihanData) (radicals : RadicalData) (hsk : HskData)
    (checkKnown : jsstring -> bool) (entry : DictionaryEntry) : WordSegment :=
  {| ws_word := de_simplified entry;
     ws_pinyin := de_pinyin entry;
     ws_pinyinTones := de_pinyinTones entry;
     ws_definitions := de_definitions entry;
     ws_characters := segmentCharacters unihan radicals (de_simplified entry);
     ws_isKnown := checkKnown (de_simplified entry);
     ws_hskLevel := hsk !! de_simplified entry |}.

Section Program.

(** [String.prototype.normalize('NFC')], a function of the host. *)
Variable normalize_NFC : jsstring -> jsstring.

Definition normalizeText (text : jsstring) : jsstring :=
  normalize_NFC
    (dropWhileEnd notChineseUnit (dropWhile notChineseUnit (trim text))).

Definition lookupWord (cedict : CedictData) (text : jsstring) : option DictionaryEntry :=
  let normalized := normalizeText text in
  match normalized with
  | [] => None
  | _ :: _ => hitEntry <$> (senses cedict normalized ≫= selectBestEntry)
  end.

Definition lookupWithSegmentation (cedict : CedictData) (text : jsstring)
  : option (list DictionaryEntry) :=
  let normalized := normalizeText text in
  match normalized with
  | [] => Some []
  | _ :: _ =>
      match lookupWord cedict normalized with
      | Some exactMatch => Some [exactMatch]
      | None => scanLoop cedict normalized (length normalized) 0 []
      end
  end.

Definition performLookup (cedict : CedictData) (unihan : UnihanData)
    (radicals : RadicalData) (hsk : HskData)
    (text : jsstring) (seenComponents : list (jsstring * list jsstring))
    (checkKnown : jsstring -> bool) : option LookupResult :=
  entries ← lookupWithSegmentation cedict text;
  let normalizedText := normalizeText text in
  let segments := map (toSegment unihan radicals hsk checkKnown) entries in
  let fullPinyin := join [0x20%N] (map ws_pinyinTones segments) in
  Some {| lr_originalText := normalizedText;
          lr_fullPinyin := fullPinyin;
          lr_naturalTranslation := None;
          lr_segments := segments;
          lr_seenWith := seenComponents |}.


(** ** [JSON.stringify] on the payload of the replication channel *)

Fixpoint uintUnits (u : Decimal.uint) : jsstring :=
  match u with
  | Decimal.Nil => []
  | Decimal.D0 u' => 0x30%N :: uintUnits u'
  | Decimal.D1 u' => 0x31%N :: uintUnits u'
  | Decimal.D2 u' => 0x32%N :: uintUnits u'
  | Decimal.D3 u' => 0x33%N :: uintUnits u'
  | Decimal.D4 u' => 0x34%N :: uintUnits u'
  | Decimal.D5 u' => 0x35%N :: uintUnits u'
  | Decimal.D6 u' => 0x36%N :: uintUnits u'
  | Decimal.D7 u' => 0x37%N :: uintUnits u'
  | Decimal.D8 u' => 0x38%N :: uintUnits u'
  | Decimal.D9 u' => 0x39%N :: uintUnits u'
  end.

(** An integer-valued number below 10^21 in magnitude prints as its decimal
    digits. *)
Definition numberToJSON (n : Z) : jsstring :=
  match Z.to_int n with
  | Decimal.Pos u => uintUnits u
  | Decimal.Neg u => 0x2D%N :: uintUnits u
  end.

Definition hexDigit (n : N) : N :=
  (if n <? 10 then 0x30 + n else 0x61 + (n - 10))%N.

Definition unicodeEscape (c : N) : jsstring :=
  [0x5C; 0x75; hexDigit (c / 4096); hexDigit ((c / 256) mod 16);
   hexDigit ((c / 16) mod 16); hexDigit (c mod 16)]%N.

Definition isHighSurrogate (c : N) : bool := in_range 0xD800 0xDBFF c.
Definition isLowSurrogate (c : N) : bool := in_range 0xDC00 0xDFFF c.

(** The body of [QuoteJSONString]: short escapes, [\uXXXX] for the other
    control units and for lone surrogates, every other unit as it is. *)
Fixpoint quoteUnits (s : jsstring) : jsstring :=
  match s with
  | [] => []
  | c :: s' =>
      if (c =? 0x08)%N then [0x5C; 0x62]%N ++ quoteUnits s'
      else if (c =? 0x09)%N then [0x5C; 0x74]%N ++ quoteUnits s'
      else if (c =? 0x0A)%N then [0x5C; 0x6E]%N ++ quoteUnits s'
      else if (c =? 0x0C)%N then [0x5C; 0x66]%N ++ quoteUnits s'
      else if (c =? 0x0D)%N then [0x5C; 0x72]%N ++ quoteUnits s'
      else if (c =? 0x22)%N then [0x5C; 0x22]%N ++ quoteUnits s'
      else if (c =? 0x5C)%N then [0x5C; 0x5C]%N ++ quoteUnits s'
      else if (c <? 0x20)%N then unicodeEscape c ++ quoteUnits s'
      else if isHighSurrogate c then
        match s' with
        | c2 :: s'' =>
            if isLowSurrogate c2 then c :: c2 :: quoteUnits s''
            else unicodeEscape c ++ quoteUnits s'
        | [] => unicodeEscape c
        end
      else if isLowSurrogate c then unicodeEscape c ++ quoteUnits s'
      else c :: quoteUnits s'
  end.


Definition quoteJSON (s : jsstring) : jsstring :=
  [0x22%N] ++ quoteUnits s ++ [0x22%N].

Definition arrayJSON (items : list jsstring) : jsstring :=
  [0x5B%N] ++ join [0x2C%N] items ++ [0x5D%N].

Definition objectJSON (members : list (jsstring * jsstring)) : jsstring :=
  [0x7B%N]
  ++ join [0x2C%N] (map (fun m => quoteJSON (fst m) ++ [0x3A%N] ++ snd m) members)
  ++ [0x7D%N].

Definition syncedJSON (e : SyncedVocabEntry) : jsstring :=
  objectJSON
    [(js "w", quoteJSON (sv_w e)); (js "p", quoteJSON (sv_p e));
     (js "d", arrayJSON (map quoteJSON (sv_d e)));
     (js "c", numberToJSON (sv_c e)); (js "f", numberToJSON (sv_f e));
     (js "l", numberToJSON (sv_l e))].

(** ** [shared/storage.ts] *)

(** The value kept under [SYNC_KEY]: an object from word id to compact
    record, as the association list of its own properties (keys distinct). *)
Abbreviation Replica := (list (jsstring * SyncedVocabEntry)).

Definition SYNC_KEY : jsstring := js "vocab_sync".
Definition MAX_CONTEXTS_PER_WORD : nat := 5.
Definition MAX_SYNCED_DEFINITIONS : nat := 3.
Definition MAX_SYNCED_DEF_LENGTH : nat := 100.

(** [JSON.stringify({ [SYNC_KEY]: syncedData })].  The order in which an
    object lists its properties does not change the length of the text. *)
Definition payloadJSON (syncedData : Replica) : jsstring :=
  objectJSON
    [(SYNC_KEY, objectJSON (map (fun kv => (fst kv, syncedJSON (snd kv))) syncedData))].

(** [obj[key]] and [obj[key] = v] on an object kept as the association
    list of its own properties. *)
Fixpoint object_get {V} (obj : list (jsstring * V)) (key : jsstring) : option V :=
  match obj with
  | [] => None
  | (k, v) :: rest => if bool_decide (k = key) then Some v else object_get rest key
  end.

Fixpoint object_set {V} (obj : list (jsstring * V)) (key : jsstring) (v : V)
  : list (jsstring * V) :=
  match obj with
  | [] => [(key, v)]
  | (k, v0) :: rest =>
      if bool_decide (k = key) then (k, v) :: rest
      else (k, v0) :: object_set rest key v
  end.

Inductive Warning :=
| FailedSyncTo
| FailedSyncFrom.

(** What the functions of the store read and write: the two object stores of
    the IndexedDB database, the value under [SYNC_KEY] in
    [chrome.storage.sync], and the warnings sent to the console. *)
Record World := {
  vocabulary : gmap jsstring VocabularyEntry;
  componentMap : gmap jsstring (list jsstring);
  syncArea : Replica;
  warnings : list Warning
}.

(** How the replication channel answers during one call: whether
    [chrome.storage.sync.get] resolves, and whether
    [chrome.storage.sync.set] accepts a value (it rejects on its own quota). *)
Record Channel := {
  ch_get_ok : bool;
  ch_set_ok : Replica -> bool
}.

(** A computation inside [try]: it returns or it throws. *)
Inductive Outcome (A : Type) :=
| Returned (a : A)
| Thrown.
Arguments Returned {A} a.
Arguments Thrown {A}.

#[local] Instance outcome_bind : MBind Outcome := fun A B k m =>
  match m with
  | Returned a => k a
  | Thrown => Thrown
  end.

Definition chrome_sync_get (ch : Channel) (area : Replica) : Outcome Replica :=
  if ch_get_ok ch then Returned area else Thrown.

(** The outcome of [chrome.storage.sync.set]: the new stored value. *)
Definition chrome_sync_set (ch : Channel) (data : Replica) : Outcome Replica :=
  if ch_set_ok ch data then Returned data else Thrown.

(** [db.put('vocabulary', entry)]: the store has key path [id]. *)
Definition vocabulary_put (entry : VocabularyEntry)
    (db : gmap jsstring VocabularyEntry) : gmap jsstring VocabularyEntry :=
  <[ve_id entry := entry]> db.

Definition generateWordId (word : jsstring) : jsstring := normalize_NFC word.

(** The suffix the source appends to a cut definition, as the file has it. *)
Definition cutMark : jsstring := [0xE2; 0x20AC; 0xA6]%N.

Definition truncateDefinitions (definitions : list jsstring) : list jsstring :=
  map (fun d => if (MAX_SYNCED_DEF_LENGTH <? length d)%nat
                then slice d 0 MAX_SYNCED_DEF_LENGTH ++ cutMark else d)
      (take MAX_SYNCED_DEFINITIONS definitions).

Definition entryToSyncFormat (entry : VocabularyEntry) : SyncedVocabEntry :=
  {| sv_w := ve_word entry;
     sv_p := ve_pinyin entry;
     sv_d := truncateDefinitions (ve_definitions entry);
     sv_c := ve_lookupCount entry;
     sv_f := ve_firstSeenAt entry;
     sv_l := ve_lastSeenAt entry |}.

(** The object [syncedData] of [syncToChrome] once the record of [entry] is
    put into it. *)
Definition outboundData (syncedData : Replica) (entry : VocabularyEntry) : Replica :=
  let fresh := entryToSyncFormat entry in
  match object_get syncedData (ve_id entry) with
  | Some existing =>
      object_set syncedData (ve_id entry)
        {| sv_w := sv_w fresh; sv_p := sv_p fresh; sv_d := sv_d fresh;
           sv_c := Z.max (sv_c existing) (ve_lookupCount entry);
           sv_f := Z.min (sv_f existing) (ve_firstSeenAt entry);
           sv_l := sv_l fresh |}
  | None => object_set syncedData (ve_id entry) fresh
  end.

(** The body of the [try] block of [syncToChrome]: the value stored under
    [SYNC_KEY] afterwards. *)
Definition syncToChrome_try (ch : Channel) (entry : VocabularyEntry) (area : Replica)
  : Outcome Replica :=
  syncedData ← chrome_sync_get ch area;
  let syncedData := outboundData syncedData entry in
  let jsonSize := Z.of_nat (length (payloadJSON syncedData)) in
  if jsonSize <? 100000 then chrome_sync_set ch syncedData
  else Returned area.

Definition syncToChrome (ch : Channel) (entry : VocabularyEntry) (w : World) : World :=
  match syncToChrome_try ch entry (syncArea w) with
  | Returned area' =>
      {| vocabulary := vocabulary w; componentMap := componentMap w;
         syncArea := area'; warnings := warnings w |}
  | Thrown =>
      {| vocabulary := vocabulary w; componentMap := componentMap w;
         syncArea := syncArea w; warnings := warnings w ++ [FailedSyncTo] |}
  end.

(** The entry [saveVocabularyEntry] writes; [now] is [Date.now()]. *)
Definition savedEntry (now : Z) (word pinyin : jsstring) (definitions : list jsstring)
    (characters : list CharacterInfo) (context : option (jsstring * jsstring))
    (existing : option VocabularyEntry) : VocabularyEntry :=
  match existing with
  | Some existing =>
      let entry :=
        {| ve_id := ve_id existing;
           ve_word := ve_word existing;
           ve_pinyin := ve_pinyin existing;
           ve_definitions :=
             if (0 <? length definitions)%nat then definitions else ve_definitions existing;
           ve_lookupCount := ve_lookupCount existing + 1;
           ve_firstSeenAt := ve_firstSeenAt existing;
           ve_lastSeenAt := now;
           ve_contexts := ve_contexts existing;
           ve_characters :=
             if (0 <? length characters)%nat then characters else ve_characters existing;
           ve_hskLevel := ve_hskLevel existing |} in
      match context with
      | Some (sentence, sourceUrl) =>
          if (length (ve_contexts entry) <? MAX_CONTEXTS_PER_WORD)%nat then
            let isDuplicate :=
              existsb (fun c => bool_decide (ctx_sentence c = sentence)) (ve_contexts entry) in
            if negb isDuplicate then
              {| ve_id := ve_id entry; ve_word := ve_word entry; ve_pinyin := ve_pinyin entry;
                 ve_definitions := ve_definitions entry;
                 ve_lookupCount := ve_lookupCount entry;
                 ve_firstSeenAt := ve_firstSeenAt entry;
                 ve_lastSeenAt := ve_lastSeenAt entry;
                 ve_contexts :=
                   ve_contexts entry
                   ++ [{| ctx_sentence := sentence; ctx_sourceUrl := sourceUrl;
                          ctx_timestamp := now |}];
                 ve_characters := ve_characters entry;
                 ve_hskLevel := ve_hskLevel entry |}
            else entry
          else entry
      | None => entry
      end
  | None =>
      let contexts :=
        match context with
        | Some (sentence, sourceUrl) =>
            [{| ctx_sentence := sentence; ctx_sourceUrl := sourceUrl; ctx_timestamp := now |}]
        | None => []
        end in
      {| ve_id := generateWordId word;
         ve_word := word;
         ve_pinyin := pinyin;
         ve_definitions := definitions;
         ve_lookupCount := 1;
         ve_firstSeenAt := now;
         ve_lastSeenAt := now;
         ve_contexts := contexts;
         ve_characters := characters;
         ve_hskLevel := None |}
  end.

Definition saveVocabularyEntry (ch : Channel) (now : Z) (word pinyin : jsstring)
    (definitions : list jsstring) (characters : list CharacterInfo)
    (context : option (jsstring * jsstring)) (w : World) : VocabularyEntry * World :=
  let id := generateWordId word in
  let existing := vocabulary w !! id in
  let entry := savedEntry now word pinyin definitions characters context existing in
  let w1 :=
    {| vocabulary := vocabulary_put entry (vocabulary w); componentMap := componentMap w;
       syncArea := syncArea w; warnings := warnings w |} in
  (entry, syncToChrome ch entry w1).

Definition getVocabularyEntry (w : World) (word : jsstring) : option VocabularyEntry :=
  vocabulary w !! generateWordId word.

Definition isWordKnown (w : World) (word : jsstring) : bool :=
  match getVocabularyEntry w word with
  | Some entry => 1 <? ve_lookupCount entry
  | None => false
  end.

(** The entry one iteration of the loop of [syncFromChrome] puts: the merge
    with the local entry when there is one, else the stub. *)
Definition mergedEntry (id : jsstring) (synced : SyncedVocabEntry)
    (existing : option VocabularyEntry) : VocabularyEntry :=
  match existing with
  | Some existing =>
      {| ve_id := ve_id existing;
         ve_word := ve_word existing;
         ve_pinyin := ve_pinyin existing;
         ve_definitions := ve_definitions existing;
         ve_lookupCount := ve_lookupCount existing + sv_c synced;
         ve_firstSeenAt := Z.min (ve_firstSeenAt existing) (sv_f synced);
         ve_lastSeenAt := Z.max (ve_lastSeenAt existing) (sv_l synced);
         ve_contexts := ve_contexts existing;
         ve_characters := ve_characters existing;
         ve_hskLevel := ve_hskLevel existing |}
  | None =>
      {| ve_id := id;
         ve_word := sv_w synced;
         ve_pinyin := sv_p synced;
         ve_definitions := sv_d synced;
         ve_lookupCount := sv_c synced;
         ve_firstSeenAt := sv_f synced;
         ve_lastSeenAt := sv_l synced;
         ve_contexts := [];
         ve_characters := [];
         ve_hskLevel := None |}
  end.

(** One iteration of the loop of [syncFromChrome] over
    [Object.entries(syncedData)]. *)
Definition mergeRecord (db : gmap jsstring VocabularyEntry)
    (kv : jsstring * SyncedVocabEntry) : gmap jsstring VocabularyEntry :=
  let '(id, synced) := kv in
  let existing := db !! id in
  vocabulary_put (mergedEntry id synced existing) db.

Definition syncFromChrome (ch : Channel) (w : World) : World :=
  match chrome_sync_get ch (syncArea w) with
  | Returned syncedData =>
      {| vocabulary := fold_left mergeRecord syncedData (vocabulary w);
         componentMap := componentMap w;
         syncArea := syncArea w; warnings := warnings w |}
  | Thrown =>
      {| vocabulary := vocabulary w; componentMap := componentMap w;
         syncArea := syncArea w; warnings := warnings w ++ [FailedSyncFrom] |}
  end.

(** Another device writes the replicated value. *)
Definition remoteWrite (area : Replica) (w : World) : World :=
  {| vocabulary := vocabulary w; componentMap := componentMap w;
     syncArea := area; warnings := warnings w |}.

Definition getCharactersWithComponent (w : World) (component : jsstring) : list jsstring :=
  default [] (componentMap w !! component).

Definition updateComponentMap (component character : jsstring) (w : World) : World :=
  let chars := default [] (componentMap w !! component) in
  if bool_decide (character ∈ chars) then w
  else
    let chars := chars ++ [character] in
    let chars := if (20 <? length chars)%nat then drop 1 chars else chars in
    {| vocabulary := vocabulary w;
       componentMap := <[component := chars]> (componentMap w);
       syncArea := syncArea w; warnings := warnings w |}.

(** ** [background/service-worker.ts] *)

Abbreviation SeenWith := (list (jsstring * list jsstring)).

(** [updateComponentMap(key, character)] followed by
    [seenWith[key] = getCharactersWithComponent(key)]. *)
Definition recordComponent (character : jsstring) (st : World * SeenWith) (key : jsstring)
  : World * SeenWith :=
  let w := updateComponentMap key character (fst st) in
  (w, object_set (snd st) key (getCharactersWithComponent w key)).

(** The body of the loop of [handleLookup] over [segment.characters]. *)
Definition recordCharacter (st : World * SeenWith) (charInfo : CharacterInfo)
  : World * SeenWith :=
  let st :=
    match ci_radical charInfo with
    | [] => st
    | _ :: _ => recordComponent (ci_character charInfo) st (ci_radical charInfo)
    end in
  match ci_components charInfo with
  | Some comps => fold_left (recordComponent (ci_character charInfo)) comps st
  | None => st
  end.

(** The body of the loop of [handleLookup] over [result.segments].  The
    state carries the number of segments handled so far; [clock i] is the
    value of [Date.now()] inside the save of segment [i]. *)
Definition handleSegment (ch : Channel) (clock : nat -> Z) (context sourceUrl : option jsstring)
    (skipSave : bool) (st : World * SeenWith * nat) (segment : WordSegment)
  : World * SeenWith * nat :=
  let '(w, seenWith, i) := st in
  let '(w, seenWith) := fold_left recordCharacter (ws_characters segment) (w, seenWith) in
  if skipSave then (w, seenWith, S i)
  else
    let ctx :=
      match context with
      | Some (c :: cs) => Some (c :: cs, default [] sourceUrl)
      | _ => None
      end in
    (snd (saveVocabularyEntry ch (clock i) (ws_word segment) (ws_pinyinTones segment)
            (ws_definitions segment) (ws_characters segment) ctx w),
     seenWith, S i).

(** [handleLookup]; [naturalTranslation] is what [translateToEnglish]
    resolved to.  [isWordKnown] reads the store as it is when the call
    starts: [performLookup] has finished before the first save. *)
Definition handleLookup (cedict : CedictData) (unihan : UnihanData)
    (radicals : RadicalData) (hsk : HskData) (ch : Channel) (clock : nat -> Z)
    (naturalTranslation : option jsstring)
    (text : jsstring) (context sourceUrl : option jsstring) (skipSave : bool)
    (w : World) : option (LookupResult * World) :=
  result ← performLookup cedict unihan radicals hsk text [] (isWordKnown w);
  let '(w', seenWith, _) :=
    fold_left (handleSegment ch clock context sourceUrl skipSave)
      (lr_segments result) (w, [], O) in
  Some ({| lr_originalText := lr_originalText result;
           lr_fullPinyin := lr_fullPinyin result;
           lr_naturalTranslation := naturalTranslation;
           lr_segments := lr_segments result;
           lr_seenWith := seenWith |}, w').

(** The listeners of [chrome.runtime.onInstalled] and
    [chrome.runtime.onStartup]: after the dictionaries are loaded, both run
    [syncFromChrome]. *)
Definition onInstalled (ch : Channel) (w : World) : World := syncFromChrome ch w.
Definition onStartup (ch : Channel) (w : World) : World := syncFromChrome ch w.


(** * Properties *)

(** ** Pinyin renderer *)

(** The rule of the specification for the vowel that carries the tone mark,
    written from its words: "a" if present, else "e" if present, else the
    "o" of "ou", else the member of {i, o, u, ü, v} that stands rightmost. *)
Definition rightmostOf (vowels : list N) (lower : jsstring) : option N :=
  last (List.filter (fun c => bool_decide (c ∈ vowels)) lower).

Definition chosenVowel (letters : jsstring) : option N :=
  let lower := toLowerCase letters in
  if bool_decide (ch_a ∈ lower) then Some ch_a
  else if bool_decide (ch_e ∈ lower) then Some ch_e
  else if includes lower [ch_o; ch_u] then Some ch_o
  else rightmostOf [ch_i; ch_o; ch_u; ch_uuml; ch_v] lower.

(** The form of vowel [v] for tone [tone], read off the table. *)
Definition toneForm (v : N) (tone : Z) : jsstring :=
  default [] (toneMarks [v] ≫= (fun row => row !! Z.to_nat (tone - 1))).

(** Putting the mark: the first letter that is [v] up to case gives way to
    [mark], in upper case when that letter is. *)
Fixpoint placeMark (v : N) (mark : jsstring) (letters : jsstring) : jsstring :=
  match letters with
  | [] => []
  | c :: rest =>
      if (lowerUnit c =? v)%N
      then (if (c =? upperUnit c)%N then toUpperCase mark else mark) ++ rest
      else c :: placeMark v mark rest
  end.

Definition toneDigit (tone : Z) : N := (0x30 + Z.to_N tone)%N.

Lemma takeWhile_app_all {A} (f : A -> bool) (l r : list A) :
  Forall (fun x => f x = true) l -> takeWhile f (l ++ r) = l ++ takeWhile f r.
Proof.
  induction 1 as [|x l Hx _ IH]; simpl; [reflexivity|].
  rewrite Hx, IH. reflexivity.
Qed.

Lemma dropWhile_app_all {A} (f : A -> bool) (l r : list A) :
  Forall (fun x => f x = true) l -> dropWhile f (l ++ r) = dropWhile f r.
Proof.
  induction 1 as [|x l Hx _ IH]; simpl; [reflexivity|].
  rewrite Hx. exact IH.
Qed.

(** Goals [test1 c = true -> test2 c = false] about ranges of code units. *)
Ltac units_prop H :=
  unfold in_range in H;
  rewrite ?orb_true_iff, ?andb_true_iff, ?negb_true_iff, ?N.leb_le, ?N.ltb_lt,
    ?N.eqb_eq, ?N.eqb_neq in H.

Ltac units_false :=
  let H1 := fresh in let H2 := fresh in
  intros H1; apply not_true_is_false; intros H2;
  units_prop H1; units_prop H2; lia.

Lemma isPinyinLetter_not_space c : isPinyinLetter c = true -> isWhiteSpace c = false.
Proof. unfold isPinyinLetter, isWhiteSpace. units_false. Qed.

Lemma isDigit_not_space c : isDigit c = true -> isWhiteSpace c = false.
Proof. unfold isDigit, isWhiteSpace. units_false. Qed.

Lemma isDigit_not_letter c : isDigit c = true -> isPinyinLetter c = false.
Proof. unfold isDigit, isPinyinLetter. units_false. Qed.

Lemma split_ws_go_plain cur s :
  Forall (fun c => isWhiteSpace c = false) s ->
  split_ws_go false cur s = [rev cur ++ s].
Proof.
  intros H. revert cur. induction H as [|c s Hc _ IH]; intros cur; simpl.
  - rewrite app_nil_r. reflexivity.
  - rewrite Hc, IH. simpl. rewrite <- app_assoc. reflexivity.
Qed.

Lemma split_ws_plain s :
  Forall (fun c => isWhiteSpace c = false) s -> split_ws s = [s].
Proof. intros H. unfold split_ws. rewrite split_ws_go_plain by exact H. reflexivity. Qed.

Lemma numericToToneMark_plain s :
  Forall (fun c => isWhiteSpace c = false) s ->
  numericToToneMark s = convertSyllable s.
Proof. intros H. unfold numericToToneMark. rewrite split_ws_plain by exact H. reflexivity. Qed.

Lemma matchSyllable_letters letters :
  letters <> [] -> Forall (fun c => isPinyinLetter c = true) letters ->
  matchSyllable letters = Some (letters, None).
Proof.
  intros Hne Hall. unfold matchSyllable.
  pose proof (takeWhile_app_all isPinyinLetter letters [] Hall) as Ht.
  pose proof (dropWhile_app_all isPinyinLetter letters [] Hall) as Hd.
  rewrite app_nil_r in Ht, Hd. simpl in Ht, Hd. rewrite app_nil_r in Ht.
  rewrite Ht, Hd. destruct letters; [contradiction|reflexivity].
Qed.

Lemma matchSyllable_digit letters dg :
  letters <> [] -> Forall (fun c => isPinyinLetter c = true) letters ->
  isDigit dg = true ->
  matchSyllable (letters ++ [dg]) = Some (letters, Some dg).
Proof.
  intros Hne Hall Hd. unfold matchSyllable.
  rewrite (takeWhile_app_all isPinyinLetter letters [dg] Hall).
  rewrite (dropWhile_app_all isPinyinLetter letters [dg] Hall).
  simpl. rewrite (isDigit_not_letter dg Hd). rewrite app_nil_r.
  destruct letters; [contradiction|]. rewrite Hd. reflexivity.
Qed.

(** Position of the first occurrence of a unit, for reasoning on [indexOf]. *)
Fixpoint firstIndex (v : N) (s : jsstring) : option nat :=
  match s with
  | [] => None
  | c :: s' => if (v =? c)%N then Some O else S <$> firstIndex v s'
  end.


(** The position the specification marks: that of the vowel its rule picks,
    the "a", else the "e", else the "o" of "ou", else the rightmost position
    that holds one of i, o, u, ü, v. *)
Fixpoint lastPosition (p : N -> bool) (s : jsstring) : option nat :=
  match s with
  | [] => None
  | c :: s' =>
      match lastPosition p s' with
      | Some k => Some (S k)
      | None => if p c then Some O else None
      end
  end.

Definition claimedPosition (letters : jsstring) : option nat :=
  let lower := toLowerCase letters in
  if bool_decide (ch_a ∈ lower) then firstIndex ch_a lower
  else if bool_decide (ch_e ∈ lower) then firstIndex ch_e lower
  else if includes lower [ch_o; ch_u] then Some (Z.to_nat (indexOf lower [ch_o; ch_u]))
  else lastPosition (fun c => bool_decide (c ∈ [ch_i; ch_o; ch_u; ch_uuml; ch_v])) lower.

(** The syllable with the letter at position [k] replaced by its form for
    [tone], in upper case when the letter is. *)
Definition markedAt (k : nat) (tone : Z) (letters : jsstring) : jsstring :=
  match letters !! k with
  | Some c =>
      take k letters
        ++ (if (c =? upperUnit c)%N then toUpperCase (toneForm (lowerUnit c) tone)
            else toneForm (lowerUnit c) tone)
        ++ drop (S k) letters
  | None => letters
  end.

(** The letter [v] stands at one place only. *)
Definition occursOnce (v : N) (lower : jsstring) : Prop :=
  length (List.filter (N.eqb v) lower) = 1%nat.

Lemma indexOf_from_single v s i :
  indexOf_from [v] s i =
  match firstIndex v s with
  | Some k => i + Z.of_nat k
  | None => -1
  end.
Proof.
  revert i. induction s as [|c s IH]; intros i; simpl; [reflexivity|].
  destruct (v =? c)%N; simpl; [lia|].
  rewrite IH. destruct (firstIndex v s); simpl; lia.
Qed.

Lemma firstIndex_None v s : firstIndex v s = None <-> v ∉ s.
Proof.
  induction s as [|c s IH]; simpl.
  - split; [intros _; apply not_elem_of_nil | reflexivity].
  - destruct (N.eqb_spec v c) as [->|Hne].
    + split; [discriminate | intros H; exfalso; apply H; left].
    + rewrite not_elem_of_cons. destruct (firstIndex v s); simpl.
      * split; [discriminate | intros [_ H]; apply IH in H; discriminate].
      * split; [intros _; split; [exact Hne | apply IH; reflexivity] | reflexivity].
Qed.

Lemma includes_single s v : includes s [v] = bool_decide (v ∈ s).
Proof.
  unfold includes, indexOf. rewrite indexOf_from_single.
  destruct (firstIndex v s) as [k|] eqn:E.
  - assert (v ∈ s) as Hin.
    { destruct (decide (v ∈ s)) as [H|H]; [exact H|].
      apply firstIndex_None in H. congruence. }
    rewrite (bool_decide_eq_true_2 _ Hin). apply Z.leb_le. lia.
  - apply firstIndex_None in E. rewrite (bool_decide_eq_false_2 _ E). reflexivity.
Qed.

Lemma includes_head x p s i :
  0 <= i -> 0 <= indexOf_from (x :: p) s i -> x ∈ s.
Proof.
  revert i. induction s as [|c s IH]; intros i Hi; simpl.
  - lia.
  - destruct (N.eqb_spec x c) as [->|Hne]; simpl.
    + intros _. left.
    + intros H. right. apply (IH (i + 1)); [lia | exact H].
Qed.

Lemma lastIndexOf_from_snoc v l c i acc :
  lastIndexOf_from [v] (l ++ [c]) i acc =
  if (v =? c)%N then i + Z.of_nat (length l) else lastIndexOf_from [v] l i acc.
Proof.
  revert i acc. induction l as [|x l IH]; intros i acc.
  - simpl. destruct (v =? c)%N; simpl; [lia | reflexivity].
  - change ((x :: l) ++ [c]) with (x :: (l ++ [c])).
    cbn [lastIndexOf_from]. rewrite IH.
    destruct (v =? c)%N; [cbn [length]; lia | reflexivity].
Qed.

Lemma lastIndexOf_from_bound v l i acc :
  -1 <= acc < i ->
  -1 <= lastIndexOf_from [v] l i acc < i + Z.of_nat (length l).
Proof.
  revert i acc. induction l as [|x l IH]; intros i acc H.
  - simpl. lia.
  - cbn [lastIndexOf_from length].
    match goal with |- context [lastIndexOf_from _ _ _ ?a] =>
      specialize (IH (i + 1) a) end.
    destruct (startsWith [v] (x :: l)); lia.
Qed.

(** The loop of [getToneVowel] as a function of the five last indices. *)
Definition pickLast (ai ao au ay av : Z) : option jsstring :=
  let st := (-1, None) in
  let st := if fst st <? ai then (ai, Some [ch_i]) else st in
  let st := if fst st <? ao then (ao, Some [ch_o]) else st in
  let st := if fst st <? au then (au, Some [ch_u]) else st in
  let st := if fst st <? ay then (ay, Some [ch_uuml]) else st in
  let st := if fst st <? av then (av, Some [ch_v]) else st in
  snd st.

Lemma toneVowel_loop lower :
  snd (fold_left (toneVowel_step lower)
         [[ch_i]; [ch_o]; [ch_u]; [ch_uuml]; [ch_v]] (-1, None)) =
  pickLast (lastIndexOf lower [ch_i]) (lastIndexOf lower [ch_o])
    (lastIndexOf lower [ch_u]) (lastIndexOf lower [ch_uuml]) (lastIndexOf lower [ch_v]).
Proof. reflexivity. Qed.

Ltac split_ltb :=
  repeat (cbn [fst snd];
          match goal with
          | |- context [?a <? ?b] =>
              lazymatch a with
              | context [if _ then _ else _] => fail
              | _ => destruct (Z.ltb_spec a b)
              end
          end).

Lemma toneVowel_loop_rightmost lower :
  pickLast (lastIndexOf lower [ch_i]) (lastIndexOf lower [ch_o])
    (lastIndexOf lower [ch_u]) (lastIndexOf lower [ch_uuml]) (lastIndexOf lower [ch_v])
  = (fun c => [c]) <$> rightmostOf [ch_i; ch_o; ch_u; ch_uuml; ch_v] lower.
Proof.
  induction lower as [|c l IH] using rev_ind; [reflexivity|].
  unfold rightmostOf. rewrite List.filter_app, last_app. cbn [List.filter].
  unfold lastIndexOf in *. rewrite !lastIndexOf_from_snoc.
  assert (forall v, -1 <= lastIndexOf_from [v] l 0 (-1) < Z.of_nat (length l)) as Hb.
  { intros v. pose proof (lastIndexOf_from_bound v l 0 (-1)). lia. }
  pose proof (Hb ch_i). pose proof (Hb ch_o). pose proof (Hb ch_u).
  pose proof (Hb ch_uuml). pose proof (Hb ch_v).
  destruct (bool_decide (c ∈ [ch_i; ch_o; ch_u; ch_uuml; ch_v])) eqn:Hc.
  - apply bool_decide_eq_true_1 in Hc. cbn [last fmap option_fmap option_map].
    set_unfold in Hc.
    destruct Hc as [->|[->|[->|[->|[->|[]]]]]]; cbn -[lastIndexOf_from Z.ltb];
      unfold pickLast; split_ltb; cbn [fst snd]; first [reflexivity | exfalso; lia].
  - apply bool_decide_eq_false_1 in Hc. cbn [last].
    set_unfold in Hc.
    destruct (N.eqb_spec ch_i c); [exfalso; apply Hc; subst c; auto 10|].
    destruct (N.eqb_spec ch_o c); [exfalso; apply Hc; subst c; auto 10|].
    destruct (N.eqb_spec ch_u c); [exfalso; apply Hc; subst c; auto 10|].
    destruct (N.eqb_spec ch_uuml c); [exfalso; apply Hc; subst c; auto 10|].
    destruct (N.eqb_spec ch_v c); [exfalso; apply Hc; subst c; auto 10|].
    exact IH.
Qed.

Lemma getToneVowel_chosen letters :
  getToneVowel letters = (fun c => [c]) <$> chosenVowel letters.
Proof.
  unfold getToneVowel, chosenVowel. cbv zeta.
  rewrite !includes_single.
  destruct (bool_decide (ch_a ∈ toLowerCase letters)); [reflexivity|].
  destruct (bool_decide (ch_e ∈ toLowerCase letters)); [reflexivity|].
  destruct (includes (toLowerCase letters) [ch_o; ch_u]); [reflexivity|].
  rewrite toneVowel_loop. apply toneVowel_loop_rightmost.
Qed.

Definition toneVowels : list N := [ch_a; ch_e; ch_i; ch_o; ch_u; ch_uuml; ch_v].

Ltac in_vowels :=
  unfold toneVowels;
  repeat first [apply list_elem_of_here | apply list_elem_of_further].

Lemma chosenVowel_facts letters v :
  chosenVowel letters = Some v -> v ∈ toneVowels /\ v ∈ toLowerCase letters.
Proof.
  clear normalize_NFC.
  unfold chosenVowel. cbv zeta.
  destruct (bool_decide (ch_a ∈ toLowerCase letters)) eqn:Ea.
  { intros [= <-]. apply bool_decide_eq_true_1 in Ea. split; [in_vowels | exact Ea]. }
  destruct (bool_decide (ch_e ∈ toLowerCase letters)) eqn:Ee.
  { intros [= <-]. apply bool_decide_eq_true_1 in Ee. split; [in_vowels | exact Ee]. }
  destruct (includes (toLowerCase letters) [ch_o; ch_u]) eqn:Eo.
  { intros [= <-]. split; [in_vowels|].
    unfold includes, indexOf in Eo. apply Z.leb_le in Eo.
    eapply includes_head; [|exact Eo]. lia. }
  unfold rightmostOf. intros H. apply last_Some_elem_of in H.
  apply list_elem_of_In, List.filter_In in H. destruct H as [Hin Hv].
  apply bool_decide_eq_true_1 in Hv. apply list_elem_of_In in Hin.
  split; [|exact Hin].
  unfold toneVowels. rewrite !elem_of_cons in *. tauto.
Qed.

Lemma toneVowels_lower v : v ∈ toneVowels -> toLowerCase [v] = [v].
Proof.
  intros H. unfold toneVowels in H. set_unfold in H.
  destruct H as [->|[->|[->|[->|[->|[->|[->|[]]]]]]]]; reflexivity.
Qed.

Lemma toneMarks_form v tone :
  v ∈ toneVowels -> 1 <= tone <= 5 ->
  toneMarks [v] ≫= (fun row => row !! Z.to_nat (tone - 1)) = Some (toneForm v tone).
Proof.
  intros H Ht. unfold toneVowels in H. set_unfold in H.
  assert (tone = 1 \/ tone = 2 \/ tone = 3 \/ tone = 4 \/ tone = 5) as Hc by lia.
  destruct Hc as [->|[->|[->|[->| ->]]]];
    destruct H as [->|[->|[->|[->|[->|[->|[->|[]]]]]]]]; reflexivity.
Qed.

Lemma toLowerCase_pinyin letters :
  Forall (fun c => isPinyinLetter c = true) letters ->
  toLowerCase letters = map lowerUnit letters.
Proof.
  induction 1 as [|c l Hc _ IH]; [reflexivity|].
  unfold toLowerCase in *. cbn [flat_map map]. rewrite IH. unfold lowerUnits.
  assert ((c =? 0x130)%N = false) as ->; [|reflexivity].
  revert Hc. unfold isPinyinLetter. intros Hc. apply N.eqb_neq. units_prop Hc. lia.
Qed.

Lemma place_at letters v mark k :
  firstIndex v (map lowerUnit letters) = Some k ->
  slice letters 0 k
    ++ (if bool_decide (slice letters k (S k) = toUpperCase (slice letters k (S k)))
        then toUpperCase mark else mark)
    ++ drop (S k) letters
  = placeMark v mark letters.
Proof.
  revert k. induction letters as [|c rest IH]; intros k; [discriminate|].
  cbn [map firstIndex placeMark].
  rewrite (N.eqb_sym v (lowerUnit c)).
  destruct (lowerUnit c =? v)%N.
  - intros [= <-]. unfold slice. cbn.
    change (take 0 rest) with (@nil N). change (drop 0 rest) with rest. cbn [map].
    destruct (N.eqb_spec c (upperUnit c)) as [Heq|Hne].
    + rewrite bool_decide_eq_true_2 by congruence. reflexivity.
    + rewrite bool_decide_eq_false_2 by congruence. reflexivity.
  - destruct (firstIndex v (map lowerUnit rest)) as [k'|] eqn:E; [|discriminate].
    intros [= <-]. specialize (IH k' eq_refl).
    unfold slice in *. rewrite Nat.sub_0_r in *.
    replace (S (S k') - S k')%nat with 1%nat by lia.
    replace (S k' - k')%nat with 1%nat in IH by lia.
    cbn [take drop app]. rewrite <- IH. reflexivity.
Qed.

Lemma convertSyllable_tone letters tone :
  letters <> [] -> Forall (fun c => isPinyinLetter c = true) letters ->
  1 <= tone <= 5 ->
  convertSyllable (letters ++ [toneDigit tone]) =
  match chosenVowel letters with
  | Some v => placeMark v (toneForm v tone) letters
  | None => letters
  end.
Proof.
  intros Hne Hall Ht.
  assert (isDigit (toneDigit tone) = true /\ parseDigit (toneDigit tone) = tone) as [Hd Hp].
  { assert (tone = 1 \/ tone = 2 \/ tone = 3 \/ tone = 4 \/ tone = 5) as Hc by lia.
    destruct Hc as [->|[->|[->|[->| ->]]]]; split; reflexivity. }
  unfold convertSyllable. rewrite (matchSyllable_digit letters _ Hne Hall Hd).
  rewrite Hp.
  replace ((tone <? 1) || (5 <? tone))%bool with false
    by (symmetry; apply orb_false_iff; split; apply Z.ltb_ge; lia).
  rewrite getToneVowel_chosen.
  destruct (chosenVowel letters) as [v|] eqn:Ev; [|reflexivity].
  cbn [fmap option_fmap option_map].
  destruct (chosenVowel_facts _ _ Ev) as [Hv Hin].
  rewrite (toneVowels_lower v Hv), (toneMarks_form v tone Hv Ht).
  unfold indexOf. rewrite indexOf_from_single.
  destruct (firstIndex v (toLowerCase letters)) as [k|] eqn:Ek.
  - replace (Z.to_nat (0 + Z.of_nat k)) with k by lia.
    apply place_at. rewrite <- (toLowerCase_pinyin letters Hall). exact Ek.
  - apply firstIndex_None in Ek. contradiction.
Qed.

Lemma firstIndex_lookup v s k : firstIndex v s = Some k -> s !! k = Some v.
Proof.
  revert k. induction s as [|c s IH]; intros k; cbn [firstIndex]; [discriminate|].
  destruct (N.eqb_spec v c) as [->|Hne].
  - intros [= <-]. reflexivity.
  - destruct (firstIndex v s) as [k'|]; [|discriminate].
    intros [= <-]. cbn. apply IH. reflexivity.
Qed.

Lemma occursOnce_position v s i j :
  occursOnce v s -> s !! i = Some v -> s !! j = Some v -> i = j.
Proof.
  unfold occursOnce. revert i j. induction s as [|c s IH]; intros i j Hone Hi Hj;
    [discriminate|].
  cbn [List.filter] in Hone. destruct (N.eqb_spec v c) as [->|Hne].
  - cbn [length] in Hone.
    assert (forall k, s !! k <> Some c) as Hnone.
    { intros k Hk. apply list_elem_of_lookup_2, list_elem_of_In in Hk.
      assert (In c (List.filter (N.eqb c) s)) as Hin
        by (apply List.filter_In; split; [exact Hk | apply N.eqb_refl]).
      destruct (List.filter (N.eqb c) s); [contradiction | discriminate]. }
    destruct i as [|i], j as [|j]; [reflexivity | | |]; cbn in Hi, Hj;
      exfalso; eapply Hnone; eassumption.
  - destruct i as [|i]; [cbn in Hi; congruence|].
    destruct j as [|j]; [cbn in Hj; congruence|].
    cbn in Hi, Hj. f_equal. apply IH; assumption.
Qed.

Lemma lastPosition_last (p : N -> bool) (s : jsstring) :
  (lastPosition p s = None /\ List.filter p s = [])
  \/ exists k v, lastPosition p s = Some k /\ last (List.filter p s) = Some v
                 /\ s !! k = Some v.
Proof.
  induction s as [|c s IH]; [left; split; reflexivity|].
  cbn [lastPosition List.filter].
  destruct IH as [[-> ->]|(k & v & -> & Hlast & Hk)].
  - destruct (p c); [right; exists O, c; repeat split | left; split; reflexivity].
  - right. exists (S k), v. split; [reflexivity|]. split; [|exact Hk].
    destruct (p c); [|exact Hlast]. rewrite last_cons, Hlast. reflexivity.
Qed.

Lemma indexOf_from_lookup x pat s i :
  0 <= i -> 0 <= indexOf_from (x :: pat) s i ->
  i <= indexOf_from (x :: pat) s i
  /\ s !! Z.to_nat (indexOf_from (x :: pat) s i - i) = Some x.
Proof.
  revert i. induction s as [|c s IH]; intros i Hi; cbn [indexOf_from startsWith].
  - lia.
  - destruct (N.eqb_spec x c) as [->|Hne]; cbn [andb].
    + destruct (startsWith pat s).
      * intros _. split; [lia|]. replace (i - i) with 0 by lia. reflexivity.
      * intros H. destruct (IH (i + 1) ltac:(lia) H) as [Hle Hl]. split; [lia|].
        replace (Z.to_nat (indexOf_from (c :: pat) s (i + 1) - i))
          with (S (Z.to_nat (indexOf_from (c :: pat) s (i + 1) - (i + 1)))) by lia.
        exact Hl.
    + intros H. destruct (IH (i + 1) ltac:(lia) H) as [Hle Hl]. split; [lia|].
      replace (Z.to_nat (indexOf_from (x :: pat) s (i + 1) - i))
        with (S (Z.to_nat (indexOf_from (x :: pat) s (i + 1) - (i + 1)))) by lia.
      exact Hl.
Qed.

Lemma claimedPosition_chosen letters v :
  chosenVowel letters = Some v ->
  exists k, claimedPosition letters = Some k /\ toLowerCase letters !! k = Some v.
Proof.
  unfold chosenVowel, claimedPosition. cbv zeta.
  destruct (bool_decide (ch_a ∈ toLowerCase letters)) eqn:Ea.
  { intros [= <-]. apply bool_decide_eq_true_1 in Ea.
    destruct (firstIndex ch_a (toLowerCase letters)) as [k|] eqn:Ek.
    - exists k. split; [reflexivity | apply firstIndex_lookup, Ek].
    - apply firstIndex_None in Ek. contradiction. }
  destruct (bool_decide (ch_e ∈ toLowerCase letters)) eqn:Ee.
  { intros [= <-]. apply bool_decide_eq_true_1 in Ee.
    destruct (firstIndex ch_e (toLowerCase letters)) as [k|] eqn:Ek.
    - exists k. split; [reflexivity | apply firstIndex_lookup, Ek].
    - apply firstIndex_None in Ek. contradiction. }
  destruct (includes (toLowerCase letters) [ch_o; ch_u]) eqn:Eo.
  { intros [= <-]. eexists. split; [reflexivity|].
    unfold includes, indexOf in *. apply Z.leb_le in Eo.
    destruct (indexOf_from_lookup ch_o [ch_u] (toLowerCase letters) 0 ltac:(lia) Eo)
      as [_ Hl].
    rewrite Z.sub_0_r in Hl. exact Hl. }
  unfold rightmostOf. intros Hlast.
  destruct (lastPosition_last
              (fun c => bool_decide (c ∈ [ch_i; ch_o; ch_u; ch_uuml; ch_v]))
              (toLowerCase letters)) as [[_ Hnil]|(k & v' & Hk & Hlast' & Hl)].
  - rewrite Hnil in Hlast. discriminate.
  - rewrite Hlast in Hlast'. injection Hlast' as <-. exists k. auto.
Qed.

Lemma placeMark_markedAt v tone letters k :
  firstIndex v (map lowerUnit letters) = Some k ->
  placeMark v (toneForm v tone) letters = markedAt k tone letters.
Proof.
  revert k. induction letters as [|c rest IH]; intros k; [discriminate|].
  cbn [map firstIndex placeMark]. rewrite (N.eqb_sym v (lowerUnit c)).
  destruct (N.eqb_spec (lowerUnit c) v) as [Hv|Hne].
  - intros [= <-]. unfold markedAt. cbn [lookup list_lookup take drop app]. rewrite Hv.
    reflexivity.
  - destruct (firstIndex v (map lowerUnit rest)) as [k'|] eqn:E; [|discriminate].
    intros [= <-]. rewrite (IH k' eq_refl). unfold markedAt. cbn [lookup list_lookup].
    destruct (rest !! k'); reflexivity.
Qed.

Lemma firstIndex_Some v s : v ∈ s -> exists k, firstIndex v s = Some k.
Proof.
  intros Hin. destruct (firstIndex v s) as [k|] eqn:E; [eauto|].
  apply firstIndex_None in E. contradiction.
Qed.

Lemma mark_on_claimed_position letters v tone :
  Forall (fun c => isPinyinLetter c = true) letters ->
  chosenVowel letters = Some v ->
  occursOnce v (toLowerCase letters) ->
  exists k, claimedPosition letters = Some k
            /\ placeMark v (toneForm v tone) letters = markedAt k tone letters.
Proof.
  intros Hall Hv Honce.
  destruct (claimedPosition_chosen letters v Hv) as (k & Hk & Hl).
  exists k. split; [exact Hk|].
  destruct (chosenVowel_facts letters v Hv) as [_ Hin].
  destruct (firstIndex_Some v _ Hin) as (k0 & Hk0).
  pose proof (firstIndex_lookup _ _ _ Hk0) as Hl0.
  assert (k0 = k) as -> by (eapply occursOnce_position; eassumption).
  apply placeMark_markedAt. rewrite <- (toLowerCase_pinyin letters Hall). exact Hk0.
Qed.

(** C4, as amended.  For a syllable made of letters and an optional tone
    digit: without a digit the letters come back unchanged; with a digit
    outside 1..5 the whole syllable comes back unchanged; with a tone in 1..5
    the vowel letter is chosen by the priority rule (a, else e, else o when
    the syllable holds ou, else the rightmost of i, o, u, ü, v) and the mark
    is put on the first place where that letter stands.  When the chosen
    letter stands at one place only, that is the place the specification
    marks.  Tone 5 uses the bare vowel.  The four examples of the
    specification evaluate as given. *)
Theorem numericToToneMark_priority_rule (letters : jsstring) :
  letters <> [] ->
  Forall (fun c => isPinyinLetter c = true) letters ->
  numericToToneMark letters = letters
  /\ (forall dg, isDigit dg = true -> parseDigit dg < 1 \/ 5 < parseDigit dg ->
        numericToToneMark (letters ++ [dg]) = letters ++ [dg])
  /\ (forall tone, 1 <= tone <= 5 ->
        match chosenVowel letters with
        | Some v =>
            exists first,
              firstIndex v (toLowerCase letters) = Some first
              /\ numericToToneMark (letters ++ [toneDigit tone])
                 = markedAt first tone letters
        | None => numericToToneMark (letters ++ [toneDigit tone]) = letters
        end)
  /\ (forall tone v, 1 <= tone <= 5 ->
        chosenVowel letters = Some v ->
        occursOnce v (toLowerCase letters) ->
        exists k,
          claimedPosition letters = Some k
          /\ toLowerCase letters !! k = Some v
          /\ numericToToneMark (letters ++ [toneDigit tone]) = markedAt k tone letters)
  /\ (forall v, chosenVowel letters = Some v ->
        toneForm v 5 = [if (v =? ch_v)%N then ch_uuml else v])
  /\ numericToToneMark (js "ma1") = [0x6D; 0x101]%N
  /\ numericToToneMark [0x6E; 0xFC; 0x33]%N = [0x6E; 0x1DA]%N
  /\ numericToToneMark (js "dui4") = [0x64; 0x75; 0xEC]%N
  /\ numericToToneMark (js "zhong1 guo2")
     = js "zh" ++ [0x14D%N] ++ js "ng gu" ++ [0xF3%N].
Proof.
  intros Hne Hall.
  assert (Forall (fun c => isWhiteSpace c = false) letters) as Hns.
  { eapply Forall_impl; [exact Hall|]. intros c. apply isPinyinLetter_not_space. }
  assert (forall tone, 1 <= tone <= 5 ->
            numericToToneMark (letters ++ [toneDigit tone]) =
            match chosenVowel letters with
            | Some v => placeMark v (toneForm v tone) letters
            | None => letters
            end) as Hmark.
  { intros tone Ht.
    rewrite numericToToneMark_plain.
    2:{ apply Forall_app. split; [exact Hns|].
        constructor; [|constructor]. apply isDigit_not_space.
        assert (tone = 1 \/ tone = 2 \/ tone = 3 \/ tone = 4 \/ tone = 5) as Hc by lia.
        destruct Hc as [->|[->|[->|[->| ->]]]]; reflexivity. }
    apply convertSyllable_tone; assumption. }
  split; [|split; [|split; [|split; [|split]]]].
  - rewrite numericToToneMark_plain by exact Hns.
    unfold convertSyllable. rewrite matchSyllable_letters by assumption. reflexivity.
  - intros dg Hd Hout.
    rewrite numericToToneMark_plain.
    2:{ apply Forall_app. split; [exact Hns|].
        constructor; [apply isDigit_not_space; exact Hd | constructor]. }
    unfold convertSyllable. rewrite (matchSyllable_digit letters dg Hne Hall Hd).
    replace ((parseDigit dg <? 1) || (5 <? parseDigit dg))%bool with true; [reflexivity|].
    symmetry. apply orb_true_iff. destruct Hout; [left | right]; apply Z.ltb_lt; lia.
  - intros tone Ht. rewrite (Hmark tone Ht).
    destruct (chosenVowel letters) as [v|] eqn:Ev; [|reflexivity].
    destruct (chosenVowel_facts letters v Ev) as [_ Hin].
    destruct (firstIndex_Some v _ Hin) as (first & Hfirst).
    exists first. split; [exact Hfirst|].
    apply placeMark_markedAt. rewrite <- (toLowerCase_pinyin letters Hall). exact Hfirst.
  - intros tone v Ht Ev Honce. rewrite (Hmark tone Ht), Ev.
    destruct (claimedPosition_chosen letters v Ev) as (k & Hk & Hl).
    destruct (mark_on_claimed_position letters v tone Hall Ev Honce) as (k' & Hk' & Hm).
    rewrite Hk in Hk'. injection Hk' as <-. exists k. auto.
  - intros v Hv. apply chosenVowel_facts in Hv. destruct Hv as [Hv _].
    unfold toneVowels in Hv. set_unfold in Hv.
    destruct Hv as [->|[->|[->|[->|[->|[->|[->|[]]]]]]]]; reflexivity.
  - repeat split; reflexivity.
Qed.

(** ** Definition ranking *)

(** [s] begins with [p]. *)
Definition hasPrefix (p s : jsstring) : Prop := exists rest, s = p ++ rest.

(** [mid] spells [alt], up to case when [ci]. *)
Definition spells (ci : bool) (alt mid : jsstring) : Prop :=
  if ci then map canonicalize alt = map canonicalize mid else alt = mid.

(** [alt] occurs somewhere in [s]. *)
Definition occurs (ci : bool) (alt s : jsstring) : Prop :=
  exists pre mid post, s = pre ++ mid ++ post /\ spells ci alt mid.

(** One of [alts] occurs in [s] as a whole word: a word boundary on either
    side of the occurrence. *)
Definition occursAsWord (ci : bool) (alts : list jsstring) (s : jsstring) : Prop :=
  exists pre mid post alt,
    s = pre ++ mid ++ post /\ alt ∈ alts /\ spells ci alt mid
    /\ boundary (last pre) (mid ++ post) = true
    /\ boundary (last mid) post = true.

(** [s] begins with [p] followed by a letter a..z. *)
Definition hasPrefixThenLower (p s : jsstring) : Prop :=
  exists c rest, s = p ++ c :: rest /\ in_range 0x61 0x7A c = true.

(** The score as the specification words it: plain containment for the
    markers in the middle of a gloss, plain prefixes for the boosts. *)
Definition claimedScore (def : jsstring) : Z :=
  100
  - 80 * Z.b2z (testPrefixes [js "variant of"; js "see "; js "old variant";
                              js "archaic variant"; js "same as"] def)
  - 40 * Z.b2z (existsb (includes def)
                  [js "archaic"; js "literary"; js "dialect"; js "old-fashioned"])
  - 30 * Z.b2z (existsb (includes def) [js "Taiwan pr."; js "also pr."; js "Taiwan variant"])
  - 25 * Z.b2z (testPrefixes [js "abbr."; js "abbreviation"] def)
  - 20 * Z.b2z (includes def (js "euphemism"))
  - 15 * Z.b2z (startsWith (js "lit. ") def)
  - 10 * Z.b2z (startsWith (js "fig. ") def)
  - 35 * Z.b2z (startsWith (js "CL:") def)
  - 20 * Z.b2z (length def <? 5)%nat
  + 10 * Z.b2z (startsWith (js "to ") def)
  + 5 * Z.b2z (testPrefixes [js "a "; js "the "] def).

(** The number of definitions of a sense that are not references. *)
Definition realCount (entry : CedictSense) : Z :=
  Z.of_nat (length (List.filter (fun d => negb (isVariantDefinition d)) (ce_d entry))).

Lemma startsWith_spec p s : startsWith p s = true <-> hasPrefix p s.
Proof.
  unfold hasPrefix. revert s. induction p as [|a p IH]; intros s; simpl.
  - split; [intros _; exists s; reflexivity | reflexivity].
  - destruct s as [|b s].
    + split; [discriminate | intros [rest H]; discriminate].
    + rewrite andb_true_iff, N.eqb_eq, IH. split.
      * intros [-> [rest ->]]. exists rest. reflexivity.
      * intros [rest [= -> ->]]. split; [reflexivity | exists rest; reflexivity].
Qed.

Lemma startsWith_ci_spec p s :
  startsWith_ci p s = true <->
  exists mid rest, s = mid ++ rest /\ map canonicalize p = map canonicalize mid.
Proof.
  revert s. induction p as [|a p IH]; intros s; simpl.
  - split; [intros _; exists (@nil N), s; split; reflexivity | reflexivity].
  - destruct s as [|b s].
    + split; [discriminate|]. intros (mid & rest & H & Hm).
      destruct mid; simpl in *; discriminate.
    + rewrite andb_true_iff, N.eqb_eq, IH. split.
      * intros [Hab (mid & rest & -> & Hm)]. exists (b :: mid), rest.
        split; [reflexivity | simpl; congruence].
      * intros (mid & rest & H & Hm). destruct mid as [|b' mid]; [discriminate|].
        simpl in H, Hm. injection H as <- ->. injection Hm as Hab Hm.
        split; [exact Hab | exists mid, rest; split; [reflexivity | exact Hm]].
Qed.

Lemma spells_length ci alt mid : spells ci alt mid -> length mid = length alt.
Proof.
  unfold spells. destruct ci; [|intros ->; reflexivity].
  intros H. apply (f_equal length) in H. rewrite !length_map in H. lia.
Qed.

Lemma startsWith_any_spec (ci : bool) (alt s : jsstring) :
  (if ci then startsWith_ci alt s else startsWith alt s) = true <->
  exists mid rest, s = mid ++ rest /\ spells ci alt mid.
Proof.
  unfold spells. destruct ci.
  - apply startsWith_ci_spec.
  - rewrite startsWith_spec. unfold hasPrefix. split.
    + intros [rest ->]. exists alt, rest. split; reflexivity.
    + intros (mid & rest & -> & ->). exists rest. reflexivity.
Qed.

Lemma altThenBoundary_spec ci s alt :
  altThenBoundary ci s alt = true <->
  exists mid post, s = mid ++ post /\ spells ci alt mid /\ boundary (last mid) post = true.
Proof.
  unfold altThenBoundary. rewrite andb_true_iff, startsWith_any_spec. split.
  - intros [(mid & rest & -> & Hs) Hb]. exists mid, rest.
    pose proof (spells_length _ _ _ Hs) as Hl.
    rewrite <- Hl, take_app_length, drop_app_length in Hb. auto.
  - intros (mid & post & -> & Hs & Hb).
    pose proof (spells_length _ _ _ Hs) as Hl.
    rewrite <- Hl, take_app_length, drop_app_length. eauto.
Qed.

Definition lastOr (prev : option N) (pre : jsstring) : option N :=
  match last pre with
  | Some c => Some c
  | None => prev
  end.

Lemma testWords_go_spec ci alts prev s :
  testWords_go ci alts prev s = true <->
  exists pre mid post alt,
    s = pre ++ mid ++ post /\ alt ∈ alts /\ spells ci alt mid
    /\ boundary (lastOr prev pre) (mid ++ post) = true
    /\ boundary (last mid) post = true.
Proof.
  revert prev. induction s as [|c s IH]; intros prev.
  - cbn [testWords_go]. rewrite orb_false_r, andb_true_iff, existsb_exists. split.
    + intros [Hb (alt & Hin & Ha)]. apply altThenBoundary_spec in Ha.
      destruct Ha as (mid & post & E & Hs & Hb2).
      exists (@nil N), mid, post, alt. rewrite <- E. apply list_elem_of_In in Hin. auto.
    + intros (pre & mid & post & alt & E & Hin & Hs & Hb1 & Hb2).
      destruct pre; [|discriminate]. simpl in E. rewrite <- E in Hb1.
      split; [exact Hb1|]. exists alt. split; [apply list_elem_of_In; exact Hin|].
      apply altThenBoundary_spec. exists mid, post. auto.
  - cbn [testWords_go]. rewrite orb_true_iff, andb_true_iff, existsb_exists, IH. split.
    + intros [[Hb (alt & Hin & Ha)] | (pre & mid & post & alt & E & Hin & Hs & Hb1 & Hb2)].
      * apply altThenBoundary_spec in Ha. destruct Ha as (mid & post & E & Hs & Hb2).
        exists (@nil N), mid, post, alt. rewrite <- E. apply list_elem_of_In in Hin. auto.
      * exists (c :: pre), mid, post, alt. rewrite E.
        split; [reflexivity|]. split; [exact Hin|]. split; [exact Hs|].
        split; [|exact Hb2]. unfold lastOr in *. rewrite last_cons.
        destruct (last pre); exact Hb1.
    + intros (pre & mid & post & alt & E & Hin & Hs & Hb1 & Hb2).
      destruct pre as [|c' pre].
      * left. simpl in E. rewrite <- E in Hb1. split; [exact Hb1|].
        exists alt. split; [apply list_elem_of_In; exact Hin|].
        apply altThenBoundary_spec. exists mid, post. auto.
      * right. simpl in E. injection E as <- ->.
        exists pre, mid, post, alt. split; [reflexivity|]. split; [exact Hin|].
        split; [exact Hs|]. split; [|exact Hb2].
        unfold lastOr in *. rewrite last_cons in Hb1. destruct (last pre); exact Hb1.
Qed.

Lemma testWords_spec ci alts s :
  testWords ci alts s = true <-> occursAsWord ci alts s.
Proof.
  unfold testWords, occursAsWord. rewrite testWords_go_spec.
  unfold lastOr. split; intros (pre & mid & post & alt & E & Hin & Hs & Hb1 & Hb2);
    exists pre, mid, post, alt; destruct (last pre); auto.
Qed.

Lemma testPrefixes_spec ps s :
  testPrefixes ps s = true <-> exists p, p ∈ ps /\ hasPrefix p s.
Proof.
  unfold testPrefixes. rewrite existsb_exists. split.
  - intros (p & Hin & H). exists p. rewrite <- startsWith_spec, list_elem_of_In. auto.
  - intros (p & Hin & H). exists p. rewrite startsWith_spec, <- list_elem_of_In. auto.
Qed.

Lemma testPrefixThenLower_spec p s :
  testPrefixThenLower p s = true <-> hasPrefixThenLower p s.
Proof.
  unfold testPrefixThenLower, hasPrefixThenLower.
  rewrite andb_true_iff, startsWith_spec. unfold hasPrefix. split.
  - intros [[rest ->] H]. rewrite drop_app_length in H.
    destruct rest as [|c rest]; [discriminate|]. exists c, rest. auto.
  - intros (c & rest & -> & H). split; [eexists; reflexivity|].
    rewrite drop_app_length. exact H.
Qed.

Lemma adjust_b2z cond delta score : adjust cond delta score = score + delta * Z.b2z cond.
Proof. destruct cond; simpl; lia. Qed.

Lemma elem_of_uniq_go seen l x :
  x ∈ uniq_go seen l <-> x ∈ l /\ x ∉ seen.
Proof.
  clear normalize_NFC.
  revert seen. induction l as [|y l IH]; intros seen; simpl.
  - rewrite elem_of_nil. tauto.
  - destruct (bool_decide (y ∈ seen)) eqn:E.
    + apply bool_decide_eq_true_1 in E. rewrite IH, elem_of_cons.
      split; [tauto|]. intros [[->|H] Hn]; [contradiction | tauto].
    + apply bool_decide_eq_false_1 in E. rewrite !elem_of_cons, IH, elem_of_cons.
      split.
      * intros [->|[H Hn]]; [tauto|]. split; [tauto|]. intros Hs. apply Hn. tauto.
      * intros [[->|H] Hn]; [tauto|].
        destruct (decide (x = y)) as [->|Hne]; [tauto|]. right. split; [exact H|].
        intros [?|?]; [contradiction | contradiction].
Qed.

Lemma NoDup_uniq_go seen l : NoDup (uniq_go seen l).
Proof.
  clear normalize_NFC.
  revert seen. induction l as [|y l IH]; intros seen; simpl.
  - constructor.
  - destruct (bool_decide (y ∈ seen)); [apply IH|].
    constructor; [|apply IH]. rewrite elem_of_uniq_go, elem_of_cons. tauto.
Qed.

Lemma insertByScore_perm x l : insertByScore x l ≡ₚ x :: l.
Proof.
  induction l as [|y l IH]; simpl; [reflexivity|].
  destruct (scoreDefinition x <? scoreDefinition y); [|reflexivity].
  rewrite IH. apply perm_swap.
Qed.

Lemma sortByScore_perm l : sortByScore l ≡ₚ l.
Proof.
  induction l as [|x l IH]; simpl; [reflexivity|].
  rewrite insertByScore_perm, IH. reflexivity.
Qed.

(** Descending by score. *)
Definition byScoreDesc (a b : jsstring) : Prop := scoreDefinition b <= scoreDefinition a.

Lemma insertByScore_sorted x l :
  StronglySorted byScoreDesc l -> StronglySorted byScoreDesc (insertByScore x l).
Proof.
  induction 1 as [|y l Hs IH Hall]; simpl.
  - repeat constructor.
  - destruct (Z.ltb_spec (scoreDefinition x) (scoreDefinition y)) as [Hlt|Hge].
    + constructor; [exact IH|].
      rewrite insertByScore_perm. constructor; [unfold byScoreDesc; lia | exact Hall].
    + constructor; [constructor; assumption|].
      constructor; [unfold byScoreDesc; lia|].
      eapply Forall_impl; [exact Hall|]. unfold byScoreDesc. intros z Hz. lia.
Qed.

Lemma sortByScore_sorted l : StronglySorted byScoreDesc (sortByScore l).
Proof.
  induction l as [|x l IH]; simpl; [constructor|].
  apply insertByScore_sorted, IH.
Qed.

Lemma selectBest_fold entries all best score all' best' score' :
  fold_left selectBest_step entries (all, best, score) = (all', best', score') ->
  all' = all ++ concat (map ce_d entries)
  /\ (best' = best \/ best' ∈ entries)
  /\ (score <= realCount best -> score' <= realCount best')
  /\ score <= score'
  /\ (forall e, e ∈ entries -> realCount e <= score').
Proof.
  revert all best score. induction entries as [|e entries IH]; intros all best score.
  - simpl. intros [= <- <- <-]. rewrite app_nil_r.
    split; [reflexivity|]. split; [left; reflexivity|]. split; [auto|].
    split; [lia|]. intros e He. apply elem_of_nil in He. contradiction.
  - cbn [fold_left]. unfold selectBest_step at 2. cbv zeta. fold (realCount e).
    destruct (Z.ltb_spec score (realCount e)) as [Hlt|Hge]; intros H;
      apply IH in H; destruct H as (Ha & Hb & Hc & Hd & He); subst all'.
    + split; [simpl; rewrite <- app_assoc; reflexivity|].
      split; [right; destruct Hb as [->|Hb]; [left | right; exact Hb]|].
      split; [intros _; apply Hc; lia|]. split; [lia|].
      intros e' [->|Hin]%elem_of_cons; [lia | auto].
    + split; [simpl; rewrite <- app_assoc; reflexivity|].
      split; [destruct Hb as [->|Hb]; [left; reflexivity | right; right; exact Hb]|].
      split; [exact Hc|]. split; [lia|].
      intros e' [->|Hin]%elem_of_cons; [lia | auto].
Qed.

Lemma selectBestEntry_spec entries :
  entries <> [] ->
  exists best defs,
    selectBestEntry entries = Some (best, defs)
    /\ NoDup defs
    /\ (forall d, d ∈ defs <-> exists e, e ∈ entries /\ d ∈ ce_d e)
    /\ StronglySorted byScoreDesc defs
    /\ best ∈ entries
    /\ (forall e, e ∈ entries -> realCount e <= realCount best).
Proof.
  clear normalize_NFC.
  intros Hne. destruct entries as [|first rest]; [contradiction|].
  unfold selectBestEntry.
  destruct (fold_left selectBest_step (first :: rest) ([], first, 0))
    as [[all best] score] eqn:E.
  apply selectBest_fold in E. destruct E as (Ha & Hb & Hc & _ & He).
  cbn [app] in Ha.
  assert (forall d, d ∈ all <-> exists e, e ∈ first :: rest /\ d ∈ ce_d e) as Hpool.
  { intros d. rewrite Ha, list_elem_of_In, in_concat. split.
    - intros (ds & Hds & Hd). apply in_map_iff in Hds.
      destruct Hds as (e & <- & Hin). exists e. rewrite !list_elem_of_In. auto.
    - intros (e & Hin & Hd). exists (ce_d e).
      apply list_elem_of_In in Hin. apply list_elem_of_In in Hd.
      split; [apply in_map; exact Hin | exact Hd]. }
  clear Ha.
  assert (forall d, d ∈ sortByScore (uniq all) <-> d ∈ all) as Hsort.
  { intros d. rewrite sortByScore_perm. unfold uniq. rewrite elem_of_uniq_go.
    rewrite elem_of_nil. tauto. }
  assert (best ∈ first :: rest) as Hbest.
  { destruct Hb as [->|Hb]; [left | exact Hb]. }
  assert (forall e, e ∈ first :: rest -> realCount e <= realCount best) as Hmost.
  { intros e Hin. specialize (He e Hin).
    assert (0 <= realCount first) as H0 by (unfold realCount; lia).
    specialize (Hc H0). lia. }
  exists best. eexists. split; [reflexivity|].
  destruct (sortByScore (uniq all)) as [|d0 ds] eqn:Es.
  - assert (all = []) as Hp.
    { destruct all as [|d p]; [reflexivity|]. exfalso.
      assert (d ∈ (@nil jsstring)) as Hd by (apply Hsort; left).
      apply elem_of_nil in Hd. exact Hd. }
    subst all. cbn. split; [constructor|]. split; [exact Hpool|].
    split; [constructor|]. split; assumption.
  - cbn [length Nat.ltb Nat.leb]. rewrite <- Es in Hsort |- *.
    split; [rewrite sortByScore_perm; apply NoDup_uniq_go|].
    split; [intros d; rewrite Hsort; apply Hpool|].
    split; [apply sortByScore_sorted|]. split; assumption.
Qed.

Lemma occurs_length ci alt s : occurs ci alt s -> (length alt <= length s)%nat.
Proof.
  intros (pre & mid & post & -> & Hs). apply spells_length in Hs.
  rewrite !length_app. lia.
Qed.

Lemma testWords_without_pr def :
  ~ occurs true (js "Taiwan pr.") def -> ~ occurs true (js "also pr.") def ->
  testWords true [js "Taiwan pr."; js "also pr."; js "Taiwan variant"] def
  = testWords true [js "Taiwan variant"] def.
Proof.
  clear normalize_NFC.
  intros H1 H2. apply eq_true_iff_eq. rewrite !testWords_spec. unfold occursAsWord.
  split; intros (pre & mid & post & alt & E & Hin & Hs & Hb1 & Hb2).
  - rewrite !elem_of_cons in Hin. destruct Hin as [->|[->|[->|Hin]]].
    + exfalso. apply H1. exists pre, mid, post. auto.
    + exfalso. apply H2. exists pre, mid, post. auto.
    + exists pre, mid, post, (js "Taiwan variant"). rewrite elem_of_cons. auto.
    + apply elem_of_nil in Hin. contradiction.
  - exists pre, mid, post, alt. rewrite !elem_of_cons in *. tauto.
Qed.

(** C5, as amended.  Score: from a base of 100, the listed adjustments, where
    the markers inside a gloss ("archaic", "literary", "dialect",
    "old-fashioned", "euphemism", "Taiwan variant") count when they stand as
    whole words, the tests on the lower-cased gloss are blind to case, and
    the boosts for "to ", "a ", "the " ask for a letter a..z right after; the
    glosses that contain "Taiwan pr." or "also pr." are left aside.
    Selection: the returned definitions are the definitions of all senses,
    each once, in descending order of score; the best entry is a sense with
    the most definitions that are not references. *)
Theorem selectBestEntry_pooled_ranked (def : jsstring) (entries : list CedictSense) :
  ~ occurs true (js "Taiwan pr.") def ->
  ~ occurs true (js "also pr.") def ->
  entries <> [] ->
  (exists ref arch tw abbr euph lit fig cl short to_ a_ the_ : bool,
      scoreDefinition def =
        100 - 80 * Z.b2z ref - 40 * Z.b2z arch - 30 * Z.b2z tw - 25 * Z.b2z abbr
        - 20 * Z.b2z euph - 15 * Z.b2z lit - 10 * Z.b2z fig - 35 * Z.b2z cl
        - 20 * Z.b2z short + 10 * Z.b2z to_ + 5 * Z.b2z a_ + 5 * Z.b2z the_
      /\ (ref = true <->
          exists p, p ∈ [js "variant of"; js "see "; js "old variant";
                         js "archaic variant"; js "same as"]
                    /\ hasPrefix p (toLowerCase def))
      /\ (arch = true <->
          occursAsWord false [js "archaic"; js "literary"; js "dialect"; js "old-fashioned"]
            (toLowerCase def))
      /\ (tw = true <-> occursAsWord true [js "Taiwan variant"] def)
      /\ (abbr = true <->
          exists p, p ∈ [js "abbr. "; js "abbr."; js "abbreviation"]
                    /\ hasPrefix p (toLowerCase def))
      /\ (euph = true <-> occursAsWord false [js "euphemism"] (toLowerCase def))
      /\ (lit = true <-> hasPrefix (js "lit. ") (toLowerCase def))
      /\ (fig = true <-> hasPrefix (js "fig. ") (toLowerCase def))
      /\ (cl = true <-> hasPrefix (js "CL:") def)
      /\ (short = true <-> (length def < 5)%nat)
      /\ (to_ = true <-> hasPrefixThenLower (js "to ") (toLowerCase def))
      /\ (a_ = true <-> hasPrefixThenLower (js "a ") (toLowerCase def))
      /\ (the_ = true <-> hasPrefixThenLower (js "the ") (toLowerCase def)))
  /\ (exists best defs,
        selectBestEntry entries = Some (best, defs)
        /\ NoDup defs
        /\ (forall d, d ∈ defs <-> exists e, e ∈ entries /\ d ∈ ce_d e)
        /\ StronglySorted byScoreDesc defs
        /\ best ∈ entries
        /\ (forall e, e ∈ entries -> realCount e <= realCount best)).
Proof.
  intros H1 H2 Hne. split; [|apply selectBestEntry_spec; exact Hne].
  unfold scoreDefinition. cbv zeta. rewrite !adjust_b2z.
  rewrite (testWords_without_pr def H1 H2).
  exists (isVariantDefinition def),
    (testWords false [js "archaic"; js "literary"; js "dialect"; js "old-fashioned"]
       (toLowerCase def)),
    (testWords true [js "Taiwan variant"] def),
    (testPrefixes [js "abbr. "; js "abbr."; js "abbreviation"] (toLowerCase def)),
    (testWords false [js "euphemism"] (toLowerCase def)),
    (testPrefixes [js "lit. "] (toLowerCase def)),
    (testPrefixes [js "fig. "] (toLowerCase def)),
    (testPrefixes [js "CL:"] def),
    (length def <? 5)%nat,
    (testPrefixThenLower (js "to ") (toLowerCase def)),
    (testPrefixThenLower (js "a ") (toLowerCase def)),
    (testPrefixThenLower (js "the ") (toLowerCase def)).
  split; [|repeat split].
  - lia.
  - unfold isVariantDefinition. rewrite testPrefixes_spec. intros H; exact H.
  - unfold isVariantDefinition. rewrite testPrefixes_spec. intros H; exact H.
  - apply testWords_spec.
  - apply testWords_spec.
  - apply testWords_spec.
  - apply testWords_spec.
  - apply testPrefixes_spec.
  - apply testPrefixes_spec.
  - apply testWords_spec.
  - apply testWords_spec.
  - rewrite testPrefixes_spec. intros (p & Hp & H).
    apply list_elem_of_singleton in Hp. subst p. exact H.
  - rewrite testPrefixes_spec. intros H. exists (js "lit. ").
    split; [apply list_elem_of_here | exact H].
  - rewrite testPrefixes_spec. intros (p & Hp & H).
    apply list_elem_of_singleton in Hp. subst p. exact H.
  - rewrite testPrefixes_spec. intros H. exists (js "fig. ").
    split; [apply list_elem_of_here | exact H].
  - rewrite testPrefixes_spec. intros (p & Hp & H).
    apply list_elem_of_singleton in Hp. subst p. exact H.
  - rewrite testPrefixes_spec. intros H. exists (js "CL:").
    split; [apply list_elem_of_here | exact H].
  - apply Nat.ltb_lt.
  - apply Nat.ltb_lt.
  - apply testPrefixThenLower_spec.
  - apply testPrefixThenLower_spec.
  - apply testPrefixThenLower_spec.
  - apply testPrefixThenLower_spec.
  - apply testPrefixThenLower_spec.
  - apply testPrefixThenLower_spec.
Qed.

(** ** Segmentation *)

(** The scan the specification describes, over what is left of the
    normalized text: at each position the longest hit among the lengths
    min(6, remaining) .. 1; without a hit a Han character gives the
    placeholder, any other character gives nothing; either way the scan
    moves past what it has read. *)
Inductive Scan (cedict : CedictData) : jsstring -> list DictionaryEntry -> Prop :=
| Scan_end : Scan cedict [] []
| Scan_hit s len ss sel r :
    (1 <= len <= Nat.min 6 (length s))%nat ->
    senses cedict (take len s) = Some ss ->
    selectBestEntry ss = Some sel ->
    (forall l, (len < l <= Nat.min 6 (length s))%nat -> senses cedict (take l s) = None) ->
    Scan cedict (drop len s) r ->
    Scan cedict s (hitEntry sel :: r)
| Scan_unknown c s r :
    (forall l, (1 <= l <= Nat.min 6 (length (c :: s)))%nat ->
               senses cedict (take l (c :: s)) = None) ->
    isChineseUnit c = true ->
    Scan cedict s r ->
    Scan cedict (c :: s) (unknownEntry [c] :: r)
| Scan_skip c s r :
    (forall l, (1 <= l <= Nat.min 6 (length (c :: s)))%nat ->
               senses cedict (take l (c :: s)) = None) ->
    isChineseUnit c = false ->
    Scan cedict s r ->
    Scan cedict (c :: s) r.

(** Every sense is filed under its simplified form. *)
Definition keyedBySimplified (cedict : CedictData) : Prop :=
  forall key ss e, cedict !! key = Some ss -> e ∈ ss -> ce_s e = key.

(** Every headword consists of Han characters only. *)
Definition hanHeadwords (cedict : CedictData) : Prop :=
  forall key ss, senses cedict key = Some ss ->
                 Forall (fun c => isChineseUnit c = true) key.

(** Every sense is filed under one of its two forms, as the build script of
    the dictionary files it. *)
Definition formsFiled (cedict : CedictData) : Prop :=
  forall key ss e, cedict !! key = Some ss -> e ∈ ss -> ce_s e = key \/ ce_t e = key.

(** The scan once more, as the specification words it and with what each
    step reads and emits written out.  A step reads a span of the text: a
    headword, matched to the best of its senses and their ranked
    definitions, or one Han character without a headword, or one other
    character. *)
Inductive Piece :=
| Matched (span : jsstring) (best : CedictSense) (definitions : list jsstring)
| Unknown (c : N)
| Skipped (c : N).

Definition spanOf (p : Piece) : jsstring :=
  match p with
  | Matched span _ _ => span
  | Unknown c => [c]
  | Skipped c => [c]
  end.

(** The segment a step emits: for a headword the two forms and the pinyin of
    the best sense with the ranked definitions, for a Han character without
    a headword the placeholder with its sentinel, for any other character
    nothing. *)
Definition emitted (p : Piece) : option DictionaryEntry :=
  match p with
  | Matched _ best definitions =>
      Some {| de_traditional := ce_t best;
              de_simplified := ce_s best;
              de_pinyin := ce_p best;
              de_pinyinTones := numericToToneMark (normalizePinyin (ce_p best));
              de_definitions := definitions |}
  | Unknown c =>
      Some {| de_traditional := [c];
              de_simplified := [c];
              de_pinyin := [];
              de_pinyinTones := [];
              de_definitions := [js "(no definition found)"] |}
  | Skipped _ => None
  end.

Definition emits (p : Piece) : bool :=
  match p with
  | Skipped _ => false
  | _ => true
  end.

Inductive LongestMatchScan (cedict : CedictData) : jsstring -> list Piece -> Prop :=
| scan_done : LongestMatchScan cedict [] []
| scan_matched s len ss best definitions pieces :
    (1 <= len <= Nat.min 6 (length s))%nat ->
    senses cedict (take len s) = Some ss ->
    (forall l, (len < l <= Nat.min 6 (length s))%nat -> senses cedict (take l s) = None) ->
    selectBestEntry ss = Some (best, definitions) ->
    LongestMatchScan cedict (drop len s) pieces ->
    LongestMatchScan cedict s (Matched (take len s) best definitions :: pieces)
| scan_unknown c s pieces :
    (forall l, (1 <= l <= Nat.min 6 (length (c :: s)))%nat ->
               senses cedict (take l (c :: s)) = None) ->
    isChineseUnit c = true ->
    LongestMatchScan cedict s pieces ->
    LongestMatchScan cedict (c :: s) (Unknown c :: pieces)
| scan_skipped c s pieces :
    (forall l, (1 <= l <= Nat.min 6 (length (c :: s)))%nat ->
               senses cedict (take l (c :: s)) = None) ->
    isChineseUnit c = false ->
    LongestMatchScan cedict s pieces ->
    LongestMatchScan cedict (c :: s) (Skipped c :: pieces).

(** What a step rests on: a matched span is a headword, its sense is one of
    those filed under it with the most definitions that are not references,
    and its definitions are those of all the senses, each once, by
    descending score; a placeholder stands for a Han character, and only
    other characters are skipped. *)
Definition pieceSound (cedict : CedictData) (p : Piece) : Prop :=
  match p with
  | Matched span best definitions =>
      span <> [] /\ (length span <= 6)%nat
      /\ exists ss,
           senses cedict span = Some ss
           /\ best ∈ ss
           /\ (forall e, e ∈ ss -> realCount e <= realCount best)
           /\ NoDup definitions
           /\ (forall d, d ∈ definitions <-> exists e, e ∈ ss /\ d ∈ ce_d e)
           /\ StronglySorted byScoreDesc definitions
  | Unknown c => isChineseUnit c = true
  | Skipped c => isChineseUnit c = false
  end.

(** The word of a matched span is the span, or its simplified form when the
    span is a traditional form. *)
Definition wordOfSpan (p : Piece) : Prop :=
  match p with
  | Matched span best _ => ce_s best = span \/ ce_t best = span
  | Unknown _ => True
  | Skipped _ => True
  end.

Lemma senses_nonempty cedict key ss : senses cedict key = Some ss -> ss <> [].
Proof.
  unfold senses. destruct (cedict !! key) as [[|e es]|]; intros [= <-]; discriminate.
Qed.

Lemma senses_lookup cedict key ss : senses cedict key = Some ss -> cedict !! key = Some ss.
Proof.
  unfold senses. destruct (cedict !! key) as [[|e es]|]; intros [= <-]; reflexivity.
Qed.

Lemma senses_select cedict key :
  senses cedict key ≫= selectBestEntry = None <-> senses cedict key = None.
Proof.
  clear normalize_NFC.
  destruct (senses cedict key) as [ss|] eqn:E; simpl; [|tauto].
  destruct (selectBestEntry_spec ss (senses_nonempty _ _ _ E)) as (b & d & -> & _).
  split; discriminate.
Qed.

Lemma slice_take_drop (s : jsstring) pos len :
  slice s pos (pos + len) = take len (drop pos s).
Proof. unfold slice. replace (pos + len - pos)%nat with len by lia. reflexivity. Qed.

Lemma probe_None cedict normalized pos len :
  probe cedict normalized pos len = None ->
  forall l, (1 <= l <= len)%nat -> senses cedict (take l (drop pos normalized)) = None.
Proof.
  induction len as [|len IH]; intros H l Hl; [lia|].
  cbn [probe] in H. rewrite slice_take_drop in H.
  destruct (senses cedict (take (S len) (drop pos normalized)) ≫= selectBestEntry)
    as [sel|] eqn:E; [discriminate|].
  apply senses_select in E.
  destruct (decide (l = S len)) as [->|Hne]; [exact E|].
  apply IH; [exact H | lia].
Qed.

Lemma probe_Some cedict normalized pos len l entry :
  probe cedict normalized pos len = Some (l, entry) ->
  (1 <= l <= len)%nat
  /\ (exists ss sel, senses cedict (take l (drop pos normalized)) = Some ss
                     /\ selectBestEntry ss = Some sel /\ entry = hitEntry sel)
  /\ (forall l', (l < l' <= len)%nat ->
                 senses cedict (take l' (drop pos normalized)) = None).
Proof.
  induction len as [|len IH]; intros H; [discriminate|].
  cbn [probe] in H. rewrite slice_take_drop in H.
  destruct (senses cedict (take (S len) (drop pos normalized))) as [ss|] eqn:E.
  - cbn [mbind option_bind] in H.
    destruct (selectBestEntry ss) as [sel|] eqn:Es.
    + injection H as <- <-. split; [lia|]. split; [eauto|]. intros l' Hl'. lia.
    + destruct (selectBestEntry_spec ss (senses_nonempty _ _ _ E)) as (b & d & Hs & _).
      congruence.
  - cbn [mbind option_bind] in H. apply IH in H. destruct H as (Hl & Hs & Hn).
    split; [lia|]. split; [exact Hs|]. intros l' Hl'.
    destruct (decide (l' = S len)) as [->|Hne]; [exact E | apply Hn; lia].
Qed.

Lemma scanLoop_total cedict normalized fuel pos results :
  (length normalized <= fuel + pos)%nat ->
  exists r, scanLoop cedict normalized fuel pos results = Some r.
Proof.
  revert pos results. induction fuel as [|fuel IH]; intros pos results Hf.
  - simpl. destruct (Nat.ltb_spec pos (length normalized)); [lia | eauto].
  - cbn [scanLoop]. destruct (Nat.ltb_spec pos (length normalized)); [|eauto].
    destruct (probe cedict normalized pos (Nat.min 6 (length normalized - pos)))
      as [[l entry]|] eqn:E.
    + apply probe_Some in E. apply IH. lia.
    + destruct (isChinese (slice normalized pos (S pos))); apply IH; lia.
Qed.

Lemma drop_S_cons (s : jsstring) pos c rest :
  drop pos s = c :: rest -> drop (S pos) s = rest.
Proof.
  intros H. replace (S pos) with (pos + 1)%nat by lia.
  rewrite <- drop_drop, H. reflexivity.
Qed.

Lemma scanLoop_Scan cedict normalized fuel pos results r :
  scanLoop cedict normalized fuel pos results = Some r ->
  exists r', r = results ++ r' /\ Scan cedict (drop pos normalized) r'.
Proof.
  revert pos results. induction fuel as [|fuel IH]; intros pos results.
  - simpl. destruct (Nat.ltb_spec pos (length normalized)); [discriminate|].
    intros [= <-]. exists []. rewrite app_nil_r, drop_ge by lia.
    split; [reflexivity | constructor].
  - cbn [scanLoop]. destruct (Nat.ltb_spec pos (length normalized)) as [Hlt|Hge].
    2:{ intros [= <-]. exists []. rewrite app_nil_r, drop_ge by lia.
        split; [reflexivity | constructor]. }
    assert (length (drop pos normalized) = length normalized - pos)%nat as Hlen
      by apply length_drop.
    destruct (probe cedict normalized pos (Nat.min 6 (length normalized - pos)))
      as [[l entry]|] eqn:E.
    + apply probe_Some in E. destruct E as (Hl & (ss & sel & Hs & Hsel & ->) & Hn).
      intros H. apply IH in H. destruct H as (r' & -> & Hscan).
      exists (hitEntry sel :: r'). rewrite <- app_assoc. split; [reflexivity|].
      rewrite <- drop_drop in Hscan.
      eapply Scan_hit; eauto; rewrite Hlen; assumption.
    + pose proof (probe_None _ _ _ _ E) as Hn.
      destruct (drop pos normalized) as [|c rest] eqn:Ed; [simpl in Hlen; lia|].
      assert (slice normalized pos (S pos) = [c]) as Hc.
      { unfold slice. replace (S pos - pos)%nat with 1%nat by lia. rewrite Ed. reflexivity. }
      rewrite Hc. cbn [isChinese].
      pose proof (drop_S_cons _ _ _ _ Ed) as Ed'.
      destruct (isChineseUnit c) eqn:Eh; intros H; apply IH in H;
        destruct H as (r' & -> & Hscan); rewrite Ed' in Hscan.
      * exists (unknownEntry [c] :: r'). rewrite <- app_assoc. split; [reflexivity|].
        apply Scan_unknown; [|exact Eh | exact Hscan].
        intros l' Hl'. apply Hn. rewrite <- Hlen. exact Hl'.
      * exists r'. split; [reflexivity|].
        apply Scan_skip; [|exact Eh | exact Hscan].
        intros l' Hl'. apply Hn. rewrite <- Hlen. exact Hl'.
Qed.

Lemma filter_all_true {A} (f : A -> bool) (l : list A) :
  Forall (fun x => f x = true) l -> List.filter f l = l.
Proof. induction 1 as [|x l Hx _ IH]; simpl; [reflexivity|]. rewrite Hx, IH. reflexivity. Qed.

Lemma Scan_words cedict s r :
  keyedBySimplified cedict -> hanHeadwords cedict ->
  Scan cedict s r ->
  concat (map de_simplified r) = List.filter isChineseUnit s.
Proof.
  intros Hkey Hhan. induction 1 as [|s len ss sel r Hlen Hs Hsel Hlonger Hscan IH
                                    |c s r Hno Hc Hscan IH|c s r Hno Hc Hscan IH].
  - reflexivity.
  - cbn [map concat]. rewrite IH.
    destruct (selectBestEntry_spec ss (senses_nonempty _ _ _ Hs))
      as (best & defs & Hsel' & _ & _ & _ & Hbest & _).
    rewrite Hsel in Hsel'. injection Hsel' as ->. cbn [hitEntry de_simplified].
    rewrite (Hkey _ _ _ (senses_lookup _ _ _ Hs) Hbest).
    rewrite <- (take_drop len s) at 3. rewrite List.filter_app.
    rewrite (filter_all_true _ _ (Hhan _ _ Hs)). reflexivity.
  - cbn [map concat unknownEntry de_simplified List.filter]. rewrite Hc, IH. reflexivity.
  - cbn [List.filter]. rewrite Hc. exact IH.
Qed.

Lemma Scan_pieces cedict s r :
  Scan cedict s r ->
  exists pieces, LongestMatchScan cedict s pieces /\ r = omap emitted pieces.
Proof.
  induction 1 as [|s len ss sel r Hlen Hs Hsel Hlonger Hscan (pieces & IH & ->)
                  |c s r Hno Hc Hscan (pieces & IH & ->)
                  |c s r Hno Hc Hscan (pieces & IH & ->)].
  - exists []. split; [constructor | reflexivity].
  - destruct sel as [best definitions].
    exists (Matched (take len s) best definitions :: pieces).
    split; [econstructor; eassumption | reflexivity].
  - exists (Unknown c :: pieces). split; [constructor; assumption | reflexivity].
  - exists (Skipped c :: pieces). split; [constructor; assumption | reflexivity].
Qed.

Lemma LongestMatchScan_spans cedict s pieces :
  LongestMatchScan cedict s pieces ->
  concat (map spanOf pieces) = s
  /\ List.filter isChineseUnit (concat (map spanOf (List.filter emits pieces)))
     = List.filter isChineseUnit s.
Proof.
  induction 1 as [|s len ss best definitions pieces Hlen Hs Hlonger Hsel Hscan [IH1 IH2]
                  |c s pieces Hno Hc Hscan [IH1 IH2]
                  |c s pieces Hno Hc Hscan [IH1 IH2]];
    cbn [map concat spanOf List.filter emits].
  - split; reflexivity.
  - rewrite IH1, List.filter_app, IH2, <- List.filter_app, take_drop. split; reflexivity.
  - rewrite IH1. cbn [app List.filter]. rewrite IH2. split; reflexivity.
  - rewrite IH1. cbn [app List.filter]. rewrite Hc, IH2. split; reflexivity.
Qed.

Lemma LongestMatchScan_sound cedict s pieces :
  LongestMatchScan cedict s pieces -> Forall (pieceSound cedict) pieces.
Proof.
  clear normalize_NFC.
  induction 1 as [|s len ss best definitions pieces Hlen Hs Hlonger Hsel Hscan IH
                  |c s pieces Hno Hc Hscan IH
                  |c s pieces Hno Hc Hscan IH];
    constructor; try assumption.
  cbn [pieceSound].
  assert (length (take len s) = len) as Hl by (rewrite length_take; lia).
  split; [intros E; rewrite E in Hl; cbn in Hl; lia|]. split; [lia|].
  exists ss. split; [exact Hs|].
  destruct (selectBestEntry_spec ss (senses_nonempty _ _ _ Hs))
    as (best' & defs' & Hsel' & Hnodup & Hpool & Hsorted & Hbest & Hmost).
  rewrite Hsel in Hsel'. injection Hsel' as <- <-. auto 10.
Qed.

Lemma LongestMatchScan_words cedict s pieces :
  formsFiled cedict ->
  LongestMatchScan cedict s pieces -> Forall wordOfSpan pieces.
Proof.
  clear normalize_NFC.
  intros Hfiled.
  induction 1 as [|s len ss best definitions pieces Hlen Hs Hlonger Hsel Hscan IH
                  |c s pieces Hno Hc Hscan IH
                  |c s pieces Hno Hc Hscan IH];
    constructor; try assumption; try exact I.
  cbn [wordOfSpan].
  destruct (selectBestEntry_spec ss (senses_nonempty _ _ _ Hs))
    as (best' & defs' & Hsel' & _ & _ & _ & Hbest & _).
  rewrite Hsel in Hsel'. injection Hsel' as <- <-.
  exact (Hfiled _ _ _ (senses_lookup _ _ _ Hs) Hbest).
Qed.

Lemma last_drop_lt {A} (s : list A) n : (n < length s)%nat -> last (drop n s) = last s.
Proof.
  intros Hn. rewrite !last_lookup, length_drop, lookup_drop. f_equal. lia.
Qed.

Lemma Scan_last_han cedict s r c :
  Scan cedict s r -> last s = Some c -> isChineseUnit c = true -> r <> [].
Proof.
  induction 1 as [|s len ss sel r Hlen Hs Hsel Hlonger Hscan IH
                  |c' s r Hno Hc Hscan IH|c' s r Hno Hc Hscan IH];
    intros Hlast Hhan; try discriminate.
  destruct s as [|c2 s]; [cbn in Hlast; congruence|].
  apply IH; [|exact Hhan]. rewrite last_cons_cons in Hlast. exact Hlast.
Qed.

Lemma Scan_long cedict s r a b :
  Scan cedict s r -> (6 < length s)%nat ->
  head s = Some a -> isChineseUnit a = true ->
  last s = Some b -> isChineseUnit b = true ->
  (2 <= length r)%nat.
Proof.
  intros Hscan Hlong Ha Hca Hb Hcb.
  inversion Hscan as [|s' len ss sel r' Hlen Hs Hsel Hlonger Hrest
                      |c s' r' Hno Hc Hrest|c s' r' Hno Hc Hrest]; subst.
  - cbn in Hlong. lia.
  - assert (r' <> []) as Hne.
    { eapply Scan_last_han; [exact Hrest| |exact Hcb].
      rewrite last_drop_lt by lia. exact Hb. }
    destruct r'; [contradiction | cbn [length]; lia].
  - assert (r' <> []) as Hne.
    { eapply Scan_last_han; [exact Hrest| |exact Hcb].
      destruct s' as [|c2 s']; [cbn in Hlong; lia|].
      rewrite last_cons_cons in Hb. exact Hb. }
    destruct r'; [contradiction | cbn [length]; lia].
  - cbn in Ha. congruence.
Qed.

Lemma dropWhile_head {A} (f : A -> bool) (l : list A) :
  dropWhile f l = [] \/ exists c, head (dropWhile f l) = Some c /\ f c = false.
Proof.
  induction l as [|x l IH]; simpl; [left; reflexivity|].
  destruct (f x) eqn:E; [exact IH|]. right. exists x. auto.
Qed.

Lemma dropWhile_keep {A} (f : A -> bool) (l : list A) c :
  head l = Some c -> f c = false -> dropWhile f l = l.
Proof. destruct l as [|x l]; simpl; [discriminate|]. intros [= ->] ->. reflexivity. Qed.

Lemma dropWhileEnd_last {A} (f : A -> bool) (l : list A) :
  dropWhileEnd f l = [] \/ exists c, last (dropWhileEnd f l) = Some c /\ f c = false.
Proof.
  induction l as [|x l IH]; simpl; [left; reflexivity|].
  destruct (dropWhileEnd f l) as [|y kept].
  - destruct (f x) eqn:E; [left; reflexivity|]. right. exists x. auto.
  - right. destruct IH as [IH|IH]; [discriminate|]. rewrite last_cons_cons. exact IH.
Qed.

Lemma dropWhileEnd_head {A} (f : A -> bool) (l : list A) c :
  head l = Some c -> f c = false -> head (dropWhileEnd f l) = Some c.
Proof.
  destruct l as [|x l]; simpl; [discriminate|]. intros [= ->] Hc.
  destruct (dropWhileEnd f l); [rewrite Hc|]; reflexivity.
Qed.

Lemma dropWhileEnd_keep {A} (f : A -> bool) (l : list A) c :
  last l = Some c -> f c = false -> dropWhileEnd f l = l.
Proof.
  induction l as [|x l IH]; [discriminate|].
  destruct l as [|y l].
  - simpl. intros [= ->] ->. reflexivity.
  - rewrite last_cons_cons. intros Hl Hc. specialize (IH Hl Hc).
    change (dropWhileEnd f (x :: y :: l))
      with (match dropWhileEnd f (y :: l) with
            | [] => if f x then [] else [x]
            | kept => x :: kept
            end).
    rewrite IH. reflexivity.
Qed.

Lemma isChineseUnit_not_space c : isChineseUnit c = true -> isWhiteSpace c = false.
Proof. unfold isChineseUnit, isWhiteSpace. units_false. Qed.

(** What the three strippers of [normalizeText] leave. *)
Definition stripped (text : jsstring) : jsstring :=
  dropWhileEnd notChineseUnit (dropWhile notChineseUnit (trim text)).

Lemma stripped_ends text :
  stripped text = [] \/
  exists a b, head (stripped text) = Some a /\ isChineseUnit a = true
              /\ last (stripped text) = Some b /\ isChineseUnit b = true.
Proof.
  unfold stripped.
  destruct (dropWhile_head notChineseUnit (trim text)) as [E|(a & Ha & Hna)].
  - rewrite E. left. reflexivity.
  - pose proof (dropWhileEnd_head notChineseUnit _ a Ha Hna) as Hh.
    destruct (dropWhileEnd_last notChineseUnit (dropWhile notChineseUnit (trim text)))
      as [E|(b & Hb & Hnb)].
    + rewrite E in Hh. discriminate.
    + right. exists a, b. unfold notChineseUnit in *.
      apply negb_false_iff in Hna, Hnb. auto.
Qed.

Lemma stripped_fixed s a b :
  head s = Some a -> isChineseUnit a = true ->
  last s = Some b -> isChineseUnit b = true ->
  stripped s = s.
Proof.
  intros Ha Hca Hb Hcb. unfold stripped, trim.
  rewrite (dropWhile_keep isWhiteSpace s a Ha (isChineseUnit_not_space a Hca)).
  rewrite (dropWhileEnd_keep isWhiteSpace s b Hb (isChineseUnit_not_space b Hcb)).
  assert (notChineseUnit a = false) as Hna by (unfold notChineseUnit; rewrite Hca; reflexivity).
  assert (notChineseUnit b = false) as Hnb by (unfold notChineseUnit; rewrite Hcb; reflexivity).
  rewrite (dropWhile_keep notChineseUnit s a Ha Hna).
  apply (dropWhileEnd_keep notChineseUnit s b Hb Hnb).
Qed.

Section Canonical.

(** Facts of Unicode normalization form C that the program relies on: it is
    idempotent, and a Han character at either end of a string stays there
    (the characters U+4E00 .. U+9FFF neither decompose nor compose). *)
Hypothesis NFC_empty : normalize_NFC [] = [].
Hypothesis NFC_idempotent : forall s, normalize_NFC (normalize_NFC s) = normalize_NFC s.
Hypothesis NFC_head_han : forall s c,
  head s = Some c -> isChineseUnit c = true -> head (normalize_NFC s) = Some c.
Hypothesis NFC_last_han : forall s c,
  last s = Some c -> isChineseUnit c = true -> last (normalize_NFC s) = Some c.

Lemma normalizeText_idempotent text :
  normalizeText (normalizeText text) = normalizeText text.
Proof using Type*.
  unfold normalizeText. fold (stripped text).
  fold (stripped (normalize_NFC (stripped text))).
  destruct (stripped_ends text) as [E|(a & b & Ha & Hca & Hb & Hcb)].
  - rewrite E, NFC_empty. change (stripped []) with (@nil N). apply NFC_empty.
  - rewrite (stripped_fixed _ a b); auto.
Qed.

Lemma lookupWord_normalized cedict text c rest :
  normalizeText text = c :: rest ->
  lookupWord cedict (c :: rest) =
  hitEntry <$> (senses cedict (c :: rest) ≫= selectBestEntry).
Proof using Type*.
  intros E. unfold lookupWord. rewrite <- E, normalizeText_idempotent, E. reflexivity.
Qed.

Lemma lookupWithSegmentation_cases cedict text :
  (normalizeText text = [] /\ lookupWithSegmentation cedict text = Some [])
  \/ (exists ss sel,
        normalizeText text <> []
        /\ senses cedict (normalizeText text) = Some ss
        /\ selectBestEntry ss = Some sel
        /\ lookupWithSegmentation cedict text = Some [hitEntry sel])
  \/ (exists r,
        senses cedict (normalizeText text) = None
        /\ lookupWithSegmentation cedict text = Some r
        /\ Scan cedict (normalizeText text) r).
Proof using Type*.
  unfold lookupWithSegmentation.
  destruct (normalizeText text) as [|c rest] eqn:E; [left; auto|]. right.
  rewrite (lookupWord_normalized cedict text c rest E).
  destruct (senses cedict (c :: rest)) as [ss|] eqn:Es.
  - left. destruct (selectBestEntry_spec ss (senses_nonempty _ _ _ Es)) as (b & d & Hs & _).
    exists ss, (b, d). cbn [mbind option_bind]. rewrite Hs.
    split; [discriminate|]. auto.
  - right. cbn [mbind option_bind fmap option_fmap option_map].
    destruct (scanLoop_total cedict (c :: rest) (length (c :: rest)) 0 []) as [r Hr]; [lia|].
    exists r. rewrite Hr. split; [reflexivity|]. split; [reflexivity|].
    apply scanLoop_Scan in Hr. destruct Hr as (r' & -> & Hscan). exact Hscan.
Qed.

Lemma normalizeText_ends text :
  normalizeText text <> [] ->
  exists a b, head (normalizeText text) = Some a /\ isChineseUnit a = true
              /\ last (normalizeText text) = Some b /\ isChineseUnit b = true.
Proof using Type*.
  unfold normalizeText. fold (stripped text). intros Hne.
  destruct (stripped_ends text) as [E|(a & b & Ha & Hca & Hb & Hcb)].
  - rewrite E, NFC_empty in Hne. contradiction.
  - exists a, b. auto.
Qed.

Lemma scanLoop_whole cedict normalized ss sel :
  normalized <> [] -> (length normalized <= 6)%nat ->
  senses cedict normalized = Some ss ->
  selectBestEntry ss = Some sel ->
  scanLoop cedict normalized (length normalized) 0 [] = Some [hitEntry sel].
Proof.
  intros Hne Hshort Hs Hsel.
  destruct normalized as [|c rest] eqn:E; [contradiction|]. rewrite <- E in *.
  assert (length normalized = S (length rest)) as Hlen by (rewrite E; reflexivity).
  rewrite Hlen at 1. cbn [scanLoop].
  destruct (Nat.ltb_spec 0 (length normalized)) as [_|Hge]; [|lia].
  rewrite Nat.sub_0_r, Nat.min_r by lia.
  assert (probe cedict normalized 0 (length normalized)
          = Some (length normalized, hitEntry sel)) as ->.
  { rewrite Hlen at 1. cbn [probe]. rewrite <- Hlen.
    unfold slice. rewrite Nat.add_0_l, Nat.sub_0_r.
    change (drop 0 normalized) with normalized.
    rewrite firstn_all, Hs. cbn [mbind option_bind]. rewrite Hsel. reflexivity. }
  cbn [app]. rewrite Nat.add_0_l.
  destruct (length rest) as [|fuel]; cbn [scanLoop];
    rewrite Nat.ltb_irrefl; reflexivity.
Qed.

(** C1, as amended.  For every input the segmentation ends with a result,
    and the words of the segments are the simplified forms of its entries.
    When the normalized text is not itself a headword, the result is what
    the scan from left to right emits: at each position the longest headword
    among the lengths min(6, remaining) .. 1, with the forms and the pinyin
    of its best sense and the ranked definitions; else, for a Han character,
    the placeholder whose one definition is the sentinel; else nothing.  The
    spans the scan reads, joined, are the normalized text, so they neither
    overlap nor leave a gap, and every Han character lies in the span of a
    segment.  In a dictionary that files each sense under its forms, the
    word of a matched span is the span or its simplified form.  When every
    sense is filed under its simplified form only and every headword is made
    of Han characters, the words, joined, are the Han characters of the
    normalized text in their order. *)
Theorem segmentation_total_and_covering
    (cedict : CedictData) (unihan : UnihanData) (radicals : RadicalData) (hsk : HskData)
    (text : jsstring) (seen : list (jsstring * list jsstring))
    (checkKnown : jsstring -> bool) :
  exists entries result,
    lookupWithSegmentation cedict text = Some entries
    /\ performLookup cedict unihan radicals hsk text seen checkKnown = Some result
    /\ map ws_word (lr_segments result) = map de_simplified entries
    /\ (senses cedict (normalizeText text) = None ->
        exists pieces,
          LongestMatchScan cedict (normalizeText text) pieces
          /\ entries = omap emitted pieces
          /\ concat (map spanOf pieces) = normalizeText text
          /\ List.filter isChineseUnit (concat (map spanOf (List.filter emits pieces)))
             = List.filter isChineseUnit (normalizeText text)
          /\ Forall (pieceSound cedict) pieces
          /\ (formsFiled cedict -> Forall wordOfSpan pieces))
    /\ (keyedBySimplified cedict -> hanHeadwords cedict ->
        concat (map ws_word (lr_segments result))
        = List.filter isChineseUnit (normalizeText text)).
Proof using Type*.
  assert (forall entries,
    map ws_word (map (toSegment unihan radicals hsk checkKnown) entries)
    = map de_simplified entries) as Hw.
  { intros entries. rewrite map_map. reflexivity. }
  unfold performLookup.
  destruct (lookupWithSegmentation_cases cedict text)
    as [[E H] | [(ss & sel & Hne & Hs & Hsel & H) | (r & Hs & H & Hscan)]];
    rewrite H; cbn [mbind option_bind]; do 2 eexists;
    (split; [reflexivity|]); (split; [reflexivity|]); cbn [lr_segments]; rewrite Hw;
    (split; [reflexivity|]).
  - rewrite E. split; [|reflexivity]. intros _. exists [].
    split; [constructor|]. repeat split; constructor.
  - split; [congruence|]. intros Hkey Hhan.
    destruct (selectBestEntry_spec ss (senses_nonempty _ _ _ Hs))
      as (best & defs & Hsel' & _ & _ & _ & Hbest & _).
    rewrite Hsel in Hsel'. injection Hsel' as ->.
    cbn [map concat hitEntry de_simplified]. rewrite app_nil_r.
    rewrite (Hkey _ _ _ (senses_lookup _ _ _ Hs) Hbest).
    symmetry. apply filter_all_true. exact (Hhan _ _ Hs).
  - split; [|intros Hkey Hhan; apply (Scan_words cedict); assumption].
    intros _. destruct (Scan_pieces _ _ _ Hscan) as (pieces & Hpieces & Hr).
    destruct (LongestMatchScan_spans _ _ _ Hpieces) as [Hspans Hhan].
    exists pieces. split; [exact Hpieces|]. split; [exact Hr|].
    split; [exact Hspans|]. split; [exact Hhan|].
    split; [apply (LongestMatchScan_sound _ _ _ Hpieces)|].
    intros Hfiled. apply (LongestMatchScan_words _ _ _ Hfiled Hpieces).
Qed.

(** C6.  When the whole normalized text, not empty, is a headword, the
    segmentation returns one segment: the two forms and the pinyin of the
    best of the senses filed under the whole text, with the definitions of
    all these senses.  It does so whatever shorter headwords the text starts
    with, and where the scan would cut the text up: a text of more than six
    units is a single segment here and two segments or more for the scan; a
    text of up to six units is this same segment for the scan too. *)
Theorem whole_string_match_first
    (cedict : CedictData) (text : jsstring) (ss : list CedictSense) :
  normalizeText text <> [] ->
  senses cedict (normalizeText text) = Some ss ->
  exists best definitions,
    selectBestEntry ss = Some (best, definitions)
    /\ best ∈ ss
    /\ (forall d, d ∈ definitions <-> exists e, e ∈ ss /\ d ∈ ce_d e)
    /\ lookupWithSegmentation cedict text
       = Some [{| de_traditional := ce_t best;
                  de_simplified := ce_s best;
                  de_pinyin := ce_p best;
                  de_pinyinTones := numericToToneMark (normalizePinyin (ce_p best));
                  de_definitions := definitions |}]
    /\ (forall k ss', (0 < k < length (normalizeText text))%nat ->
          senses cedict (take k (normalizeText text)) = Some ss' ->
          exists whole,
            lookupWithSegmentation cedict text = Some [whole]
            /\ de_simplified whole = ce_s best
            /\ de_definitions whole = definitions)
    /\ ((6 < length (normalizeText text))%nat ->
        exists r,
          scanLoop cedict (normalizeText text) (length (normalizeText text)) 0 [] = Some r
          /\ (2 <= length r)%nat)
    /\ ((length (normalizeText text) <= 6)%nat ->
        scanLoop cedict (normalizeText text) (length (normalizeText text)) 0 []
        = lookupWithSegmentation cedict text).
Proof using Type*.
  intros Hne Hs.
  destruct (selectBestEntry_spec ss (senses_nonempty _ _ _ Hs))
    as (best & definitions & Hsel & _ & Hpool & _ & Hbest & _).
  assert (lookupWithSegmentation cedict text = Some [hitEntry (best, definitions)]) as Hl.
  { destruct (lookupWithSegmentation_cases cedict text)
      as [[E H] | [(ss' & sel & _ & Hs' & Hsel' & H) | (r & Hs' & H & Hscan)]].
    - contradiction.
    - rewrite Hs in Hs'. injection Hs' as <-. rewrite Hsel in Hsel'.
      injection Hsel' as <-. exact H.
    - congruence. }
  exists best, definitions. split; [exact Hsel|]. split; [exact Hbest|].
  split; [exact Hpool|]. split; [exact Hl|]. split; [|split].
  - intros k ss' _ _. eexists. split; [exact Hl|]. split; reflexivity.
  - intros Hlong.
    destruct (scanLoop_total cedict (normalizeText text) (length (normalizeText text)) 0 [])
      as [r Hr]; [lia|].
    exists r. split; [exact Hr|].
    apply scanLoop_Scan in Hr. destruct Hr as (r' & -> & Hscan). cbn [app drop] in *.
    destruct (normalizeText_ends text Hne) as (a & b & Ha & Hca & Hb & Hcb).
    eapply Scan_long; eassumption.
  - intros Hshort. rewrite Hl. apply (scanLoop_whole _ _ ss); assumption.
Qed.

End Canonical.

(** ** Vocabulary store *)

(** The object store keeps each entry under its own [id] (key path [id]). *)
Definition storeKeyed (db : gmap jsstring VocabularyEntry) : Prop :=
  forall k e, db !! k = Some e -> ve_id e = k.

(** The bound and the uniqueness the specification asks of [contexts]. *)
Definition contextsOk (e : VocabularyEntry) : Prop :=
  (length (ve_contexts e) <= 5)%nat /\ NoDup (map ctx_sentence (ve_contexts e)).

(** What can happen to the world: a save, an inbound merge, a component
    update, or another device writing the replicated value. *)
Inductive Step : World -> World -> Prop :=
| Step_save ch now word pinyin definitions characters context w :
    Step w (snd (saveVocabularyEntry ch now word pinyin definitions characters context w))
| Step_syncFrom ch w :
    Step w (syncFromChrome ch w)
| Step_component component character w :
    Step w (updateComponentMap component character w)
| Step_remote area w :
    Step w (remoteWrite area w).

Inductive Reachable : World -> Prop :=
| Reachable_fresh w : vocabulary w = ∅ -> Reachable w
| Reachable_step w w' : Reachable w -> Step w w' -> Reachable w'.

Lemma syncToChrome_vocabulary ch entry w :
  vocabulary (syncToChrome ch entry w) = vocabulary w.
Proof. unfold syncToChrome. destruct (syncToChrome_try ch entry (syncArea w)); reflexivity. Qed.

Lemma saveVocabularyEntry_vocabulary ch now word pinyin defs chars ctx w :
  vocabulary (snd (saveVocabularyEntry ch now word pinyin defs chars ctx w))
  = vocabulary_put (fst (saveVocabularyEntry ch now word pinyin defs chars ctx w))
      (vocabulary w).
Proof. unfold saveVocabularyEntry. cbn [fst snd]. rewrite syncToChrome_vocabulary. reflexivity. Qed.

Lemma savedEntry_id now word pinyin defs chars ctx existing :
  ve_id (savedEntry now word pinyin defs chars ctx existing)
  = match existing with
    | Some ex => ve_id ex
    | None => generateWordId word
    end.
Proof.
  unfold savedEntry. destruct existing as [ex|]; [|reflexivity].
  destruct ctx as [[sentence url]|]; [|reflexivity].
  cbv zeta. cbn [ve_contexts].
  destruct (length (ve_contexts ex) <? MAX_CONTEXTS_PER_WORD)%nat; [|reflexivity].
  destruct (negb _); reflexivity.
Qed.

Lemma savedEntry_count now word pinyin defs chars ctx existing :
  ve_lookupCount (savedEntry now word pinyin defs chars ctx existing)
  = match existing with
    | Some ex => ve_lookupCount ex + 1
    | None => 1
    end.
Proof.
  unfold savedEntry. destruct existing as [ex|]; [|reflexivity].
  destruct ctx as [[sentence url]|]; [|reflexivity].
  cbv zeta. cbn [ve_contexts].
  destruct (length (ve_contexts ex) <? MAX_CONTEXTS_PER_WORD)%nat; [|reflexivity].
  destruct (negb _); reflexivity.
Qed.

Lemma savedEntry_contexts now word pinyin defs chars ctx existing :
  ve_contexts (savedEntry now word pinyin defs chars ctx existing)
  = match existing, ctx with
    | Some ex, Some (sentence, url) =>
        if (length (ve_contexts ex) <? 5)%nat
           && negb (bool_decide (sentence ∈ map ctx_sentence (ve_contexts ex)))
        then ve_contexts ex
             ++ [{| ctx_sentence := sentence; ctx_sourceUrl := url; ctx_timestamp := now |}]
        else ve_contexts ex
    | Some ex, None => ve_contexts ex
    | None, Some (sentence, url) =>
        [{| ctx_sentence := sentence; ctx_sourceUrl := url; ctx_timestamp := now |}]
    | None, None => []
    end.
Proof.
  unfold savedEntry. destruct existing as [ex|]; [|destruct ctx as [[? ?]|]; reflexivity].
  destruct ctx as [[sentence url]|]; [|reflexivity].
  cbv zeta. cbn [ve_contexts]. unfold MAX_CONTEXTS_PER_WORD.
  destruct (length (ve_contexts ex) <? 5)%nat; [|reflexivity].
  cbn [andb].
  assert (existsb (fun c => bool_decide (ctx_sentence c = sentence)) (ve_contexts ex)
          = bool_decide (sentence ∈ map ctx_sentence (ve_contexts ex))) as ->.
  { induction (ve_contexts ex) as [|c l IH]; [reflexivity|].
    cbn [existsb map]. rewrite IH.
    destruct (decide (ctx_sentence c = sentence)) as [E|E].
    - rewrite (bool_decide_eq_true_2 _ E). symmetry. apply bool_decide_eq_true_2.
      rewrite E. left.
    - rewrite (bool_decide_eq_false_2 _ E). cbn [orb].
      apply bool_decide_ext. rewrite elem_of_cons. split; [tauto|].
      intros [H|H]; [congruence | exact H]. }
  destruct (negb _); reflexivity.
Qed.

Lemma savedEntry_fresh_times now word pinyin defs chars ctx :
  ve_firstSeenAt (savedEntry now word pinyin defs chars ctx None) = now
  /\ ve_lastSeenAt (savedEntry now word pinyin defs chars ctx None) = now.
Proof. split; reflexivity. Qed.

Lemma saveVocabularyEntry_entry ch now word pinyin defs chars ctx w :
  fst (saveVocabularyEntry ch now word pinyin defs chars ctx w)
  = savedEntry now word pinyin defs chars ctx (vocabulary w !! generateWordId word).
Proof. reflexivity. Qed.

Lemma saveVocabularyEntry_put ch now word pinyin defs chars ctx w :
  storeKeyed (vocabulary w) ->
  ve_id (fst (saveVocabularyEntry ch now word pinyin defs chars ctx w)) = generateWordId word
  /\ vocabulary (snd (saveVocabularyEntry ch now word pinyin defs chars ctx w))
     = <[generateWordId word := fst (saveVocabularyEntry ch now word pinyin defs chars ctx w)]>
         (vocabulary w).
Proof.
  intros Hk.
  assert (ve_id (fst (saveVocabularyEntry ch now word pinyin defs chars ctx w))
          = generateWordId word) as Hid.
  { rewrite saveVocabularyEntry_entry, savedEntry_id.
    destruct (vocabulary w !! generateWordId word) as [ex|] eqn:E; [|reflexivity].
    apply (Hk _ _ E). }
  split; [exact Hid|].
  rewrite saveVocabularyEntry_vocabulary. unfold vocabulary_put. rewrite Hid. reflexivity.
Qed.

Lemma storeKeyed_insert db id e :
  storeKeyed db -> ve_id e = id -> storeKeyed (<[id := e]> db).
Proof.
  intros Hk He k e' H. destruct (decide (id = k)) as [<-|Hne].
  - rewrite lookup_insert_eq in H. congruence.
  - rewrite lookup_insert_ne in H by exact Hne. apply (Hk _ _ H).
Qed.

(** C3.  The first save of a word whose normalized key is not in the store
    creates the one entry of that key, with lookupCount 1 and firstSeenAt
    equal to lastSeenAt; a save whose key is in the store rewrites that entry
    with lookupCount one higher and adds no key; two saves of the same
    normalized word leave one entry whose lookupCount is 2. *)
Theorem saveVocabularyEntry_one_entry_counted
    (ch : Channel) (now : Z) (word pinyin : jsstring) (defs : list jsstring)
    (chars : list CharacterInfo) (ctx : option (jsstring * jsstring)) (w : World) :
  storeKeyed (vocabulary w) ->
  let id := generateWordId word in
  let entry := fst (saveVocabularyEntry ch now word pinyin defs chars ctx w) in
  let w' := snd (saveVocabularyEntry ch now word pinyin defs chars ctx w) in
  vocabulary w' = <[id := entry]> (vocabulary w)
  /\ (vocabulary w !! id = None ->
      ve_lookupCount entry = 1
      /\ ve_firstSeenAt entry = ve_lastSeenAt entry
      /\ size (vocabulary w') = S (size (vocabulary w)))
  /\ (forall existing, vocabulary w !! id = Some existing ->
      ve_lookupCount entry = ve_lookupCount existing + 1
      /\ dom (vocabulary w') = dom (vocabulary w))
  /\ (forall ch2 now2 word2 pinyin2 defs2 chars2 ctx2,
      generateWordId word2 = id -> vocabulary w !! id = None ->
      let entry2 := fst (saveVocabularyEntry ch2 now2 word2 pinyin2 defs2 chars2 ctx2 w') in
      let w'' := snd (saveVocabularyEntry ch2 now2 word2 pinyin2 defs2 chars2 ctx2 w') in
      ve_lookupCount entry2 = 2
      /\ vocabulary w'' !! id = Some entry2
      /\ size (vocabulary w'') = S (size (vocabulary w))).
Proof.
  intros Hk id entry w'.
  destruct (saveVocabularyEntry_put ch now word pinyin defs chars ctx w Hk) as [Hid Hput].
  fold id entry w' in Hid, Hput.
  split; [exact Hput|]. split; [|split].
  - intros Hnone. subst entry. rewrite saveVocabularyEntry_entry. fold id. rewrite Hnone.
    split; [reflexivity|]. split; [reflexivity|].
    rewrite Hput. apply map_size_insert_None. exact Hnone.
  - intros existing Hex. split.
    + subst entry. rewrite saveVocabularyEntry_entry, savedEntry_count. fold id.
      rewrite Hex. reflexivity.
    + rewrite Hput. apply dom_insert_lookup_L. rewrite Hex. eauto.
  - intros ch2 now2 word2 pinyin2 defs2 chars2 ctx2 Hsame Hnone entry2 w''.
    assert (storeKeyed (vocabulary w')) as Hk'.
    { rewrite Hput. apply storeKeyed_insert; assumption. }
    destruct (saveVocabularyEntry_put ch2 now2 word2 pinyin2 defs2 chars2 ctx2 w' Hk')
      as [Hid2 Hput2].
    fold entry2 w'' in Hid2, Hput2. rewrite Hsame in Hput2.
    assert (vocabulary w' !! id = Some entry) as Hfirst.
    { rewrite Hput. apply lookup_insert_eq. }
    assert (ve_lookupCount entry = 1) as Hone.
    { subst entry. rewrite saveVocabularyEntry_entry, savedEntry_count. fold id.
      rewrite Hnone. reflexivity. }
    split; [|split].
    + subst entry2. rewrite saveVocabularyEntry_entry, savedEntry_count, Hsame, Hfirst.
      lia.
    + rewrite Hput2. apply lookup_insert_eq.
    + rewrite Hput2, Hput, insert_insert_eq. apply map_size_insert_None. exact Hnone.
Qed.

Lemma contextsOk_saved now word pinyin defs chars ctx existing :
  (forall ex, existing = Some ex -> contextsOk ex) ->
  contextsOk (savedEntry now word pinyin defs chars ctx existing).
Proof.
  intros Hex. unfold contextsOk. rewrite savedEntry_contexts.
  destruct existing as [ex|].
  - destruct (Hex ex eq_refl) as [Hlen Hnd].
    destruct ctx as [[sentence url]|]; [|auto].
    destruct (Nat.ltb_spec (length (ve_contexts ex)) 5) as [Hlt|Hge]; cbn [andb]; [|auto].
    destruct (decide (sentence ∈ map ctx_sentence (ve_contexts ex))) as [Hin|Hnin].
    + rewrite (bool_decide_eq_true_2 _ Hin). cbn [negb]. auto.
    + rewrite (bool_decide_eq_false_2 _ Hnin). cbn [negb].
      rewrite length_app, map_app. cbn [length map ctx_sentence]. split; [lia|].
      apply NoDup_app. split; [exact Hnd|]. split.
      * intros x Hx Hx'. apply list_elem_of_singleton in Hx'. subst x. contradiction.
      * apply NoDup_singleton.
  - destruct ctx as [[sentence url]|]; cbn [length map]; split;
      [lia | apply NoDup_singleton | lia | constructor].
Qed.

Lemma contextsOk_mergeRecord db kv :
  (forall k e, db !! k = Some e -> contextsOk e) ->
  forall k e, mergeRecord db kv !! k = Some e -> contextsOk e.
Proof.
  intros Hdb k e. destruct kv as [id synced]. unfold mergeRecord, vocabulary_put.
  cbv zeta. destruct (db !! id) as [ex|] eqn:E; cbn [mergedEntry ve_id].
  - destruct (decide (ve_id ex = k)) as [<-|Hne].
    + rewrite lookup_insert_eq. intros [= <-]. apply (Hdb _ _ E).
    + rewrite lookup_insert_ne by exact Hne. apply Hdb.
  - destruct (decide (id = k)) as [<-|Hne].
    + rewrite lookup_insert_eq. intros [= <-]. split; [cbn; lia | constructor].
    + rewrite lookup_insert_ne by exact Hne. apply Hdb.
Qed.

Lemma contextsOk_merge area db :
  (forall k e, db !! k = Some e -> contextsOk e) ->
  forall k e, fold_left mergeRecord area db !! k = Some e -> contextsOk e.
Proof.
  revert db. induction area as [|kv area IH]; intros db Hdb; [exact Hdb|].
  cbn [fold_left]. apply IH. apply contextsOk_mergeRecord. exact Hdb.
Qed.

Lemma contextsOk_step w w' :
  Step w w' ->
  (forall k e, vocabulary w !! k = Some e -> contextsOk e) ->
  forall k e, vocabulary w' !! k = Some e -> contextsOk e.
Proof.
  intros [ch now word pinyin defs chars ctx w0|ch w0|component character w0|area w0] Hw k e.
  - rewrite saveVocabularyEntry_vocabulary, saveVocabularyEntry_entry. unfold vocabulary_put.
    set (entry := savedEntry _ _ _ _ _ _ _).
    destruct (decide (ve_id entry = k)) as [<-|Hne].
    + rewrite lookup_insert_eq. intros [= <-]. apply contextsOk_saved.
      intros ex Hex. apply (Hw _ _ Hex).
    + rewrite lookup_insert_ne by exact Hne. apply Hw.
  - unfold syncFromChrome. destruct (chrome_sync_get ch (syncArea w0)) as [area|];
      cbn [vocabulary]; [|apply Hw].
    apply contextsOk_merge. exact Hw.
  - unfold updateComponentMap. destruct (bool_decide _); cbn [vocabulary]; apply Hw.
  - cbn [vocabulary]. apply Hw.
Qed.

(** C7.  In every world the program reaches from an empty vocabulary, every
    entry has at most 5 contexts and no two of them with the same sentence.
    On an update the new context is appended exactly when the list is
    shorter than 5 and does not hold its sentence; so a save with a sixth,
    new sentence leaves the five contexts as they were. *)
Theorem contexts_capped_and_distinct :
  (forall w, Reachable w ->
     forall id e, vocabulary w !! id = Some e -> contextsOk e)
  /\ (forall now word pinyin defs chars sentence url existing,
        ve_contexts (savedEntry now word pinyin defs chars (Some (sentence, url))
                       (Some existing))
        = if (length (ve_contexts existing) <? 5)%nat
             && negb (bool_decide (sentence ∈ map ctx_sentence (ve_contexts existing)))
          then ve_contexts existing
               ++ [{| ctx_sentence := sentence; ctx_sourceUrl := url;
                      ctx_timestamp := now |}]
          else ve_contexts existing)
  /\ (forall ch now word pinyin defs chars sentence url w existing,
        vocabulary w !! generateWordId word = Some existing ->
        length (ve_contexts existing) = 5%nat ->
        sentence ∉ map ctx_sentence (ve_contexts existing) ->
        ve_contexts (fst (saveVocabularyEntry ch now word pinyin defs chars
                            (Some (sentence, url)) w))
        = ve_contexts existing).
Proof.
  split; [|split].
  - induction 1 as [w Hempty|w w' Hr IH Hstep].
    + intros id e. rewrite Hempty, lookup_empty. discriminate.
    + apply (contextsOk_step w w' Hstep IH).
  - intros. rewrite savedEntry_contexts. reflexivity.
  - intros ch now word pinyin defs chars sentence url w existing Hex Hlen _.
    rewrite saveVocabularyEntry_entry, Hex, savedEntry_contexts, Hlen. reflexivity.
Qed.

Lemma saveVocabularyEntry_world ch now word pinyin defs chars ctx w :
  snd (saveVocabularyEntry ch now word pinyin defs chars ctx w)
  = syncToChrome ch (fst (saveVocabularyEntry ch now word pinyin defs chars ctx w))
      {| vocabulary :=
           vocabulary_put (fst (saveVocabularyEntry ch now word pinyin defs chars ctx w))
             (vocabulary w);
         componentMap := componentMap w;
         syncArea := syncArea w; warnings := warnings w |}.
Proof. reflexivity. Qed.



Lemma syncToChrome_refused ch entry w :
  ch_set_ok ch (outboundData (syncArea w) entry) = false ->
  syncArea (syncToChrome ch entry w) = syncArea w.
Proof.
  intros Hno. unfold syncToChrome, syncToChrome_try, chrome_sync_get, chrome_sync_set.
  destruct (ch_get_ok ch); cbn [mbind outcome_bind]; [|reflexivity].
  destruct (Z.of_nat (length (payloadJSON (outboundData (syncArea w) entry))) <? 100000);
    [rewrite Hno|]; reflexivity.
Qed.




Lemma mergedEntry_id db id synced :
  storeKeyed db -> ve_id (mergedEntry id synced (db !! id)) = id.
Proof.
  intros Hk. destruct (db !! id) as [ex|] eqn:E; cbn [mergedEntry ve_id]; [|reflexivity].
  apply (Hk _ _ E).
Qed.

Lemma mergeRecord_insert db id synced :
  storeKeyed db ->
  mergeRecord db (id, synced) = <[id := mergedEntry id synced (db !! id)]> db.
Proof.
  intros Hk. unfold mergeRecord, vocabulary_put. cbv zeta.
  rewrite (mergedEntry_id db id synced Hk). reflexivity.
Qed.

Lemma storeKeyed_mergeRecord db kv : storeKeyed db -> storeKeyed (mergeRecord db kv).
Proof.
  intros Hk. destruct kv as [id synced]. rewrite mergeRecord_insert by exact Hk.
  apply storeKeyed_insert; [exact Hk | apply mergedEntry_id; exact Hk].
Qed.

Lemma storeKeyed_merge area db : storeKeyed db -> storeKeyed (fold_left mergeRecord area db).
Proof.
  revert db. induction area as [|kv area IH]; intros db Hk; [exact Hk|].
  cbn [fold_left]. apply IH, storeKeyed_mergeRecord, Hk.
Qed.

Lemma merge_other area db id :
  storeKeyed db -> id ∉ map fst area ->
  fold_left mergeRecord area db !! id = db !! id.
Proof.
  revert db. induction area as [|[k v] area IH]; intros db Hk Hnin; [reflexivity|].
  cbn [fold_left map fst] in *. apply not_elem_of_cons in Hnin. destruct Hnin as [Hne Hnin].
  rewrite IH; [|apply storeKeyed_mergeRecord; exact Hk | exact Hnin].
  rewrite mergeRecord_insert by exact Hk. apply lookup_insert_ne. congruence.
Qed.

Lemma merge_at area db id synced :
  NoDup (map fst area) -> storeKeyed db -> (id, synced) ∈ area ->
  fold_left mergeRecord area db !! id = Some (mergedEntry id synced (db !! id)).
Proof.
  revert db. induction area as [|[k v] area IH]; intros db Hnd Hk Hin.
  - apply elem_of_nil in Hin. contradiction.
  - cbn [fold_left map fst] in *. apply NoDup_cons in Hnd. destruct Hnd as [Hfresh Hnd].
    apply elem_of_cons in Hin. destruct Hin as [[= <- <-]|Hin].
    + rewrite merge_other; [|apply storeKeyed_mergeRecord; exact Hk | exact Hfresh].
      rewrite mergeRecord_insert by exact Hk. apply lookup_insert_eq.
    + assert (k <> id) as Hne.
      { intros ->. apply Hfresh. apply list_elem_of_fmap. exists (id, synced). auto. }
      rewrite (IH (mergeRecord db (k, v)) Hnd (storeKeyed_mergeRecord _ _ Hk) Hin).
      rewrite mergeRecord_insert by exact Hk.
      rewrite lookup_insert_ne by exact Hne. reflexivity.
Qed.

Lemma syncFromChrome_at ch w id synced :
  ch_get_ok ch = true -> NoDup (map fst (syncArea w)) -> storeKeyed (vocabulary w) ->
  (id, synced) ∈ syncArea w ->
  vocabulary (syncFromChrome ch w) !! id
  = Some (mergedEntry id synced (vocabulary w !! id)).
Proof.
  intros Hok Hnd Hk Hin. unfold syncFromChrome, chrome_sync_get. rewrite Hok.
  cbn [vocabulary]. apply merge_at; assumption.
Qed.

Lemma syncFromChrome_frame ch w :
  syncArea (syncFromChrome ch w) = syncArea w
  /\ (storeKeyed (vocabulary w) -> storeKeyed (vocabulary (syncFromChrome ch w))).
Proof.
  unfold syncFromChrome. destruct (chrome_sync_get ch (syncArea w)) as [area|];
    cbn [syncArea vocabulary]; split; auto.
  apply storeKeyed_merge.
Qed.

(** C2.  For a record of the replica and its key: when the vocabulary has an
    entry under the key, the merge leaves there the entry with lookupCount
    the sum of the two counts, firstSeenAt the smaller and lastSeenAt the
    larger of the two, the rest as it was; when it has none, it leaves the
    stub built from the record, with no contexts and no characters.  Merging
    a record of count 3 and a record of count 2 of one key into a store
    without that key gives lookupCount 5 in either order. *)
Theorem syncFromChrome_merges_additively
    (ch : Channel) (w : World) (id : jsstring) (synced : SyncedVocabEntry) :
  ch_get_ok ch = true ->
  NoDup (map fst (syncArea w)) ->
  storeKeyed (vocabulary w) ->
  (id, synced) ∈ syncArea w ->
  (forall existing, vocabulary w !! id = Some existing ->
     exists merged,
       vocabulary (syncFromChrome ch w) !! id = Some merged
       /\ ve_lookupCount merged = ve_lookupCount existing + sv_c synced
       /\ ve_firstSeenAt merged = Z.min (ve_firstSeenAt existing) (sv_f synced)
       /\ ve_lastSeenAt merged = Z.max (ve_lastSeenAt existing) (sv_l synced)
       /\ ve_word merged = ve_word existing
       /\ ve_contexts merged = ve_contexts existing
       /\ ve_characters merged = ve_characters existing)
  /\ (vocabulary w !! id = None ->
      vocabulary (syncFromChrome ch w) !! id
      = Some {| ve_id := id; ve_word := sv_w synced; ve_pinyin := sv_p synced;
                ve_definitions := sv_d synced; ve_lookupCount := sv_c synced;
                ve_firstSeenAt := sv_f synced; ve_lastSeenAt := sv_l synced;
                ve_contexts := []; ve_characters := []; ve_hskLevel := None |})
  /\ (forall a b, sv_c a = 3 -> sv_c b = 2 -> vocabulary w !! id = None ->
      (exists e,
          vocabulary (syncFromChrome ch (remoteWrite [(id, b)]
                        (syncFromChrome ch (remoteWrite [(id, a)] w)))) !! id = Some e
          /\ ve_lookupCount e = 5)
      /\ (exists e,
          vocabulary (syncFromChrome ch (remoteWrite [(id, a)]
                        (syncFromChrome ch (remoteWrite [(id, b)] w)))) !! id = Some e
          /\ ve_lookupCount e = 5)).
Proof.
  intros Hok Hnd Hk Hin.
  pose proof (syncFromChrome_at ch w id synced Hok Hnd Hk Hin) as Hat.
  split; [|split].
  - intros existing Hex. rewrite Hex in Hat. eexists. split; [exact Hat|].
    cbn. repeat split; reflexivity.
  - intros Hnone. rewrite Hnone in Hat. exact Hat.
  - intros a b Ha Hb Hnone.
    assert (forall x y, sv_c x + sv_c y = 5 ->
      exists e,
        vocabulary (syncFromChrome ch (remoteWrite [(id, y)]
                      (syncFromChrome ch (remoteWrite [(id, x)] w)))) !! id = Some e
        /\ ve_lookupCount e = 5) as Hboth.
    { intros x y Hsum.
      assert (forall z : SyncedVocabEntry, NoDup (map fst [(id, z)])) as Hnd1
        by (intros z; apply NoDup_singleton).
      pose proof (syncFromChrome_at ch (remoteWrite [(id, x)] w) id x Hok (Hnd1 x) Hk
                    ltac:(left)) as H1.
      cbn [remoteWrite vocabulary] in H1. rewrite Hnone in H1.
      destruct (syncFromChrome_frame ch (remoteWrite [(id, x)] w)) as [_ Hk1].
      specialize (Hk1 Hk).
      pose proof (syncFromChrome_at ch
                    (remoteWrite [(id, y)] (syncFromChrome ch (remoteWrite [(id, x)] w)))
                    id y Hok (Hnd1 y) Hk1 ltac:(left)) as H2.
      cbn [remoteWrite vocabulary] in H2. rewrite H1 in H2.
      eexists. split; [exact H2|]. cbn. exact Hsum. }
    split; apply Hboth; lia.
Qed.

(** C10.  The inbound merge runs at every start-up, and each run adds the
    whole count of the replica record again: after [n] start-ups over an
    unchanged replica the local lookupCount has grown by [n] times the remote
    count; with a remote count other than 0 a second run changes the entry the
    first run left. *)
Theorem syncFromChrome_adds_on_every_startup
    (ch : Channel) (w : World) (id : jsstring) (synced : SyncedVocabEntry)
    (existing : VocabularyEntry) (n : nat) :
  ch_get_ok ch = true ->
  NoDup (map fst (syncArea w)) ->
  storeKeyed (vocabulary w) ->
  (id, synced) ∈ syncArea w ->
  vocabulary w !! id = Some existing ->
  onStartup ch w = syncFromChrome ch w
  /\ syncArea (Nat.iter n (onStartup ch) w) = syncArea w
  /\ (exists e,
        vocabulary (Nat.iter n (onStartup ch) w) !! id = Some e
        /\ ve_lookupCount e = ve_lookupCount existing + Z.of_nat n * sv_c synced)
  /\ (sv_c synced <> 0 ->
      vocabulary (syncFromChrome ch (syncFromChrome ch w)) !! id
      <> vocabulary (syncFromChrome ch w) !! id).
Proof.
  intros Hok Hnd Hk Hin Hex. split; [reflexivity|].
  assert (forall m,
    syncArea (Nat.iter m (onStartup ch) w) = syncArea w
    /\ storeKeyed (vocabulary (Nat.iter m (onStartup ch) w))
    /\ exists e, vocabulary (Nat.iter m (onStartup ch) w) !! id = Some e
                 /\ ve_lookupCount e = ve_lookupCount existing + Z.of_nat m * sv_c synced)
    as Hiter.
  { induction m as [|m (Harea & Hkm & e & He & Hc)].
    - cbn [Nat.iter nat_rect]. split; [reflexivity|]. split; [exact Hk|].
      exists existing. split; [exact Hex | lia].
    - change (Nat.iter (S m) (onStartup ch) w)
        with (syncFromChrome ch (Nat.iter m (onStartup ch) w)).
      set (wm := Nat.iter m (onStartup ch) w) in *.
      destruct (syncFromChrome_frame ch wm) as [Ha Hk'].
      split; [congruence|]. split; [auto|].
      rewrite <- Harea in Hnd, Hin.
      rewrite (syncFromChrome_at ch wm id synced Hok Hnd Hkm Hin), He.
      eexists. split; [reflexivity|]. cbn [mergedEntry ve_lookupCount]. lia. }
  destruct (Hiter n) as (Harea & _ & He). split; [exact Harea|]. split; [exact He|].
  intros Hnz.
  destruct (Hiter 1%nat) as (_ & _ & e1 & He1 & Hc1).
  destruct (Hiter 2%nat) as (_ & _ & e2 & He2 & Hc2).
  change (Nat.iter 1 (onStartup ch) w) with (syncFromChrome ch w) in He1.
  change (Nat.iter 2 (onStartup ch) w) with (syncFromChrome ch (syncFromChrome ch w)) in He2.
  rewrite He1, He2. intros [= ->]. lia.
Qed.

Lemma lookupWithSegmentation_total cedict text :
  exists entries, lookupWithSegmentation cedict text = Some entries.
Proof.
  unfold lookupWithSegmentation.
  destruct (normalizeText text) as [|c rest]; [eauto|].
  destruct (lookupWord cedict (c :: rest)); [eauto|].
  apply scanLoop_total. lia.
Qed.

Lemma isWordKnown_spec w word :
  isWordKnown w word = true <->
  exists e, vocabulary w !! generateWordId word = Some e /\ 1 < ve_lookupCount e.
Proof.
  unfold isWordKnown, getVocabularyEntry.
  destruct (vocabulary w !! generateWordId word) as [e|].
  - rewrite Z.ltb_lt. split; [eauto|]. intros (e' & [= <-] & H). exact H.
  - split; [discriminate|]. intros (e' & H & _). discriminate.
Qed.

Lemma handleLookup_segments cedict unihan radicals hsk ch clock nt text context
    sourceUrl skipSave w :
  exists entries result w',
    lookupWithSegmentation cedict text = Some entries
    /\ handleLookup cedict unihan radicals hsk ch clock nt text context sourceUrl skipSave w
       = Some (result, w')
    /\ lr_segments result = map (toSegment unihan radicals hsk (isWordKnown w)) entries.
Proof.
  destruct (lookupWithSegmentation_total cedict text) as [entries He].
  unfold handleLookup, performLookup. rewrite He. cbn [mbind option_bind lr_segments].
  destruct (fold_left _ _ _) as [[w' seen] i].
  exists entries. do 2 eexists. split; [reflexivity|]. split; reflexivity.
Qed.

(** C9.  [isWordKnown] answers true exactly when the vocabulary holds an
    entry under the normalized key of the word with lookupCount above 1.  So
    a lookup reports isKnown = false for each segment whose word is stored
    with lookupCount 1; and right after the first save of a word it is stored
    and not known, right after the second it is known. *)
Theorem isWordKnown_from_second_lookup
    (cedict : CedictData) (unihan : UnihanData) (radicals : RadicalData) (hsk : HskData)
    (ch : Channel) (clock : nat -> Z) (naturalTranslation : option jsstring)
    (text : jsstring) (context sourceUrl : option jsstring) (skipSave : bool) (w : World) :
  (forall word,
     isWordKnown w word = true <->
     exists e, vocabulary w !! generateWordId word = Some e /\ 1 < ve_lookupCount e)
  /\ (exists result w',
        handleLookup cedict unihan radicals hsk ch clock naturalTranslation
          text context sourceUrl skipSave w = Some (result, w')
        /\ forall seg e,
             seg ∈ lr_segments result ->
             vocabulary w !! generateWordId (ws_word seg) = Some e ->
             ve_lookupCount e = 1 ->
             ws_isKnown seg = false)
  /\ (forall now1 now2 word pinyin defs chars ctx,
        vocabulary w !! generateWordId word = None ->
        let w1 := snd (saveVocabularyEntry ch now1 word pinyin defs chars ctx w) in
        let w2 := snd (saveVocabularyEntry ch now2 word pinyin defs chars ctx w1) in
        (exists e, vocabulary w1 !! generateWordId word = Some e /\ ve_lookupCount e = 1)
        /\ isWordKnown w1 word = false
        /\ isWordKnown w2 word = true).
Proof.
  split; [intros word; apply isWordKnown_spec|]. split.
  - destruct (handleLookup_segments cedict unihan radicals hsk ch clock naturalTranslation
                text context sourceUrl skipSave w) as (entries & result & w' & _ & Hh & Hsegs).
    exists result, w'. split; [exact Hh|].
    intros seg e Hin He Hone. rewrite Hsegs in Hin.
    apply list_elem_of_fmap in Hin. destruct Hin as (entry & -> & _).
    cbn [toSegment ws_isKnown ws_word] in *.
    apply not_true_is_false. intros Hknown. apply isWordKnown_spec in Hknown.
    destruct Hknown as (e' & He' & Hgt). rewrite He in He'. injection He' as <-. lia.
  - intros now1 now2 word pinyin defs chars ctx Hnone w1 w2.
    assert (vocabulary w1 !! generateWordId word
            = Some (savedEntry now1 word pinyin defs chars ctx None)) as H1.
    { subst w1. rewrite saveVocabularyEntry_vocabulary, saveVocabularyEntry_entry, Hnone.
      unfold vocabulary_put. rewrite savedEntry_id. apply lookup_insert_eq. }
    assert (vocabulary w2 !! generateWordId word
            = Some (savedEntry now2 word pinyin defs chars ctx
                      (Some (savedEntry now1 word pinyin defs chars ctx None)))) as H2.
    { subst w2. rewrite saveVocabularyEntry_vocabulary, saveVocabularyEntry_entry, H1.
      unfold vocabulary_put. rewrite !savedEntry_id. apply lookup_insert_eq. }
    split; [eexists; split; [exact H1 | apply savedEntry_count]|].
    unfold isWordKnown, getVocabularyEntry. rewrite H1, H2, !savedEntry_count.
    split; reflexivity.
Qed.

End Program.

(** * Worked instances *)

(** Normalization of text that is already in form C, as Han characters and
    ASCII are. *)
Definition alreadyNFC (s : jsstring) : jsstring := s.

Definition han_zhong : N := 0x4E2D.
Definition han_guo : N := 0x56FD.
Definition han_guo_trad : N := 0x570B.

Definition sense_zhong : CedictSense :=
  {| ce_t := [han_zhong]; ce_s := [han_zhong]; ce_p := js "zhong1";
     ce_d := [js "within"; js "among"; js "middle"] |}.

Definition sense_guo : CedictSense :=
  {| ce_t := [han_guo_trad]; ce_s := [han_guo]; ce_p := js "guo2";
     ce_d := [js "country"; js "nation"] |}.

Definition sense_zhongguo : CedictSense :=
  {| ce_t := [han_zhong; han_guo_trad]; ce_s := [han_zhong; han_guo];
     ce_p := js "Zhong1 guo2"; ce_d := [js "China"] |}.

(** A dictionary keyed by simplified forms only. *)
Definition simplifiedDict : CedictData :=
  <[[han_zhong; han_guo] := [sense_zhongguo]]>
    (<[[han_guo] := [sense_guo]]> (<[[han_zhong] := [sense_zhong]]> ∅)).

(** The same with the traditional form of one sense filed too, as the build
    script of the dictionary files every sense under both of its forms. *)
Definition bothFormsDict : CedictData :=
  <[[han_guo_trad] := [sense_guo]]> simplifiedDict.

(** 中华人民共和国, seven characters, with 中华, 人民 and 共和国. *)
Definition prc : jsstring := [0x4E2D; 0x534E; 0x4EBA; 0x6C11; 0x5171; 0x548C; 0x56FD]%N.

Definition sense_of (word : jsstring) (p : string) (d : string) : CedictSense :=
  {| ce_t := word; ce_s := word; ce_p := js p; ce_d := [js d] |}.

Definition longDict : CedictData :=
  <[prc := [sense_of prc "Zhong1 hua2 Ren2 min2 Gong4 he2 guo2" "People's Republic of China"]]>
    (<[take 2 prc := [sense_of (take 2 prc) "Zhong1 hua2" "China"]]>
       (<[take 2 (drop 2 prc) := [sense_of (take 2 (drop 2 prc)) "ren2 min2" "the people"]]>
          (<[drop 4 prc := [sense_of (drop 4 prc) "gong4 he2 guo2" "republic"]]> ∅))).

(** A sense with a reference gloss before its real one. *)
Definition sense_ge : CedictSense :=
  {| ce_t := [0x500B%N]; ce_s := [0x4E2A%N]; ce_p := js "ge4";
     ce_d := [js "variant of " ++ [0x500B%N]; js "a measure word"] |}.

Definition quietChannel : Channel :=
  {| ch_get_ok := true; ch_set_ok := fun _ => true |}.

Definition emptyWorld : World :=
  {| vocabulary := ∅; componentMap := ∅; syncArea := []; warnings := [] |}.

Definition record_guo (count : Z) : SyncedVocabEntry :=
  {| sv_w := [han_guo]; sv_p := [0x67; 0x75; 0xF3]%N; sv_d := [js "country"];
     sv_c := count; sv_f := 1000; sv_l := 2000 |}.

Definition entry_guo : VocabularyEntry :=
  {| ve_id := [han_guo]; ve_word := [han_guo]; ve_pinyin := [0x67; 0x75; 0xF3]%N;
     ve_definitions := [js "country"; js "nation"]; ve_lookupCount := 1;
     ve_firstSeenAt := 1500; ve_lastSeenAt := 1500; ve_contexts := [];
     ve_characters := []; ve_hskLevel := None |}.

Definition worldWithGuo : World :=
  {| vocabulary := {[ [han_guo] := entry_guo ]}; componentMap := ∅;
     syncArea := [([han_guo], record_guo 2)]; warnings := [] |}.

Lemma storeKeyed_empty : storeKeyed ∅.
Proof. intros k e H. rewrite lookup_empty in H. discriminate. Qed.

Lemma storeKeyed_worldWithGuo : storeKeyed (vocabulary worldWithGuo).
Proof.
  intros k e H. cbn [worldWithGuo vocabulary] in H.
  apply lookup_singleton_Some in H. destruct H as [<- <-]. reflexivity.
Qed.

Lemma alreadyNFC_facts :
  alreadyNFC [] = []
  /\ (forall s, alreadyNFC (alreadyNFC s) = alreadyNFC s)
  /\ (forall s c, head s = Some c -> isChineseUnit c = true -> head (alreadyNFC s) = Some c)
  /\ (forall s c, last s = Some c -> isChineseUnit c = true -> last (alreadyNFC s) = Some c).
Proof. repeat split; auto. Qed.

Lemma numericToToneMark_priority_rule_witness :
  js "dui" <> []
  /\ Forall (fun c => isPinyinLetter c = true) (js "dui")
  /\ chosenVowel (js "dui") = Some ch_i
  /\ occursOnce ch_i (toLowerCase (js "dui"))
  /\ exists k,
       claimedPosition (js "dui") = Some k
       /\ toLowerCase (js "dui") !! k = Some ch_i
       /\ numericToToneMark (js "dui" ++ [toneDigit 4]) = markedAt k 4 (js "dui").
Proof.
  assert (js "dui" <> []) as H1 by discriminate.
  assert (Forall (fun c => isPinyinLetter c = true) (js "dui")) as H2
    by (repeat constructor).
  assert (chosenVowel (js "dui") = Some ch_i) as H3 by reflexivity.
  assert (occursOnce ch_i (toLowerCase (js "dui"))) as H4 by reflexivity.
  split; [exact H1|]. split; [exact H2|]. split; [exact H3|]. split; [exact H4|].
  destruct (numericToToneMark_priority_rule (js "dui") H1 H2) as (_ & _ & _ & Hk & _).
  exact (Hk 4 ch_i ltac:(lia) H3 H4).
Defined.

(** C4, as the specification states it, fails where the chosen letter stands
    twice.  In "uiu" the rightmost vowel is the last letter, and in "oiou"
    the o of "ou" is the third; the code marks the first letter of each. *)
Lemma mark_not_on_the_rightmost_vowel :
  js "uiu" <> []
  /\ Forall (fun c => isPinyinLetter c = true) (js "uiu")
  /\ claimedPosition (js "uiu") = Some 2%nat
  /\ markedAt 2 3 (js "uiu") = [0x75; 0x69; 0x1D4]%N
  /\ numericToToneMark (js "uiu3") = [0x1D4; 0x69; 0x75]%N
  /\ claimedPosition (js "oiou") = Some 2%nat
  /\ markedAt 2 2 (js "oiou") = [0x6F; 0x69; 0xF3; 0x75]%N
  /\ numericToToneMark (js "oiou2") = [0xF3; 0x69; 0x6F; 0x75]%N.
Proof.
  split; [discriminate|]. split; [repeat constructor|].
  repeat split; vm_compute; reflexivity.
Qed.

(** Three senses filed under one key: a reference with a gloss that a later
    sense repeats, and two readings. *)
Definition han_chang : N := 0x957F.
Definition han_chang_trad : N := 0x9577.

Definition sense_chang_old : CedictSense :=
  {| ce_t := [0x4EE7%N]; ce_s := [0x4EE7%N]; ce_p := js "chang2";
     ce_d := [js "old variant of " ++ [han_chang_trad]; js "long"] |}.

Definition sense_chang : CedictSense :=
  {| ce_t := [han_chang_trad]; ce_s := [han_chang]; ce_p := js "chang2";
     ce_d := [js "length"; js "long"; js "forever"] |}.

Definition sense_zhang : CedictSense :=
  {| ce_t := [han_chang_trad]; ce_s := [han_chang]; ce_p := js "zhang3";
     ce_d := [js "chief"; js "to grow"] |}.

Definition sensesOfChang : list CedictSense := [sense_chang_old; sense_chang; sense_zhang].

Lemma selectBestEntry_pooled_ranked_witness :
  ~ occurs true (js "Taiwan pr.") (js "to grow")
  /\ ~ occurs true (js "also pr.") (js "to grow")
  /\ sensesOfChang <> []
  /\ scoreDefinition (js "to grow") = 110
  /\ exists best defs,
       selectBestEntry sensesOfChang = Some (best, defs)
       /\ best = sense_chang
       /\ defs = [js "to grow"; js "length"; js "forever"; js "chief"; js "long";
                  js "old variant of " ++ [han_chang_trad]]
       /\ NoDup defs
       /\ (forall d, d ∈ defs <-> exists e, e ∈ sensesOfChang /\ d ∈ ce_d e)
       /\ StronglySorted byScoreDesc defs
       /\ best ∈ sensesOfChang
       /\ (forall e, e ∈ sensesOfChang -> realCount e <= realCount best).
Proof.
  assert (~ occurs true (js "Taiwan pr.") (js "to grow")) as H1.
  { intros H. apply occurs_length in H. vm_compute in H. lia. }
  assert (~ occurs true (js "also pr.") (js "to grow")) as H2.
  { intros H. apply occurs_length in H. vm_compute in H. lia. }
  assert (sensesOfChang <> []) as H3 by discriminate.
  split; [exact H1|]. split; [exact H2|]. split; [exact H3|].
  destruct (selectBestEntry_pooled_ranked (js "to grow") sensesOfChang H1 H2 H3)
    as ((ref & arch & tw & abbr & euph & lit & fig & cl & short & to_ & a_ & the_
         & Hscore & _)
        & best & defs & Hs & Hnodup & Hpool & Hsorted & Hbest & Hmost).
  split; [vm_compute; reflexivity|].
  exists best, defs.
  assert (best = sense_chang
          /\ defs = [js "to grow"; js "length"; js "forever"; js "chief"; js "long";
                     js "old variant of " ++ [han_chang_trad]]) as [Eb Ed].
  { vm_compute in Hs. injection Hs as <- <-. split; vm_compute; reflexivity. }
  auto 10.
Defined.

(** The two glosses of the specification's example come out with the real
    gloss first. *)
Example ranking_example :
  selectBestEntry [sense_ge]
  = Some (sense_ge, [js "a measure word"; js "variant of " ++ [0x500B%N]]).
Proof. vm_compute. reflexivity. Qed.

(** C5, as the specification states it, fails: "dialects" holds "dialect"
    but not as a word, "to 3" has no letter after "to ", and "Taiwan pr."
    before a blank is not matched; the code leaves all three at 100. *)
Lemma scoreDefinition_differs_from_claimed :
  scoreDefinition (js "dialects of the south") = 100
  /\ claimedScore (js "dialects of the south") = 60
  /\ scoreDefinition (js "to 3 decimal places") = 100
  /\ claimedScore (js "to 3 decimal places") = 110
  /\ scoreDefinition (js "Taiwan pr. [ji1]") = 100
  /\ claimedScore (js "Taiwan pr. [ji1]") = 70.
Proof. repeat split; vm_compute; reflexivity. Qed.

Lemma simplifiedDict_keyed : keyedBySimplified simplifiedDict /\ hanHeadwords simplifiedDict.
Proof.
  split.
  - intros key ss e H Hin. unfold simplifiedDict in H.
    rewrite !lookup_insert_Some, lookup_empty in H.
    destruct H as [[<- <-]|[_ [[<- <-]|[_ [[<- <-]|[_ H]]]]]]; [| | |discriminate];
      apply list_elem_of_singleton in Hin; subst e; reflexivity.
  - intros key ss H. apply senses_lookup in H. unfold simplifiedDict in H.
    rewrite !lookup_insert_Some, lookup_empty in H.
    destruct H as [[<- <-]|[_ [[<- <-]|[_ [[<- <-]|[_ H]]]]]]; [| | |discriminate];
      repeat constructor.
Qed.

Definition sampleText : jsstring := [0x20; han_zhong; han_guo; 0x21]%N.

Lemma bothFormsDict_filed : formsFiled bothFormsDict.
Proof.
  intros key ss e H Hin. unfold bothFormsDict, simplifiedDict in H.
  rewrite !lookup_insert_Some, lookup_empty in H.
  destruct H as [[<- <-]|[_ [[<- <-]|[_ [[<- <-]|[_ [[<- <-]|[_ H]]]]]]]];
    [| | | |discriminate];
    apply list_elem_of_singleton in Hin; subst e; cbn; auto.
Qed.

(** 中国a好國: a headword, a letter, a character without a headword, and
    a headword met in its traditional form. *)
Definition mixedText : jsstring := [han_zhong; han_guo; 0x61; 0x597D; han_guo_trad]%N.

Lemma segmentation_total_and_covering_witness :
  (alreadyNFC [] = []
   /\ (forall s, alreadyNFC (alreadyNFC s) = alreadyNFC s)
   /\ (forall s c, head s = Some c -> isChineseUnit c = true ->
                   head (alreadyNFC s) = Some c)
   /\ (forall s c, last s = Some c -> isChineseUnit c = true ->
                   last (alreadyNFC s) = Some c))
  /\ senses bothFormsDict (normalizeText alreadyNFC mixedText) = None
  /\ formsFiled bothFormsDict
  /\ exists entries pieces,
       lookupWithSegmentation alreadyNFC bothFormsDict mixedText = Some entries
       /\ LongestMatchScan bothFormsDict (normalizeText alreadyNFC mixedText) pieces
       /\ entries = omap emitted pieces
       /\ concat (map spanOf pieces) = normalizeText alreadyNFC mixedText
       /\ Forall (pieceSound bothFormsDict) pieces
       /\ Forall wordOfSpan pieces
       /\ map de_simplified entries = [[han_zhong; han_guo]; [0x597D%N]; [han_guo]]
       /\ map de_definitions entries
          = [[js "China"]; [js "(no definition found)"]; [js "country"; js "nation"]].
Proof.
  split; [exact alreadyNFC_facts|].
  assert (senses bothFormsDict (normalizeText alreadyNFC mixedText) = None) as Hnone
    by (vm_compute; reflexivity).
  split; [exact Hnone|]. split; [exact bothFormsDict_filed|].
  destruct alreadyNFC_facts as (F1 & F2 & F3 & F4).
  destruct (segmentation_total_and_covering alreadyNFC F1 F2 F3 F4
              bothFormsDict ∅ ∅ ∅ mixedText [] (fun _ => false))
    as (entries & result & He & _ & _ & Hscan & _).
  destruct (Hscan Hnone) as (pieces & Hpieces & Hr & Hspans & _ & Hsound & Hwords).
  exists entries, pieces. split; [exact He|]. split; [exact Hpieces|].
  split; [exact Hr|]. split; [exact Hspans|]. split; [exact Hsound|].
  split; [exact (Hwords bothFormsDict_filed)|].
  vm_compute in He. injection He as <-. split; vm_compute; reflexivity.
Defined.

(** C1, as the specification states it, fails twice.  A sense found under
    its traditional form gives a segment whose word is the simplified form,
    so the words do not spell the text; and a headword of seven characters is
    returned whole, where the scan gives three segments. *)
Lemma segmentation_words_differ_from_text :
  (fun r => concat (map ws_word (lr_segments r)))
    <$> performLookup alreadyNFC bothFormsDict ∅ ∅ ∅ [han_guo_trad] [] (fun _ => false)
  = Some [han_guo]
  /\ List.filter isChineseUnit (normalizeText alreadyNFC [han_guo_trad]) = [han_guo_trad]
  /\ map de_simplified <$> lookupWithSegmentation alreadyNFC longDict prc = Some [prc]
  /\ map de_simplified <$> scanLoop longDict prc (length prc) 0 []
     = Some [take 2 prc; take 2 (drop 2 prc); drop 4 prc].
Proof. repeat split; vm_compute; reflexivity. Qed.

Lemma whole_string_match_first_witness :
  normalizeText alreadyNFC prc <> []
  /\ senses longDict (normalizeText alreadyNFC prc)
     = Some [sense_of prc "Zhong1 hua2 Ren2 min2 Gong4 he2 guo2" "People's Republic of China"]
  /\ (0 < 2 < length (normalizeText alreadyNFC prc))%nat
  /\ senses longDict (take 2 (normalizeText alreadyNFC prc))
     = Some [sense_of (take 2 prc) "Zhong1 hua2" "China"]
  /\ (6 < length (normalizeText alreadyNFC prc))%nat
  /\ lookupWithSegmentation alreadyNFC longDict prc
     = Some [{| de_traditional := prc;
                de_simplified := prc;
                de_pinyin := js "Zhong1 hua2 Ren2 min2 Gong4 he2 guo2";
                de_pinyinTones :=
                  numericToToneMark
                    (normalizePinyin (js "Zhong1 hua2 Ren2 min2 Gong4 he2 guo2"));
                de_definitions := [js "People's Republic of China"] |}]
  /\ (exists whole,
        lookupWithSegmentation alreadyNFC longDict prc = Some [whole]
        /\ de_simplified whole = prc
        /\ de_definitions whole = [js "People's Republic of China"])
  /\ exists r,
       scanLoop longDict (normalizeText alreadyNFC prc)
         (length (normalizeText alreadyNFC prc)) 0 [] = Some r
       /\ (2 <= length r)%nat.
Proof.
  assert (normalizeText alreadyNFC prc <> []) as H1 by (vm_compute; discriminate).
  assert (senses longDict (normalizeText alreadyNFC prc)
          = Some [sense_of prc "Zhong1 hua2 Ren2 min2 Gong4 he2 guo2"
                    "People's Republic of China"]) as H2 by (vm_compute; reflexivity).
  assert (0 < 2 < length (normalizeText alreadyNFC prc))%nat as H3 by (vm_compute; lia).
  assert (senses longDict (take 2 (normalizeText alreadyNFC prc))
          = Some [sense_of (take 2 prc) "Zhong1 hua2" "China"]) as H4
    by (vm_compute; reflexivity).
  assert (6 < length (normalizeText alreadyNFC prc))%nat as H5 by (vm_compute; lia).
  split; [exact H1|]. split; [exact H2|]. split; [exact H3|]. split; [exact H4|].
  split; [exact H5|].
  destruct alreadyNFC_facts as (F1 & F2 & F3 & F4).
  destruct (whole_string_match_first alreadyNFC F1 F2 F3 F4 longDict prc _ H1 H2)
    as (best & definitions & Hsel & Hbest & _ & Hl & Hprefix & Hlong & _).
  assert (best = sense_of prc "Zhong1 hua2 Ren2 min2 Gong4 he2 guo2"
                   "People's Republic of China"
          /\ definitions = [js "People's Republic of China"]) as [-> ->].
  { vm_compute in Hsel. injection Hsel as <- <-. split; vm_compute; reflexivity. }
  split; [exact Hl|]. split; [exact (Hprefix 2%nat _ H3 H4)|]. exact (Hlong H5).
Defined.

Lemma saveVocabularyEntry_one_entry_counted_witness :
  storeKeyed (vocabulary emptyWorld)
  /\ ve_lookupCount
       (fst (saveVocabularyEntry alreadyNFC quietChannel 1000 [han_guo] (js "guo")
               [js "country"] [] None emptyWorld)) = 1.
Proof.
  split; [exact storeKeyed_empty|].
  destruct (saveVocabularyEntry_one_entry_counted alreadyNFC quietChannel 1000 [han_guo]
              (js "guo") [js "country"] [] None emptyWorld storeKeyed_empty)
    as (_ & Hfirst & _).
  destruct (Hfirst (lookup_empty _)) as (Hone & _). exact Hone.
Defined.

Lemma syncFromChrome_merges_additively_witness :
  ch_get_ok quietChannel = true
  /\ NoDup (map fst (syncArea worldWithGuo))
  /\ storeKeyed (vocabulary worldWithGuo)
  /\ ([han_guo], record_guo 2) ∈ syncArea worldWithGuo
  /\ exists merged,
       vocabulary (syncFromChrome quietChannel worldWithGuo) !! [han_guo] = Some merged
       /\ ve_lookupCount merged = 1 + 2.
Proof.
  assert (NoDup (map fst (syncArea worldWithGuo))) as Hnd by apply NoDup_singleton.
  assert (([han_guo], record_guo 2) ∈ syncArea worldWithGuo) as Hin by left.
  split; [reflexivity|]. split; [exact Hnd|]. split; [exact storeKeyed_worldWithGuo|].
  split; [exact Hin|].
  destruct (syncFromChrome_merges_additively quietChannel worldWithGuo [han_guo]
              (record_guo 2) eq_refl Hnd storeKeyed_worldWithGuo Hin) as (Hm & _).
  destruct (Hm entry_guo (lookup_singleton_eq _ _)) as (merged & Hl & Hc & _).
  exists merged. auto.
Defined.

Lemma syncFromChrome_adds_on_every_startup_witness :
  ch_get_ok quietChannel = true
  /\ NoDup (map fst (syncArea worldWithGuo))
  /\ storeKeyed (vocabulary worldWithGuo)
  /\ ([han_guo], record_guo 2) ∈ syncArea worldWithGuo
  /\ vocabulary worldWithGuo !! [han_guo] = Some entry_guo
  /\ exists e,
       vocabulary (Nat.iter 3 (onStartup quietChannel) worldWithGuo) !! [han_guo] = Some e
       /\ ve_lookupCount e = 1 + 3 * 2.
Proof.
  assert (NoDup (map fst (syncArea worldWithGuo))) as Hnd by apply NoDup_singleton.
  assert (([han_guo], record_guo 2) ∈ syncArea worldWithGuo) as Hin by left.
  assert (vocabulary worldWithGuo !! [han_guo] = Some entry_guo) as Hex
    by apply lookup_singleton_eq.
  split; [reflexivity|]. split; [exact Hnd|]. split; [exact storeKeyed_worldWithGuo|].
  split; [exact Hin|]. split; [exact Hex|].
  destruct (syncFromChrome_adds_on_every_startup quietChannel worldWithGuo [han_guo]
              (record_guo 2) entry_guo 3 eq_refl Hnd storeKeyed_worldWithGuo Hin Hex)
    as (_ & _ & He & _).
  exact He.
Defined.








(** * Further properties *)

(** ** The keys of the store and of the replica *)

Abbreviation Replica := (list (jsstring * SyncedVocabEntry)).

Section StoreHistory.

Variable normalize_NFC : jsstring -> jsstring.

(** Every entry sits under the normalized form of its own word. *)
Definition wordKeyed (db : gmap jsstring VocabularyEntry) : Prop :=
  forall k e, db !! k = Some e ->
    ve_id e = k /\ k = generateWordId normalize_NFC (ve_word e).

(** Every record of the replica sits under the normalized form of its word. *)
Definition replicaKeyed (area : Replica) : Prop :=
  forall k r, (k, r) ∈ area -> k = generateWordId normalize_NFC (sv_w r).

Lemma wordKeyed_storeKeyed db : wordKeyed db -> storeKeyed db.
Proof. intros H k e E. apply (H k e E). Qed.

Lemma elem_of_object_set {V} (obj : list (jsstring * V)) key v kv :
  kv ∈ object_set obj key v -> kv ∈ obj \/ kv = (key, v).
Proof.
  induction obj as [|[k v0] rest IH]; cbn [object_set].
  - intros H. apply list_elem_of_singleton in H. auto.
  - destruct (bool_decide_reflect (k = key)) as [->|Hne]; intros H;
      apply elem_of_cons in H; destruct H as [->|H].
    + auto.
    + left. apply list_elem_of_further, H.
    + left. apply list_elem_of_here.
    + destruct (IH H) as [H'|H']; [left; apply list_elem_of_further, H' | auto].
Qed.

Lemma replicaKeyed_outbound area entry :
  replicaKeyed area -> ve_id entry = generateWordId normalize_NFC (ve_word entry) ->
  replicaKeyed (outboundData area entry).
Proof.
  intros Ha Hid k r Hin. unfold outboundData in Hin. cbv zeta in Hin.
  destruct (object_get area (ve_id entry)) as [ex|];
    apply elem_of_object_set in Hin; destruct Hin as [Hin|[= -> ->]];
    try (apply (Ha _ _ Hin)); exact Hid.
Qed.

Lemma syncToChrome_area ch entry w :
  syncArea (syncToChrome ch entry w) = syncArea w
  \/ syncArea (syncToChrome ch entry w) = outboundData (syncArea w) entry.
Proof.
  unfold syncToChrome, syncToChrome_try, chrome_sync_get, chrome_sync_set.
  destruct (ch_get_ok ch); cbn [mbind outcome_bind]; [|auto].
  destruct (Z.of_nat (length (payloadJSON (outboundData (syncArea w) entry))) <? 100000);
    [|auto].
  destruct (ch_set_ok ch (outboundData (syncArea w) entry)); auto.
Qed.

Lemma wordKeyed_mergeRecord db kv :
  wordKeyed db -> fst kv = generateWordId normalize_NFC (sv_w (snd kv)) ->
  wordKeyed (mergeRecord db kv).
Proof.
  intros Hk Hkv. destruct kv as [id synced]. cbn [fst snd] in Hkv.
  rewrite mergeRecord_insert by (apply wordKeyed_storeKeyed, Hk).
  intros k e E. apply lookup_insert_Some in E. destruct E as [[<- <-]|[_ E]];
    [|apply (Hk k e E)].
  destruct (db !! id) as [ex|] eqn:Eex; cbn [mergedEntry ve_id ve_word].
  - apply (Hk id ex Eex).
  - split; [reflexivity | exact Hkv].
Qed.

Lemma wordKeyed_merge area db :
  wordKeyed db -> replicaKeyed area -> wordKeyed (fold_left mergeRecord area db).
Proof.
  revert db. induction area as [|kv area IH]; intros db Hk Ha; [exact Hk|].
  cbn [fold_left]. apply IH.
  - apply wordKeyed_mergeRecord; [exact Hk|]. destruct kv as [k r].
    apply (Ha k r), list_elem_of_here.
  - intros k r Hin. apply (Ha k r), list_elem_of_further, Hin.
Qed.

Lemma savedEntry_word now word pinyin defs chars ctx existing :
  ve_word (savedEntry normalize_NFC now word pinyin defs chars ctx existing)
  = match existing with Some ex => ve_word ex | None => word end.
Proof.
  unfold savedEntry. destruct existing as [ex|].
  - cbv zeta. destruct ctx as [[s u]|]; [|reflexivity].
    cbn [ve_contexts]. destruct (_ <? _)%nat; [|reflexivity].
    destruct (negb _); reflexivity.
  - destruct ctx as [[s u]|]; reflexivity.
Qed.

Lemma wordKeyed_saved ch now word pinyin defs chars ctx w :
  wordKeyed (vocabulary w) ->
  let e := fst (saveVocabularyEntry normalize_NFC ch now word pinyin defs chars ctx w) in
  ve_id e = generateWordId normalize_NFC (ve_word e)
  /\ wordKeyed
       (vocabulary (snd (saveVocabularyEntry normalize_NFC ch now word pinyin defs chars ctx w))).
Proof.
  intros Hk e.
  destruct (saveVocabularyEntry_put normalize_NFC ch now word pinyin defs chars ctx w
              (wordKeyed_storeKeyed _ Hk)) as [Hid Hv].
  fold e in Hid, Hv.
  assert (generateWordId normalize_NFC word = generateWordId normalize_NFC (ve_word e)) as Hw.
  { subst e. rewrite saveVocabularyEntry_entry, savedEntry_word.
    destruct (vocabulary w !! generateWordId normalize_NFC word) as [ex|] eqn:E;
      [|reflexivity].
    apply (Hk _ _ E). }
  split; [congruence|].
  rewrite Hv. intros k e' E. apply lookup_insert_Some in E.
  destruct E as [[<- <-]|[_ E]]; [split; [exact Hid | exact Hw] | apply (Hk k e' E)].
Qed.

(** The store and the replica are keyed by the normalized word, and stay so:
    every step keeps it, as long as what other devices write is keyed so
    too.  Hence every stored entry is the one [getVocabularyEntry] returns
    for its word. *)
Theorem entries_found_by_their_word (w w' : World) :
  wordKeyed (vocabulary w) -> replicaKeyed (syncArea w) ->
  Step normalize_NFC w w' ->
  (forall area, w' = remoteWrite area w -> replicaKeyed area) ->
  (wordKeyed (vocabulary w') /\ replicaKeyed (syncArea w'))
  /\ forall k e, vocabulary w' !! k = Some e ->
       getVocabularyEntry normalize_NFC w' (ve_word e) = Some e.
Proof.
  intros Hk Ha Hstep Hremote.
  assert (wordKeyed (vocabulary w') /\ replicaKeyed (syncArea w')) as Hinv.
  { destruct Hstep as [ch now word pinyin defs chars ctx w|ch w|component character w|area w].
    - destruct (wordKeyed_saved ch now word pinyin defs chars ctx w Hk) as [Hid Hk'].
      split; [exact Hk'|].
      rewrite saveVocabularyEntry_world.
      match goal with |- replicaKeyed (syncArea (syncToChrome ?c ?e ?w1)) =>
        destruct (syncToChrome_area c e w1) as [-> | ->] end; cbn [syncArea];
        [exact Ha | apply replicaKeyed_outbound; [exact Ha | exact Hid]].
    - destruct (syncFromChrome_frame ch w) as [-> _]. split; [|exact Ha].
      unfold syncFromChrome, chrome_sync_get. destruct (ch_get_ok ch); cbn [vocabulary];
        [apply wordKeyed_merge; assumption | exact Hk].
    - unfold updateComponentMap. destruct (bool_decide _); [auto|]. cbv zeta. auto.
    - split; [exact Hk | apply (Hremote area eq_refl)]. }
  split; [exact Hinv|].
  intros k e E. unfold getVocabularyEntry.
  destruct (proj1 Hinv k e E) as [_ <-]. exact E.
Qed.

End StoreHistory.

Lemma entries_found_by_their_word_witness :
  wordKeyed alreadyNFC (vocabulary emptyWorld)
  /\ replicaKeyed alreadyNFC (syncArea emptyWorld)
  /\ exists e,
       getVocabularyEntry alreadyNFC
         (snd (saveVocabularyEntry alreadyNFC quietChannel 1000 [han_guo] (js "guo")
                 [js "country"] [] None emptyWorld)) [han_guo] = Some e.
Proof.
  assert (wordKeyed alreadyNFC (vocabulary emptyWorld)) as Hk.
  { intros k e H. cbn [emptyWorld vocabulary] in H. rewrite lookup_empty in H. discriminate. }
  assert (replicaKeyed alreadyNFC (syncArea emptyWorld)) as Ha.
  { intros k r H. cbn [emptyWorld syncArea] in H. apply elem_of_nil in H. contradiction. }
  split; [exact Hk|]. split; [exact Ha|].
  set (saved := saveVocabularyEntry alreadyNFC quietChannel 1000 [han_guo] (js "guo")
                  [js "country"] [] None emptyWorld).
  destruct (entries_found_by_their_word alreadyNFC emptyWorld (snd saved) Hk Ha
              (Step_save alreadyNFC quietChannel 1000 [han_guo] (js "guo")
                 [js "country"] [] None emptyWorld)) as [_ Hfound].
  - intros area H. apply (f_equal (fun w => vocabulary w !! [han_guo])) in H.
    vm_compute in H. discriminate.
  - exists (fst saved). apply (Hfound [han_guo] (fst saved)). reflexivity.
Defined.


(** ** What the store never loses *)

(** [e'] is a later state of the entry [e]: the same word under the same
    key, first seen no later, with the contexts of [e] still there, in
    order, before any new one. *)
Definition laterStateOf (e e' : VocabularyEntry) : Prop :=
  ve_id e' = ve_id e /\ ve_word e' = ve_word e /\ ve_pinyin e' = ve_pinyin e
  /\ ve_firstSeenAt e' <= ve_firstSeenAt e
  /\ ve_contexts e `prefix_of` ve_contexts e'.

Definition keepsEntries (db db' : gmap jsstring VocabularyEntry) : Prop :=
  forall k e, db !! k = Some e -> exists e', db' !! k = Some e' /\ laterStateOf e e'.

Lemma laterStateOf_refl e : laterStateOf e e.
Proof. unfold laterStateOf. repeat split; try reflexivity. Qed.

Lemma laterStateOf_trans e1 e2 e3 :
  laterStateOf e1 e2 -> laterStateOf e2 e3 -> laterStateOf e1 e3.
Proof.
  unfold laterStateOf. intros (A1 & A2 & A3 & A4 & A5) (B1 & B2 & B3 & B4 & B5).
  repeat split; try congruence; try lia. etrans; eassumption.
Qed.

Lemma keepsEntries_refl db : keepsEntries db db.
Proof. intros k e E. exists e. split; [exact E | apply laterStateOf_refl]. Qed.

Lemma keepsEntries_trans db1 db2 db3 :
  keepsEntries db1 db2 -> keepsEntries db2 db3 -> keepsEntries db1 db3.
Proof.
  intros H12 H23 k e E. destruct (H12 k e E) as (e2 & E2 & L2).
  destruct (H23 k e2 E2) as (e3 & E3 & L3).
  exists e3. split; [exact E3 | eapply laterStateOf_trans; eassumption].
Qed.

Lemma keepsEntries_insert db id e' :
  (forall e, db !! id = Some e -> laterStateOf e e') ->
  keepsEntries db (<[id := e']> db).
Proof.
  intros H k e E. destruct (decide (k = id)) as [->|Hne].
  - exists e'. rewrite lookup_insert_eq. split; [reflexivity | apply H, E].
  - exists e. rewrite lookup_insert_ne by congruence.
    split; [exact E | apply laterStateOf_refl].
Qed.

Lemma laterStateOf_merged id synced ex :
  laterStateOf ex (mergedEntry id synced (Some ex)).
Proof.
  unfold laterStateOf. cbn [mergedEntry ve_id ve_word ve_pinyin ve_firstSeenAt ve_contexts].
  repeat split; try reflexivity. lia.
Qed.

Lemma keepsEntries_merge area db :
  storeKeyed db -> keepsEntries db (fold_left mergeRecord area db).
Proof.
  revert db. induction area as [|[id synced] area IH]; intros db Hk;
    [apply keepsEntries_refl|].
  cbn [fold_left]. eapply keepsEntries_trans;
    [|apply IH, storeKeyed_mergeRecord, Hk].
  rewrite mergeRecord_insert by exact Hk.
  apply keepsEntries_insert. intros e ->. apply laterStateOf_merged.
Qed.

Section Persistence.

Variable normalize_NFC : jsstring -> jsstring.

Lemma savedEntry_kept now word pinyin defs chars ctx ex :
  let e := savedEntry normalize_NFC now word pinyin defs chars ctx (Some ex) in
  ve_word e = ve_word ex /\ ve_pinyin e = ve_pinyin ex
  /\ ve_firstSeenAt e = ve_firstSeenAt ex.
Proof.
  unfold savedEntry. cbv zeta. destruct ctx as [[s u]|]; [|auto].
  cbn [ve_contexts]. destruct (_ <? _)%nat; [|auto]. destruct (negb _); auto.
Qed.

Lemma laterStateOf_saved now word pinyin defs chars ctx ex :
  laterStateOf ex (savedEntry normalize_NFC now word pinyin defs chars ctx (Some ex)).
Proof.
  unfold laterStateOf.
  destruct (savedEntry_kept now word pinyin defs chars ctx ex) as (-> & -> & ->).
  rewrite (savedEntry_id normalize_NFC), (savedEntry_contexts normalize_NFC).
  repeat split; try reflexivity.
  destruct ctx as [[s u]|]; [|reflexivity].
  destruct (_ && _); [apply prefix_app_r|]; reflexivity.
Qed.

Lemma storeKeyed_step w w' :
  Step normalize_NFC w w' -> storeKeyed (vocabulary w) -> storeKeyed (vocabulary w').
Proof.
  intros Hstep Hk.
  destruct Hstep as [ch now word pinyin defs chars ctx w|ch w|component character w|area w].
  - destruct (saveVocabularyEntry_put normalize_NFC ch now word pinyin defs chars ctx w Hk)
      as [Hid ->].
    apply storeKeyed_insert; assumption.
  - apply (syncFromChrome_frame ch w), Hk.
  - unfold updateComponentMap. destruct (bool_decide _); exact Hk.
  - exact Hk.
Qed.

Lemma keepsEntries_step w w' :
  Step normalize_NFC w w' -> storeKeyed (vocabulary w) ->
  keepsEntries (vocabulary w) (vocabulary w').
Proof.
  intros Hstep Hk.
  destruct Hstep as [ch now word pinyin defs chars ctx w|ch w|component character w|area w].
  - destruct (saveVocabularyEntry_put normalize_NFC ch now word pinyin defs chars ctx w Hk)
      as [_ ->].
    apply keepsEntries_insert. intros e E.
    rewrite saveVocabularyEntry_entry, E. apply laterStateOf_saved.
  - unfold syncFromChrome. destruct (chrome_sync_get ch (syncArea w)); cbn [vocabulary];
      [apply keepsEntries_merge, Hk | apply keepsEntries_refl].
  - unfold updateComponentMap. destruct (bool_decide _); apply keepsEntries_refl.
  - apply keepsEntries_refl.
Qed.

(** No sequence of saves, inbound merges, component updates and writes
    of other devices removes an entry from the vocabulary, renames it, moves
    its first-seen time forward, or drops or reorders a context it holds. *)
Theorem stored_entries_are_kept (w w' : World) :
  storeKeyed (vocabulary w) -> rtc (Step normalize_NFC) w w' ->
  storeKeyed (vocabulary w')
  /\ forall k e, vocabulary w !! k = Some e ->
       exists e', vocabulary w' !! k = Some e' /\ laterStateOf e e'.
Proof.
  intros Hk Hsteps. induction Hsteps as [w|w w1 w2 Hstep Hsteps IH].
  - split; [exact Hk | apply keepsEntries_refl].
  - destruct (IH (storeKeyed_step _ _ Hstep Hk)) as [Hk2 Hkeep].
    split; [exact Hk2|].
    eapply keepsEntries_trans; [apply keepsEntries_step; eassumption | exact Hkeep].
Qed.

End Persistence.

Lemma stored_entries_are_kept_witness :
  storeKeyed (vocabulary worldWithGuo)
  /\ rtc (Step alreadyNFC) worldWithGuo
       (snd (saveVocabularyEntry alreadyNFC quietChannel 3000 [han_guo] (js "guo")
               [] [] (Some (js "context", js "url"))
               (syncFromChrome quietChannel worldWithGuo)))
  /\ exists e',
       vocabulary
         (snd (saveVocabularyEntry alreadyNFC quietChannel 3000 [han_guo] (js "guo")
                 [] [] (Some (js "context", js "url"))
                 (syncFromChrome quietChannel worldWithGuo))) !! [han_guo] = Some e'
       /\ laterStateOf entry_guo e'.
Proof.
  assert (rtc (Step alreadyNFC) worldWithGuo
            (snd (saveVocabularyEntry alreadyNFC quietChannel 3000 [han_guo] (js "guo")
                    [] [] (Some (js "context", js "url"))
                    (syncFromChrome quietChannel worldWithGuo)))) as Hsteps.
  { eapply rtc_l; [apply Step_syncFrom|]. apply rtc_once, Step_save. }
  split; [exact storeKeyed_worldWithGuo|]. split; [exact Hsteps|].
  destruct (stored_entries_are_kept alreadyNFC _ _ storeKeyed_worldWithGuo Hsteps)
    as [_ Hkeep].
  apply (Hkeep [han_guo] entry_guo). apply lookup_singleton_eq.
Defined.


(** ** The component map *)

(** Every list of the component map has at most 20 characters, each once. *)
Definition componentsOk (w : World) : Prop :=
  forall k l, componentMap w !! k = Some l -> (length l <= 20)%nat /\ NoDup l.

(** [updateComponentMap(component, c)] for each [c] of [cs] in turn. *)
Definition updateComponentMap_each (component : jsstring) (cs : list jsstring)
    (w : World) : World :=
  fold_left (fun w c => updateComponentMap component c w) cs w.

Lemma updateComponentMap_present component character w :
  character ∈ getCharactersWithComponent w component ->
  updateComponentMap component character w = w.
Proof.
  unfold updateComponentMap, getCharactersWithComponent. intros H.
  rewrite bool_decide_eq_true_2 by exact H. reflexivity.
Qed.

Lemma updateComponentMap_absent component character w :
  character ∉ getCharactersWithComponent w component ->
  let l := getCharactersWithComponent w component in
  getCharactersWithComponent (updateComponentMap component character w) component
  = (if (20 <=? length l)%nat then drop 1 l else l) ++ [character]
  /\ (forall k, k <> component ->
        componentMap (updateComponentMap component character w) !! k
        = componentMap w !! k)
  /\ vocabulary (updateComponentMap component character w) = vocabulary w
  /\ syncArea (updateComponentMap component character w) = syncArea w
  /\ warnings (updateComponentMap component character w) = warnings w.
Proof.
  unfold updateComponentMap, getCharactersWithComponent. intros H. cbv zeta.
  rewrite bool_decide_eq_false_2 by exact H.
  cbn [componentMap vocabulary syncArea warnings].
  rewrite lookup_insert_eq. cbn [default].
  split; [|split; [intros k Hne; apply lookup_insert_ne; congruence | auto]].
  set (l := default [] (componentMap w !! component)). rewrite length_app. cbn [length].
  destruct (Nat.leb_spec 20 (length l)) as [Hfull|Hroom].
  - rewrite (proj2 (Nat.ltb_lt _ _)) by lia.
    destruct l as [|x l']; [cbn in Hfull; lia | reflexivity].
  - rewrite (proj2 (Nat.ltb_ge _ _)) by lia. reflexivity.
Qed.

Lemma componentsOk_update component character w :
  componentsOk w -> componentsOk (updateComponentMap component character w).
Proof.
  intros Hok.
  destruct (decide (character ∈ getCharactersWithComponent w component)) as [Hin|Hnin].
  { rewrite updateComponentMap_present by exact Hin. exact Hok. }
  destruct (updateComponentMap_absent component character w Hnin) as (Hat & Hother & _).
  assert ((length (getCharactersWithComponent w component) <= 20)%nat
          /\ NoDup (getCharactersWithComponent w component)) as [Hlen Hnd].
  { unfold getCharactersWithComponent.
    destruct (componentMap w !! component) as [l|] eqn:E; [apply (Hok _ _ E)|].
    cbn. split; [lia | constructor]. }
  intros k l E. destruct (decide (k = component)) as [->|Hne].
  - unfold getCharactersWithComponent at 1 in Hat. rewrite E in Hat. cbn [default] in Hat.
    unfold id in Hat. subst l. set (old := getCharactersWithComponent w component) in *.
    assert (NoDup (old ++ [character])) as Hnd'.
    { apply NoDup_app. split; [exact Hnd|]. split; [|apply NoDup_singleton].
      intros x Hx Hx'. apply list_elem_of_singleton in Hx'. subst x. exact (Hnin Hx). }
    destruct (Nat.leb_spec 20 (length old)) as [Hfull|Hroom].
    + split; [rewrite length_app, length_drop; cbn [length]; lia|].
      destruct old as [|x old']; [cbn in Hfull; lia|].
      cbn [drop]. apply NoDup_cons in Hnd'. apply Hnd'.
    + split; [rewrite length_app; cbn [length]; lia | exact Hnd'].
  - rewrite Hother in E by exact Hne. apply (Hok _ _ E).
Qed.

Lemma updateComponentMap_each_window component cs w :
  (length (getCharactersWithComponent w component) <= 20)%nat ->
  NoDup (getCharactersWithComponent w component ++ cs) ->
  getCharactersWithComponent (updateComponentMap_each component cs w) component
  = drop (length (getCharactersWithComponent w component ++ cs) - 20)
      (getCharactersWithComponent w component ++ cs).
Proof.
  revert w. induction cs as [|c cs IH]; intros w Hlen Hnd.
  - cbn [updateComponentMap_each fold_left]. rewrite app_nil_r.
    replace (_ - 20)%nat with O by lia. reflexivity.
  - cbn [updateComponentMap_each fold_left].
    fold (updateComponentMap_each component cs (updateComponentMap component c w)).
    set (old := getCharactersWithComponent w component) in *.
    assert (c ∉ old) as Hnin.
    { apply NoDup_app in Hnd. destruct Hnd as (_ & Hdis & _).
      intros Hc. apply (Hdis c Hc). left. }
    destruct (updateComponentMap_absent component c w Hnin) as (Hat & _).
    fold old in Hat.
    assert (old ++ c :: cs = (old ++ [c]) ++ cs) as Hre by (rewrite <- app_assoc; reflexivity).
    rewrite IH; rewrite Hat.
    + destruct (Nat.leb_spec 20 (length old)) as [Hfull|Hroom].
      * destruct old as [|x old']; [cbn in Hfull; lia|].
        change (drop 1 (x :: old')) with old'. cbn [length] in Hfull, Hlen. rewrite Hre.
        rewrite !length_app. cbn [length app].
        replace (S (length old') + 1 + length cs - 20)%nat with (S (length cs)) by lia.
        replace (length old' + 1 + length cs - 20)%nat with (length cs) by lia.
        reflexivity.
      * rewrite Hre. reflexivity.
    + destruct (Nat.leb_spec 20 (length old)); rewrite length_app, ?length_drop;
        cbn [length]; lia.
    + rewrite Hre in Hnd. destruct (Nat.leb_spec 20 (length old)); [|exact Hnd].
      destruct old as [|x old']; [exact Hnd|]. cbn [drop].
      cbn [app] in Hnd. apply NoDup_cons in Hnd. apply Hnd.
Qed.

Section ComponentHistory.

Variable normalize_NFC : jsstring -> jsstring.

Lemma componentsOk_step w w' :
  Step normalize_NFC w w' -> componentsOk w -> componentsOk w'.
Proof.
  intros Hstep Hok.
  destruct Hstep as [ch now word pinyin defs chars ctx w|ch w|component character w|area w].
  - rewrite saveVocabularyEntry_world. unfold syncToChrome.
    destruct (syncToChrome_try _ _ _); exact Hok.
  - unfold syncFromChrome. destruct (chrome_sync_get _ _); exact Hok.
  - apply componentsOk_update, Hok.
  - exact Hok.
Qed.

(** The lists of the component map stay within 20 characters without
    repeats through every sequence of steps; and right after
    [updateComponentMap(component, character)] the character is among the
    characters seen with the component: where it was when it was there
    already, the list being left as it is, else at the end, after the
    previous ones without the oldest when there were 20. *)
Theorem componentMap_bounded_distinct (w w' : World) (component character : jsstring) :
  componentsOk w -> rtc (Step normalize_NFC) w w' ->
  componentsOk w'
  /\ let before := getCharactersWithComponent w' component in
     let after :=
       getCharactersWithComponent (updateComponentMap component character w') component in
     character ∈ after
     /\ (character ∈ before -> after = before)
     /\ (character ∉ before ->
         after = (if (20 <=? length before)%nat then drop 1 before else before)
                 ++ [character]).
Proof.
  intros Hok Hsteps.
  assert (componentsOk w') as Hok'.
  { induction Hsteps as [w|w w1 w2 Hstep Hsteps IH]; [exact Hok|].
    apply IH, (componentsOk_step _ _ Hstep Hok). }
  split; [exact Hok'|]. cbv zeta.
  destruct (decide (character ∈ getCharactersWithComponent w' component)) as [Hin|Hnin].
  - rewrite updateComponentMap_present by exact Hin.
    split; [exact Hin|]. split; [reflexivity | contradiction].
  - destruct (updateComponentMap_absent component character w' Hnin) as (-> & _).
    split; [apply elem_of_app; right; left|]. split; [contradiction | reflexivity].
Qed.

End ComponentHistory.

Lemma componentMap_bounded_distinct_witness :
  componentsOk emptyWorld
  /\ rtc (Step alreadyNFC) emptyWorld (updateComponentMap (js "r") [han_guo] emptyWorld)
  /\ getCharactersWithComponent
       (updateComponentMap (js "r") [han_zhong]
          (updateComponentMap (js "r") [han_guo] emptyWorld)) (js "r")
     = [[han_guo]; [han_zhong]].
Proof.
  assert (componentsOk emptyWorld) as Hok.
  { intros k l H. cbn [emptyWorld componentMap] in H. rewrite lookup_empty in H.
    discriminate. }
  assert (rtc (Step alreadyNFC) emptyWorld (updateComponentMap (js "r") [han_guo] emptyWorld))
    as Hsteps by apply rtc_once, Step_component.
  split; [exact Hok|]. split; [exact Hsteps|].
  destruct (componentMap_bounded_distinct alreadyNFC _ _ (js "r") [han_zhong] Hok Hsteps)
    as (_ & _ & _ & Hnew).
  rewrite Hnew; [reflexivity|].
  vm_compute. intros H. apply list_elem_of_singleton in H. discriminate.
Defined.

(** Seeing characters that are all different, none of them recorded yet,
    with one component leaves the last 20 of the recorded and the new ones,
    oldest first: with nothing recorded before, 25 characters leave the last
    20 of them. *)
Theorem componentMap_keeps_latest_twenty (component : jsstring) (cs : list jsstring)
    (w : World) :
  (length (getCharactersWithComponent w component) <= 20)%nat ->
  NoDup (getCharactersWithComponent w component ++ cs) ->
  let all := getCharactersWithComponent w component ++ cs in
  getCharactersWithComponent (updateComponentMap_each component cs w) component
  = drop (length all - 20) all
  /\ (componentMap w !! component = None ->
      getCharactersWithComponent (updateComponentMap_each component cs w) component
      = drop (length cs - 20) cs).
Proof.
  intros Hlen Hnd all. split; [apply updateComponentMap_each_window; assumption|].
  intros Hnone. rewrite updateComponentMap_each_window by assumption.
  unfold getCharactersWithComponent. rewrite Hnone. reflexivity.
Qed.

Lemma componentMap_keeps_latest_twenty_witness :
  (length (getCharactersWithComponent emptyWorld (js "r")) <= 20)%nat
  /\ NoDup (getCharactersWithComponent emptyWorld (js "r")
            ++ map (fun n => [0x4E00 + N.of_nat n]%N) (seq 0 25))
  /\ getCharactersWithComponent
       (updateComponentMap_each (js "r") (map (fun n => [0x4E00 + N.of_nat n]%N) (seq 0 25))
          emptyWorld) (js "r")
     = map (fun n => [0x4E00 + N.of_nat n]%N) (seq 5 20).
Proof.
  assert (NoDup (getCharactersWithComponent emptyWorld (js "r")
                 ++ map (fun n => [0x4E00 + N.of_nat n]%N) (seq 0 25))) as Hnd.
  { apply (@bool_decide_unpack _ (NoDup_dec _)). vm_compute. exact I. }
  assert (length (getCharactersWithComponent emptyWorld (js "r")) <= 20)%nat as Hlen
    by (vm_compute; lia).
  split; [exact Hlen|]. split; [exact Hnd|].
  destruct (componentMap_keeps_latest_twenty (js "r")
              (map (fun n => [0x4E00 + N.of_nat n]%N) (seq 0 25)) emptyWorld Hlen Hnd)
    as [_ Hlast].
  rewrite Hlast by reflexivity. vm_compute. reflexivity.
Defined.


(** ** Outbound replication *)

Lemma object_get_set_eq {V} (obj : list (jsstring * V)) key v :
  object_get (object_set obj key v) key = Some v.
Proof.
  induction obj as [|[k v0] rest IH]; cbn [object_set object_get].
  - rewrite bool_decide_eq_true_2 by reflexivity. reflexivity.
  - destruct (bool_decide_reflect (k = key)) as [->|Hne]; cbn [object_get].
    + rewrite bool_decide_eq_true_2 by reflexivity. reflexivity.
    + rewrite bool_decide_eq_false_2 by exact Hne. exact IH.
Qed.

Lemma object_get_set_ne {V} (obj : list (jsstring * V)) key v k' :
  k' <> key -> object_get (object_set obj key v) k' = object_get obj k'.
Proof.
  intros Hne. induction obj as [|[k v0] rest IH]; cbn [object_set object_get].
  - rewrite bool_decide_eq_false_2 by congruence. reflexivity.
  - destruct (bool_decide_reflect (k = key)) as [->|Hk]; cbn [object_get].
    + rewrite !bool_decide_eq_false_2 by congruence. reflexivity.
    + rewrite IH. reflexivity.
Qed.

Lemma object_set_set {V} (obj : list (jsstring * V)) key v v' :
  object_set (object_set obj key v) key v' = object_set obj key v'.
Proof.
  induction obj as [|[k v0] rest IH]; cbn [object_set].
  - rewrite bool_decide_eq_true_2 by reflexivity. reflexivity.
  - destruct (bool_decide_reflect (k = key)) as [->|Hk]; cbn [object_set].
    + rewrite bool_decide_eq_true_2 by reflexivity. reflexivity.
    + rewrite bool_decide_eq_false_2 by exact Hk. rewrite IH. reflexivity.
Qed.


Lemma object_get_None {V} (obj : list (jsstring * V)) key :
  object_get obj key = None <-> key ∉ map fst obj.
Proof.
  induction obj as [|[k v0] rest IH]; cbn [object_get map fst].
  - split; [intros _ H; apply elem_of_nil in H; contradiction | reflexivity].
  - rewrite not_elem_of_cons. destruct (bool_decide_reflect (k = key)) as [->|Hk].
    + split; [discriminate | intros [H _]; congruence].
    + rewrite IH. split; [intros H; split; [congruence | exact H] | intros [_ H]; exact H].
Qed.



(** The record [syncToChrome] files for [entry] when the replica holds
    [old] under the entry's key. *)
Definition outboundRecord (old : option SyncedVocabEntry) (entry : VocabularyEntry)
  : SyncedVocabEntry :=
  {| sv_w := ve_word entry;
     sv_p := ve_pinyin entry;
     sv_d := truncateDefinitions (ve_definitions entry);
     sv_c := match old with
             | Some old => Z.max (sv_c old) (ve_lookupCount entry)
             | None => ve_lookupCount entry
             end;
     sv_f := match old with
             | Some old => Z.min (sv_f old) (ve_firstSeenAt entry)
             | None => ve_firstSeenAt entry
             end;
     sv_l := ve_lastSeenAt entry |}.

Lemma outboundData_set area entry :
  outboundData area entry
  = object_set area (ve_id entry) (outboundRecord (object_get area (ve_id entry)) entry).
Proof. unfold outboundData, outboundRecord. destruct (object_get _ _); reflexivity. Qed.

Lemma outboundRecord_again old entry :
  outboundRecord (Some (outboundRecord old entry)) entry = outboundRecord old entry.
Proof.
  unfold outboundRecord. cbn [sv_c sv_f]. destruct old as [old|]; f_equal; lia.
Qed.

Lemma outboundData_again area entry :
  outboundData (outboundData area entry) entry = outboundData area entry.
Proof.
  rewrite (outboundData_set (outboundData area entry)), (outboundData_set area).
  rewrite object_get_set_eq, object_set_set, outboundRecord_again. reflexivity.
Qed.




(** Running [syncToChrome] for an entry a second time leaves the replica as
    the first run left it, whatever the channel did. *)
Theorem syncToChrome_twice (ch : Channel) (entry : VocabularyEntry) (w : World) :
  syncArea (syncToChrome ch entry (syncToChrome ch entry w))
  = syncArea (syncToChrome ch entry w).
Proof.
  assert (forall w0, syncArea (syncToChrome ch entry w0)
                     = match syncToChrome_try ch entry (syncArea w0) with
                       | Returned _ a => a
                       | Thrown _ => syncArea w0
                       end) as Harea.
  { intros w0. unfold syncToChrome. destruct (syncToChrome_try _ _ _); reflexivity. }
  rewrite (Harea (syncToChrome ch entry w)), (Harea w).
  set (area := syncArea w).
  unfold syncToChrome_try, chrome_sync_get, chrome_sync_set.
  destruct (ch_get_ok ch); cbn [mbind outcome_bind]; [|reflexivity].
  destruct (Z.of_nat (length (payloadJSON (outboundData area entry))) <? 100000) eqn:Hsize.
  - destruct (ch_set_ok ch (outboundData area entry)) eqn:Hset.
    + rewrite outboundData_again, Hsize, Hset. reflexivity.
    + rewrite Hsize, Hset. reflexivity.
  - rewrite Hsize. reflexivity.
Qed.

(** [truncateDefinitions] keeps the first 3 definitions and cuts each to 100
    units plus the three-unit mark; what it returns it leaves unchanged, and
    so it does a list of up to 3 definitions of up to 100 units. *)
Theorem truncateDefinitions_bounds (definitions : list jsstring) :
  length (truncateDefinitions definitions) = Nat.min 3 (length definitions)
  /\ Forall (fun d => (length d <= 103)%nat) (truncateDefinitions definitions)
  /\ (forall i d, truncateDefinitions definitions !! i = Some d ->
        exists d0, definitions !! i = Some d0 /\ take 100 d = take 100 d0
                   /\ ((length d0 <= 100)%nat -> d = d0))
  /\ truncateDefinitions (truncateDefinitions definitions) = truncateDefinitions definitions
  /\ ((length definitions <= 3)%nat ->
      Forall (fun d => (length d <= 100)%nat) definitions ->
      truncateDefinitions definitions = definitions).
Proof.
  set (cut := fun d : jsstring =>
                if (MAX_SYNCED_DEF_LENGTH <? length d)%nat
                then slice d 0 MAX_SYNCED_DEF_LENGTH ++ cutMark else d).
  assert (forall d, (length d <= 100)%nat -> cut d = d) as Hshort.
  { intros d Hd. unfold cut, MAX_SYNCED_DEF_LENGTH.
    rewrite (proj2 (Nat.ltb_ge _ _)) by lia. reflexivity. }
  assert (forall d, (100 < length d)%nat -> cut d = take 100 d ++ cutMark) as Hlong.
  { intros d Hd. unfold cut, MAX_SYNCED_DEF_LENGTH, slice.
    rewrite (proj2 (Nat.ltb_lt _ _)) by exact Hd. reflexivity. }
  assert (forall d, (length (cut d) <= 103)%nat /\ take 100 (cut d) = take 100 d
                    /\ cut (cut d) = cut d) as Hcut.
  { intros d. destruct (Nat.le_gt_cases (length d) 100) as [Hd|Hd].
    - rewrite !(Hshort d Hd). split; [lia|]. split; reflexivity.
    - rewrite !(Hlong d Hd).
      assert (length (take 100 d ++ cutMark) = 103%nat) as Hl
        by (rewrite length_app, length_take; cbn [cutMark length]; lia).
      assert (take 100 (take 100 d ++ cutMark) = take 100 d) as Ht.
      { rewrite take_app_le by (rewrite length_take; lia).
        rewrite take_take, Nat.min_id. reflexivity. }
      split; [lia|]. split; [exact Ht|].
      rewrite Hlong by lia. rewrite Ht. reflexivity. }
  change (truncateDefinitions definitions) with (map cut (take 3 definitions)).
  split; [rewrite length_map, length_take; lia|].
  split; [apply Forall_forall; intros d Hd; apply list_elem_of_fmap in Hd;
          destruct Hd as (d0 & -> & _); apply Hcut|].
  split.
  { intros i d Hi. rewrite list_lookup_fmap in Hi.
    destruct (take 3 definitions !! i) as [d0|] eqn:E; [|discriminate].
    injection Hi as <-. exists d0.
    apply lookup_take_Some in E. destruct E as [E _].
    split; [exact E|]. split; [apply Hcut | apply Hshort]. }
  split.
  { change (truncateDefinitions (map cut (take 3 definitions)))
      with (map cut (take 3 (map cut (take 3 definitions)))).
    rewrite <- fmap_take, take_take. change (3 `min` 3)%nat with 3%nat.
    rewrite <- list_fmap_compose. apply list_fmap_ext. intros i d _. apply Hcut. }
  intros Hlen Hall. rewrite take_ge by lia.
  rewrite <- (list_fmap_id definitions) at 2. apply Forall_fmap_ext_1.
  eapply Forall_impl; [exact Hall|]. intros d Hd. apply Hshort, Hd.
Qed.


(** ** From one device to another *)

Section NewDevice.

Variable normalize_NFC : jsstring -> jsstring.


End NewDevice.



(** ** What a lookup writes *)

(** The vocabulary, the replica and the warnings of [w'] are those of [w]. *)
Definition sameRecords (w w' : World) : Prop :=
  vocabulary w' = vocabulary w /\ syncArea w' = syncArea w /\ warnings w' = warnings w.

(** The lookup count the vocabulary holds for a key, 0 for a key it lacks. *)
Definition countOf (db : gmap jsstring VocabularyEntry) (k : jsstring) : Z :=
  match db !! k with
  | Some e => ve_lookupCount e
  | None => 0
  end.

Lemma sameRecords_refl w : sameRecords w w.
Proof. repeat split. Qed.

Lemma sameRecords_trans w1 w2 w3 :
  sameRecords w1 w2 -> sameRecords w2 w3 -> sameRecords w1 w3.
Proof. unfold sameRecords. intros (A & B & C) (D & E & F). repeat split; congruence. Qed.

Lemma sameRecords_update component character w :
  sameRecords w (updateComponentMap component character w).
Proof. unfold updateComponentMap. destruct (bool_decide _); repeat split. Qed.

Lemma sameRecords_recordComponents character comps st :
  sameRecords (fst st) (fst (fold_left (recordComponent character) comps st)).
Proof.
  revert st. induction comps as [|key comps IH]; intros st; [apply sameRecords_refl|].
  cbn [fold_left]. eapply sameRecords_trans; [|apply IH].
  unfold recordComponent. cbn [fst]. apply sameRecords_update.
Qed.

Lemma sameRecords_recordCharacter st charInfo :
  sameRecords (fst st) (fst (recordCharacter st charInfo)).
Proof.
  unfold recordCharacter.
  set (st1 := match ci_radical charInfo with
              | [] => st
              | _ :: _ => recordComponent (ci_character charInfo) st (ci_radical charInfo)
              end).
  assert (sameRecords (fst st) (fst st1)) as H1.
  { subst st1. destruct (ci_radical charInfo); [apply sameRecords_refl|].
    unfold recordComponent. cbn [fst]. apply sameRecords_update. }
  destruct (ci_components charInfo) as [comps|]; [|exact H1].
  eapply sameRecords_trans; [exact H1 | apply sameRecords_recordComponents].
Qed.

Lemma sameRecords_recordCharacters chars st :
  sameRecords (fst st) (fst (fold_left recordCharacter chars st)).
Proof.
  revert st. induction chars as [|c chars IH]; intros st; [apply sameRecords_refl|].
  cbn [fold_left]. eapply sameRecords_trans; [apply sameRecords_recordCharacter | apply IH].
Qed.

Section LookupWrites.

Variable normalize_NFC : jsstring -> jsstring.

Lemma handleSegment_skip ch clock context sourceUrl st segment :
  sameRecords (fst (fst st))
    (fst (fst (handleSegment normalize_NFC ch clock context sourceUrl true st segment))).
Proof.
  destruct st as [[w seen] i]. unfold handleSegment.
  pose proof (sameRecords_recordCharacters (ws_characters segment) (w, seen)) as H.
  destruct (fold_left recordCharacter (ws_characters segment) (w, seen)) as [w1 seen1].
  exact H.
Qed.

Lemma handleSegments_skip ch clock context sourceUrl segments st :
  sameRecords (fst (fst st))
    (fst (fst (fold_left (handleSegment normalize_NFC ch clock context sourceUrl true)
                 segments st))).
Proof.
  revert st. induction segments as [|seg segments IH]; intros st;
    [apply sameRecords_refl|].
  cbn [fold_left]. eapply sameRecords_trans; [apply handleSegment_skip | apply IH].
Qed.

(** A lookup asked not to save (the selection was made inside the popup)
    returns its result and leaves the vocabulary, the replica and the
    warnings as they were; its segments are those of the saving lookup. *)
Theorem handleLookup_skipSave_keeps_records
    (cedict : CedictData) (unihan : UnihanData) (radicals : RadicalData) (hsk : HskData)
    (ch : Channel) (clock : nat -> Z) (naturalTranslation : option jsstring)
    (text : jsstring) (context sourceUrl : option jsstring) (w : World) :
  exists result w' saving w'',
    handleLookup normalize_NFC cedict unihan radicals hsk ch clock naturalTranslation
      text context sourceUrl true w = Some (result, w')
    /\ handleLookup normalize_NFC cedict unihan radicals hsk ch clock naturalTranslation
         text context sourceUrl false w = Some (saving, w'')
    /\ sameRecords w w'
    /\ lr_segments result = lr_segments saving
    /\ lr_fullPinyin result = lr_fullPinyin saving.
Proof.
  destruct (lookupWithSegmentation_total normalize_NFC cedict text) as [entries He].
  unfold handleLookup, performLookup. rewrite He. cbn [mbind option_bind lr_segments].
  set (segments := map (toSegment unihan radicals hsk (isWordKnown normalize_NFC w)) entries).
  pose proof (handleSegments_skip ch clock context sourceUrl segments (w, [], O)) as Hskip.
  destruct (fold_left (handleSegment normalize_NFC ch clock context sourceUrl true)
              segments (w, [], O)) as [[w' seen] i].
  destruct (fold_left (handleSegment normalize_NFC ch clock context sourceUrl false)
              segments (w, [], O)) as [[w'' seen''] i''].
  do 4 eexists. split; [reflexivity|]. split; [reflexivity|].
  split; [exact Hskip|]. split; reflexivity.
Qed.

Lemma handleSegment_save ch clock context sourceUrl st segment :
  storeKeyed (vocabulary (fst (fst st))) ->
  let st' := handleSegment normalize_NFC ch clock context sourceUrl false st segment in
  let key := generateWordId normalize_NFC (ws_word segment) in
  storeKeyed (vocabulary (fst (fst st')))
  /\ (forall k, countOf (vocabulary (fst (fst st'))) k
                = countOf (vocabulary (fst (fst st))) k
                  + (if bool_decide (key = k) then 1 else 0))
  /\ (forall k, is_Some (vocabulary (fst (fst st)) !! k) ->
                is_Some (vocabulary (fst (fst st')) !! k))
  /\ is_Some (vocabulary (fst (fst st')) !! key).
Proof.
  destruct st as [[w seen] i]. cbn [fst]. intros Hk. unfold handleSegment.
  pose proof (sameRecords_recordCharacters (ws_characters segment) (w, seen)) as Hsame.
  destruct (fold_left recordCharacter (ws_characters segment) (w, seen)) as [w1 seen1].
  cbn [fst] in Hsame. destruct Hsame as (Hv & _). cbv zeta. cbn [fst].
  set (ctx := match context with
              | Some (c :: cs) => Some (c :: cs, default [] sourceUrl)
              | _ => None
              end).
  rewrite <- Hv in Hk |- *.
  destruct (saveVocabularyEntry_put normalize_NFC ch (clock i) (ws_word segment)
              (ws_pinyinTones segment) (ws_definitions segment) (ws_characters segment)
              ctx w1 Hk) as [Hid ->].
  set (e := fst (saveVocabularyEntry normalize_NFC ch (clock i) (ws_word segment)
                   (ws_pinyinTones segment) (ws_definitions segment)
                   (ws_characters segment) ctx w1)) in *.
  set (key := generateWordId normalize_NFC (ws_word segment)) in *.
  split; [apply storeKeyed_insert; assumption|].
  split; [|split].
  - intros k. unfold countOf. destruct (bool_decide_reflect (key = k)) as [<-|Hne].
    + rewrite lookup_insert_eq. subst e.
      rewrite saveVocabularyEntry_entry, savedEntry_count. fold key.
      destruct (vocabulary w1 !! key); lia.
    + rewrite lookup_insert_ne by exact Hne. lia.
  - intros k Hsome. destruct (decide (key = k)) as [<-|Hne].
    + rewrite lookup_insert_eq. eauto.
    + rewrite lookup_insert_ne by exact Hne. exact Hsome.
  - rewrite lookup_insert_eq. eauto.
Qed.

Lemma handleSegments_save ch clock context sourceUrl segments st :
  storeKeyed (vocabulary (fst (fst st))) ->
  let st' := fold_left (handleSegment normalize_NFC ch clock context sourceUrl false)
               segments st in
  storeKeyed (vocabulary (fst (fst st')))
  /\ (forall k, countOf (vocabulary (fst (fst st'))) k
                = countOf (vocabulary (fst (fst st))) k
                  + Z.of_nat
                      (length
                         (List.filter
                            (fun seg =>
                               bool_decide (generateWordId normalize_NFC (ws_word seg) = k))
                            segments)))
  /\ (forall k, is_Some (vocabulary (fst (fst st)) !! k) ->
                is_Some (vocabulary (fst (fst st')) !! k))
  /\ (forall seg, seg ∈ segments ->
        is_Some (vocabulary (fst (fst st'))
                   !! generateWordId normalize_NFC (ws_word seg))).
Proof.
  revert st. induction segments as [|seg segments IH]; intros st Hk; cbv zeta.
  - cbn [fold_left List.filter length]. split; [exact Hk|].
    split; [intros k; lia|]. split; [auto|]. intros seg H. apply elem_of_nil in H.
    contradiction.
  - cbn [fold_left].
    destruct (handleSegment_save ch clock context sourceUrl st seg Hk)
      as (Hk1 & Hc1 & Hs1 & Hin1).
    destruct (IH _ Hk1) as (Hk2 & Hc2 & Hs2 & Hin2).
    split; [exact Hk2|]. split; [|split].
    + intros k. rewrite Hc2, Hc1. cbn [List.filter].
      destruct (bool_decide _); cbn [length]; lia.
    + intros k Hsome. apply Hs2, Hs1, Hsome.
    + intros s Hs. apply elem_of_cons in Hs. destruct Hs as [->|Hs];
        [apply Hs2, Hin1 | apply Hin2, Hs].
Qed.

(** A saving lookup returns its result and adds, for every key, as many to
    the lookup count of the key as the result has segments whose word has
    that key: a word that comes twice in one selection is counted twice.
    Afterwards the vocabulary has an entry for the word of every segment,
    and every entry it had before. *)
Theorem handleLookup_counts_every_segment
    (cedict : CedictData) (unihan : UnihanData) (radicals : RadicalData) (hsk : HskData)
    (ch : Channel) (clock : nat -> Z) (naturalTranslation : option jsstring)
    (text : jsstring) (context sourceUrl : option jsstring) (w : World) :
  storeKeyed (vocabulary w) ->
  exists result w',
    handleLookup normalize_NFC cedict unihan radicals hsk ch clock naturalTranslation
      text context sourceUrl false w = Some (result, w')
    /\ storeKeyed (vocabulary w')
    /\ (forall k, countOf (vocabulary w') k
                  = countOf (vocabulary w) k
                    + Z.of_nat
                        (length
                           (List.filter
                              (fun seg =>
                                 bool_decide
                                   (generateWordId normalize_NFC (ws_word seg) = k))
                              (lr_segments result))))
    /\ (forall k, is_Some (vocabulary w !! k) -> is_Some (vocabulary w' !! k))
    /\ (forall seg, seg ∈ lr_segments result ->
          is_Some (getVocabularyEntry normalize_NFC w' (ws_word seg))).
Proof.
  intros Hk.
  destruct (lookupWithSegmentation_total normalize_NFC cedict text) as [entries He].
  unfold handleLookup, performLookup. rewrite He. cbn [mbind option_bind lr_segments].
  set (segments := map (toSegment unihan radicals hsk (isWordKnown normalize_NFC w)) entries).
  pose proof (handleSegments_save ch clock context sourceUrl segments (w, [], O) Hk) as H.
  cbv zeta in H.
  destruct (fold_left (handleSegment normalize_NFC ch clock context sourceUrl false)
              segments (w, [], O)) as [[w' seen] i].
  cbn [fst] in H. do 2 eexists. split; [reflexivity|]. cbn [lr_segments]. exact H.
Qed.

End LookupWrites.

Lemma handleLookup_counts_every_segment_witness :
  storeKeyed (vocabulary emptyWorld)
  /\ exists result w',
       handleLookup alreadyNFC simplifiedDict ∅ ∅ ∅ quietChannel (fun _ => 1000) None
         [han_guo; 0x3001%N; han_guo] None None false emptyWorld = Some (result, w')
       /\ countOf (vocabulary w') [han_guo] = 2
       /\ isWordKnown alreadyNFC w' [han_guo] = true.
Proof.
  split; [exact storeKeyed_empty|].
  destruct (handleLookup_counts_every_segment alreadyNFC simplifiedDict ∅ ∅ ∅ quietChannel
              (fun _ => 1000) None [han_guo; 0x3001%N; han_guo] None None emptyWorld
              storeKeyed_empty) as (result & w' & Hrun & _ & Hcount & _).
  exists result, w'. split; [exact Hrun|].
  assert (countOf (vocabulary w') [han_guo] = 2) as Hc.
  { rewrite Hcount. vm_compute in Hrun. injection Hrun as <- _. vm_compute. reflexivity. }
  split; [exact Hc|].
  unfold isWordKnown, getVocabularyEntry, countOf in *.
  change (generateWordId alreadyNFC [han_guo]) with [han_guo].
  destruct (vocabulary w' !! [han_guo]) as [e|]; [apply Z.ltb_lt; lia | lia].
Defined.


(** ** Text with and without Han characters *)

(** [isChinese] of [content/content.ts]: [/[\u4e00-\u9fff]/.test(text)]. *)
Definition content_isChinese (text : jsstring) : bool := existsb isChineseUnit text.

Lemma existsb_dropWhile {A} (f g : A -> bool) (l : list A) :
  (forall x, g x = true -> f x = false) ->
  existsb f (dropWhile g l) = existsb f l.
Proof.
  intros Hfg. induction l as [|x l IH]; [reflexivity|]. cbn [dropWhile existsb].
  destruct (g x) eqn:Hg; [|reflexivity]. rewrite IH, (Hfg x Hg). reflexivity.
Qed.

Lemma existsb_dropWhileEnd {A} (f g : A -> bool) (l : list A) :
  (forall x, g x = true -> f x = false) ->
  existsb f (dropWhileEnd g l) = existsb f l.
Proof.
  intros Hfg. induction l as [|x l IH]; [reflexivity|]. cbn [dropWhileEnd existsb].
  destruct (dropWhileEnd g l) as [|y kept].
  - rewrite <- IH. cbn [existsb]. destruct (g x) eqn:Hg; cbn [existsb].
    + rewrite (Hfg x Hg). reflexivity.
    + reflexivity.
  - rewrite <- IH. reflexivity.
Qed.

Lemma content_isChinese_stripped text :
  content_isChinese (stripped text) = content_isChinese text.
Proof.
  assert (forall x, isWhiteSpace x = true -> isChineseUnit x = false) as Hws.
  { intros x Hx. destruct (isChineseUnit x) eqn:E; [|reflexivity].
    rewrite (isChineseUnit_not_space x E) in Hx. discriminate. }
  assert (forall x, notChineseUnit x = true -> isChineseUnit x = false) as Hn.
  { intros x Hx. unfold notChineseUnit in Hx. apply negb_true_iff in Hx. exact Hx. }
  unfold content_isChinese, stripped, trim.
  rewrite (existsb_dropWhileEnd _ _ _ Hn), (existsb_dropWhile _ _ _ Hn).
  rewrite (existsb_dropWhileEnd _ _ _ Hws), (existsb_dropWhile _ _ _ Hws).
  reflexivity.
Qed.

Lemma stripped_empty_iff text :
  stripped text = [] <-> content_isChinese text = false.
Proof.
  rewrite <- content_isChinese_stripped.
  destruct (stripped_ends text) as [E|(a & b & Ha & Hca & _)].
  - rewrite E. split; reflexivity.
  - destruct (stripped text) as [|c rest]; [discriminate|].
    injection Ha as ->. unfold content_isChinese. cbn [existsb]. rewrite Hca.
    split; discriminate.
Qed.

Section HanText.

Variable normalize_NFC : jsstring -> jsstring.
Hypothesis NFC_empty : normalize_NFC [] = [].
Hypothesis NFC_head_han : forall s c,
  head s = Some c -> isChineseUnit c = true -> head (normalize_NFC s) = Some c.

Lemma normalizeText_empty_iff text :
  normalizeText normalize_NFC text = [] <-> content_isChinese text = false.
Proof using Type*.
  rewrite <- stripped_empty_iff. unfold normalizeText. fold (stripped text).
  destruct (stripped_ends text) as [E|(a & b & Ha & Hca & _)].
  - rewrite E, NFC_empty. split; reflexivity.
  - pose proof (NFC_head_han _ _ Ha Hca) as Hh. split.
    + intros E. rewrite E in Hh. discriminate.
    + intros E. rewrite E in Ha. discriminate.
Qed.

(** The content script asks for a lookup only of a text that passes its own
    [isChinese]; that test fails exactly when the text the service worker
    would look up, the normalized one, is empty.  For such a text a lookup
    finds no word, returns no segment and no pinyin, and leaves the
    vocabulary, the component map, the replica and the warnings untouched,
    saving or not. *)
Theorem lookup_of_text_without_han
    (cedict : CedictData) (unihan : UnihanData) (radicals : RadicalData) (hsk : HskData)
    (ch : Channel) (clock : nat -> Z) (naturalTranslation : option jsstring)
    (text : jsstring) (context sourceUrl : option jsstring) (skipSave : bool) (w : World) :
  (content_isChinese text = false <-> normalizeText normalize_NFC text = [])
  /\ (content_isChinese text = false ->
      lookupWord normalize_NFC cedict text = None
      /\ lookupWithSegmentation normalize_NFC cedict text = Some []
      /\ handleLookup normalize_NFC cedict unihan radicals hsk ch clock naturalTranslation
           text context sourceUrl skipSave w
         = Some ({| lr_originalText := []; lr_fullPinyin := [];
                    lr_naturalTranslation := naturalTranslation;
                    lr_segments := []; lr_seenWith := [] |}, w)).
Proof using Type*.
  split; [symmetry; apply normalizeText_empty_iff|].
  intros Hno. apply normalizeText_empty_iff in Hno.
  unfold handleLookup, performLookup, lookupWithSegmentation, lookupWord.
  rewrite Hno. cbn. auto.
Qed.

End HanText.

Lemma lookup_of_text_without_han_witness :
  alreadyNFC [] = []
  /\ content_isChinese (js "hello, world") = false
  /\ lookupWithSegmentation alreadyNFC simplifiedDict (js "hello, world") = Some [].
Proof.
  split; [reflexivity|].
  destruct (lookup_of_text_without_han alreadyNFC eq_refl (fun s c H _ => H)
              simplifiedDict ∅ ∅ ∅ quietChannel (fun _ => 0) None (js "hello, world")
              None None false emptyWorld) as [_ Hrun].
  split; [reflexivity|]. apply (Hrun eq_refl).
Defined.


(** ** The characters a lookup resolves *)

Lemma getCharacterInfo_character unihan radicals char :
  ci_character (getCharacterInfo unihan radicals char) = char.
Proof. unfold getCharacterInfo. destruct (unihan !! char); reflexivity. Qed.

Lemma segmentCharacters_characters unihan radicals word :
  map ci_character (segmentCharacters unihan radicals word)
  = map (fun c => [c]) (List.filter isChineseUnit word).
Proof.
  unfold segmentCharacters. rewrite map_map. apply map_ext.
  intros c. apply getCharacterInfo_character.
Qed.

Lemma filter_filter_same {A} (f : A -> bool) (l : list A) :
  List.filter f (List.filter f l) = List.filter f l.
Proof.
  induction l as [|x l IH]; [reflexivity|]. cbn [List.filter].
  destruct (f x) eqn:E; [|exact IH]. cbn [List.filter]. rewrite E, IH. reflexivity.
Qed.

Lemma filter_concat {A} (f : A -> bool) (ls : list (list A)) :
  List.filter f (concat ls) = concat (map (List.filter f) ls).
Proof.
  induction ls as [|l ls IH]; [reflexivity|]. cbn [concat map].
  rewrite List.filter_app, IH. reflexivity.
Qed.

(** A word that is not empty and made of Han characters. *)
Definition hanWord (word : jsstring) : Prop :=
  word <> [] /\ Forall (fun c => isChineseUnit c = true) word.

Lemma hitEntry_word cedict key ss sel :
  keyedBySimplified cedict -> senses cedict key = Some ss ->
  selectBestEntry ss = Some sel -> de_simplified (hitEntry sel) = key.
Proof.
  intros Hkey Hs Hsel.
  destruct (selectBestEntry_spec ss (senses_nonempty _ _ _ Hs))
    as (best & defs & Hsel' & _ & _ & _ & Hbest & _).
  rewrite Hsel in Hsel'. injection Hsel' as ->. cbn [hitEntry de_simplified].
  apply (Hkey _ _ _ (senses_lookup _ _ _ Hs) Hbest).
Qed.

Lemma Scan_hanWords cedict s r :
  keyedBySimplified cedict -> hanHeadwords cedict ->
  Scan cedict s r -> Forall (fun e => hanWord (de_simplified e)) r.
Proof.
  intros Hkey Hhan. induction 1 as [|s len ss sel r Hlen Hs Hsel Hlonger Hscan IH
                                    |c s r Hno Hc Hscan IH|c s r Hno Hc Hscan IH].
  - constructor.
  - constructor; [|exact IH].
    rewrite (hitEntry_word cedict _ ss sel Hkey Hs Hsel).
    split; [|exact (Hhan _ _ Hs)].
    intros E. apply (f_equal length) in E. rewrite length_take in E. cbn in E. lia.
  - constructor; [|exact IH]. cbn [unknownEntry de_simplified].
    split; [discriminate|]. constructor; [exact Hc | constructor].
  - exact IH.
Qed.

Section ResolvedCharacters.

Variable normalize_NFC : jsstring -> jsstring.
Hypothesis NFC_empty : normalize_NFC [] = [].
Hypothesis NFC_idempotent : forall s, normalize_NFC (normalize_NFC s) = normalize_NFC s.
Hypothesis NFC_head_han : forall s c,
  head s = Some c -> isChineseUnit c = true -> head (normalize_NFC s) = Some c.
Hypothesis NFC_last_han : forall s c,
  last s = Some c -> isChineseUnit c = true -> last (normalize_NFC s) = Some c.

Lemma segmentation_words cedict text :
  keyedBySimplified cedict -> hanHeadwords cedict ->
  exists entries,
    lookupWithSegmentation normalize_NFC cedict text = Some entries
    /\ concat (map de_simplified entries)
       = List.filter isChineseUnit (normalizeText normalize_NFC text)
    /\ Forall (fun e => hanWord (de_simplified e)) entries.
Proof using Type*.
  intros Hkey Hhan.
  destruct (lookupWithSegmentation_cases normalize_NFC NFC_empty NFC_idempotent
              NFC_head_han NFC_last_han cedict text)
    as [[E H] | [(ss & sel & Hne & Hs & Hsel & H) | (r & Hs & H & Hscan)]];
    rewrite H; eexists; (split; [reflexivity|]).
  - rewrite E. split; [reflexivity | constructor].
  - cbn [map concat]. rewrite app_nil_r.
    rewrite (hitEntry_word cedict _ ss sel Hkey Hs Hsel).
    split; [symmetry; apply filter_all_true; exact (Hhan _ _ Hs)|].
    constructor; [|constructor].
    rewrite (hitEntry_word cedict _ ss sel Hkey Hs Hsel).
    split; [exact Hne | exact (Hhan _ _ Hs)].
  - split; [apply (Scan_words cedict); assumption
           | apply (Scan_hanWords cedict _ _ Hkey Hhan Hscan)].
Qed.

(** The characters of a segment are the Han characters of its word, in
    order, whatever the Unihan data has of them.  With a dictionary that
    files every sense under its simplified form and has headwords of Han
    characters only, the characters of all the segments together are the Han
    characters of the normalized text, each once and in order, and every
    segment has as many characters as its word has units, at least one. *)
Theorem performLookup_resolves_han_characters
    (cedict : CedictData) (unihan : UnihanData) (radicals : RadicalData) (hsk : HskData)
    (text : jsstring) (seen : list (jsstring * list jsstring))
    (checkKnown : jsstring -> bool) :
  exists result,
    performLookup normalize_NFC cedict unihan radicals hsk text seen checkKnown
    = Some result
    /\ (forall seg, seg ∈ lr_segments result ->
          map ci_character (ws_characters seg)
          = map (fun c => [c]) (List.filter isChineseUnit (ws_word seg)))
    /\ (keyedBySimplified cedict -> hanHeadwords cedict ->
        concat (map (fun seg => map ci_character (ws_characters seg)) (lr_segments result))
        = map (fun c => [c])
            (List.filter isChineseUnit (normalizeText normalize_NFC text))
        /\ forall seg, seg ∈ lr_segments result ->
             ws_characters seg <> []
             /\ length (ws_characters seg) = length (ws_word seg)).
Proof using Type*.
  destruct (lookupWithSegmentation_total normalize_NFC cedict text) as [entries He].
  unfold performLookup. rewrite He. cbn [mbind option_bind].
  eexists. split; [reflexivity|]. cbn [lr_segments].
  assert (forall seg,
            seg ∈ map (toSegment unihan radicals hsk checkKnown) entries ->
            map ci_character (ws_characters seg)
            = map (fun c => [c]) (List.filter isChineseUnit (ws_word seg))) as Hseg.
  { intros seg Hin. apply list_elem_of_fmap in Hin. destruct Hin as (e & -> & _).
    apply segmentCharacters_characters. }
  split; [exact Hseg|]. intros Hkey Hhan.
  destruct (segmentation_words cedict text Hkey Hhan) as (entries' & He' & Hcat & Hwords).
  rewrite He in He'. injection He' as <-. split.
  - rewrite <- (filter_filter_same isChineseUnit (normalizeText normalize_NFC text)).
    rewrite <- Hcat, filter_concat, !map_map.
    clear. induction entries as [|e entries IH]; [reflexivity|].
    cbn [map concat]. rewrite map_app, <- IH.
    cbn [toSegment ws_characters]. rewrite segmentCharacters_characters. reflexivity.
  - intros seg Hin. apply list_elem_of_fmap in Hin. destruct Hin as (e & -> & Hin).
    rewrite Forall_forall in Hwords. destruct (Hwords e Hin) as [Hne Hall].
    cbn [toSegment ws_characters ws_word]. unfold segmentCharacters.
    rewrite (filter_all_true _ _ Hall), length_map.
    split; [|reflexivity]. destruct (de_simplified e); [contradiction | discriminate].
Qed.

End ResolvedCharacters.

Lemma performLookup_resolves_han_characters_witness :
  alreadyNFC [] = []
  /\ keyedBySimplified simplifiedDict
  /\ exists result,
       performLookup alreadyNFC simplifiedDict ∅ ∅ ∅ sampleText [] (fun _ => false)
       = Some result
       /\ concat (map (fun seg => map ci_character (ws_characters seg))
                    (lr_segments result))
          = map (fun c => [c]) (List.filter isChineseUnit (normalizeText alreadyNFC sampleText)).
Proof.
  destruct alreadyNFC_facts as (F1 & F2 & F3 & F4).
  destruct simplifiedDict_keyed as [Hkey Hhan].
  split; [exact F1|]. split; [exact Hkey|].
  destruct (performLookup_resolves_han_characters alreadyNFC F1 F2 F3 F4
              simplifiedDict ∅ ∅ ∅ sampleText [] (fun _ => false))
    as (result & Hrun & _ & Hall).
  exists result. split; [exact Hrun|]. apply (Hall Hkey Hhan).
Defined.


(** ** Ties and reference glosses in the ranking *)

(** The definitions of the senses, pooled in order. *)
Definition pooledDefinitions (entries : list CedictSense) : list jsstring :=
  concat (map ce_d entries).

(** [best] is the first of [entries] with the most non-reference
    definitions. *)
Definition firstWithMost (entries : list CedictSense) (best : CedictSense) : Prop :=
  exists pre post,
    entries = pre ++ best :: post
    /\ (forall e, e ∈ pre -> realCount e < realCount best)
    /\ (forall e, e ∈ post -> realCount e <= realCount best).

Lemma selectBest_first processed entries all best score all' best' score' :
  (exists pre post,
     processed = pre ++ best :: post /\ score = realCount best
     /\ (forall e, e ∈ pre -> realCount e < realCount best)
     /\ (forall e, e ∈ post -> realCount e <= realCount best)) ->
  fold_left selectBest_step entries (all, best, score) = (all', best', score') ->
  firstWithMost (processed ++ entries) best'.
Proof.
  revert processed all best score.
  induction entries as [|e entries IH]; intros processed all best score Hinv.
  - cbn [fold_left]. intros [= <- <- <-]. rewrite app_nil_r.
    destruct Hinv as (pre & post & Hp & _ & Hpre & Hpost). exists pre, post. auto.
  - cbn [fold_left]. unfold selectBest_step at 2. cbv zeta. fold (realCount e).
    replace (processed ++ e :: entries) with ((processed ++ [e]) ++ entries)
      by (rewrite <- app_assoc; reflexivity).
    destruct Hinv as (pre & post & -> & -> & Hpre & Hpost).
    destruct (Z.ltb_spec (realCount best) (realCount e)) as [Hlt|Hge]; apply IH.
    + exists (pre ++ best :: post), []. split; [reflexivity|]. split; [reflexivity|].
      split; [|intros x Hx; apply elem_of_nil in Hx; contradiction].
      intros x Hx. apply elem_of_app in Hx. destruct Hx as [Hx|Hx].
      * specialize (Hpre x Hx). lia.
      * apply elem_of_cons in Hx. destruct Hx as [->|Hx]; [lia|].
        specialize (Hpost x Hx). lia.
    + exists pre, (post ++ [e]).
      split; [rewrite <- app_assoc; reflexivity|]. split; [reflexivity|].
      split; [exact Hpre|]. intros x Hx. apply elem_of_app in Hx.
      destruct Hx as [Hx|Hx]; [apply Hpost, Hx|].
      apply list_elem_of_singleton in Hx. subst x. lia.
Qed.

Lemma insertByScore_stable v x l :
  List.filter (fun d => scoreDefinition d =? v) (insertByScore x l)
  = List.filter (fun d => scoreDefinition d =? v) (x :: l).
Proof.
  induction l as [|y l IH]; [reflexivity|]. cbn [insertByScore].
  destruct (Z.ltb_spec (scoreDefinition x) (scoreDefinition y)) as [Hlt|Hge];
    [|reflexivity].
  cbn [List.filter] in *. rewrite IH.
  destruct (Z.eqb_spec (scoreDefinition x) v) as [Hx|Hx];
    destruct (Z.eqb_spec (scoreDefinition y) v) as [Hy|Hy]; try reflexivity. lia.
Qed.

Lemma sortByScore_stable v l :
  List.filter (fun d => scoreDefinition d =? v) (sortByScore l)
  = List.filter (fun d => scoreDefinition d =? v) l.
Proof.
  induction l as [|x l IH]; [reflexivity|].
  change (sortByScore (x :: l)) with (insertByScore x (sortByScore l)).
  rewrite insertByScore_stable. cbn [List.filter]. rewrite IH. reflexivity.
Qed.

Lemma uniq_go_in seen l x : x ∈ l -> x ∉ seen -> x ∈ uniq_go seen l.
Proof. intros Hl Hs. apply elem_of_uniq_go. auto. Qed.

(** Ties go to what comes first.  The sense [selectBestEntry] returns is
    the first of the senses with the most non-reference definitions; the
    definitions it returns are the pooled ones, each kept at its first
    occurrence and sorted by descending score, definitions of one score
    staying in the order of their first occurrences. *)
Theorem selectBestEntry_ties_go_to_the_first (entries : list CedictSense) :
  entries <> [] ->
  exists best defs,
    selectBestEntry entries = Some (best, defs)
    /\ firstWithMost entries best
    /\ defs = sortByScore (uniq (pooledDefinitions entries))
    /\ forall v,
         List.filter (fun d => scoreDefinition d =? v) defs
         = List.filter (fun d => scoreDefinition d =? v) (uniq (pooledDefinitions entries)).
Proof.
  intros Hne. destruct entries as [|first rest]; [contradiction|].
  unfold selectBestEntry.
  destruct (fold_left selectBest_step (first :: rest) ([], first, 0))
    as [[all best] score] eqn:E.
  pose proof (selectBest_fold _ _ _ _ _ _ _ E) as (Hall & _).
  cbn [app] in Hall. fold (pooledDefinitions (first :: rest)) in Hall. subst all.
  assert (firstWithMost (first :: rest) best) as Hfirst.
  { cbn [fold_left] in E. unfold selectBest_step at 2 in E. cbv zeta in E.
    fold (realCount first) in E.
    assert (0 <= realCount first) as H0 by (unfold realCount; lia).
    change (first :: rest) with ([first] ++ rest).
    destruct (Z.ltb_spec 0 (realCount first)) as [Hpos|Hzero];
      eapply (selectBest_first [first]); try exact E;
      exists [], []; (split; [reflexivity|]); (split; [reflexivity || lia|]);
      split; intros x Hx; apply elem_of_nil in Hx; contradiction. }
  exists best. eexists. split; [reflexivity|]. split; [exact Hfirst|].
  assert ((if (0 <? length (sortByScore (uniq (pooledDefinitions (first :: rest)))))%nat
           then sortByScore (uniq (pooledDefinitions (first :: rest)))
           else pooledDefinitions (first :: rest))
          = sortByScore (uniq (pooledDefinitions (first :: rest)))) as ->.
  { destruct (sortByScore (uniq (pooledDefinitions (first :: rest)))) as [|d ds] eqn:Es;
      [|reflexivity].
    cbn [length Nat.ltb Nat.leb].
    destruct (pooledDefinitions (first :: rest)) as [|d p]; [reflexivity|]. exfalso.
    assert (d ∈ sortByScore (uniq (d :: p))) as Hd.
    { rewrite sortByScore_perm. apply uniq_go_in; [left | apply not_elem_of_nil]. }
    rewrite Es in Hd. apply elem_of_nil in Hd. exact Hd. }
  split; [reflexivity|]. intros v. apply sortByScore_stable.
Qed.

Lemma selectBestEntry_ties_go_to_the_first_witness :
  [sense_guo; sense_zhong; sense_ge] <> []
  /\ exists defs,
       selectBestEntry [sense_guo; sense_zhong; sense_ge] = Some (sense_zhong, defs)
       /\ firstWithMost [sense_guo; sense_zhong; sense_ge] sense_zhong.
Proof.
  assert ([sense_guo; sense_zhong; sense_ge] <> []) as Hne by discriminate.
  split; [exact Hne|].
  destruct (selectBestEntry_ties_go_to_the_first _ Hne) as (best & defs & Hsel & Hfirst & _).
  assert (best = sense_zhong) as ->.
  { vm_compute in Hsel. injection Hsel as <- _. reflexivity. }
  exists defs. split; [exact Hsel | exact Hfirst].
Defined.


Ltac js_literals :=
  repeat match goal with
  | |- context [js ?s] =>
      let v := eval vm_compute in (js s) in change (js s) with v
  | H : context [js ?s] |- _ =>
      let v := eval vm_compute in (js s) in change (js s) with v in H
  end.

Lemma variant_not_boosted lower :
  testPrefixes [js "variant of"; js "see "; js "old variant"; js "archaic variant";
                js "same as"] lower = true ->
  testPrefixThenLower (js "to ") lower = false
  /\ testPrefixThenLower (js "a ") lower = false
  /\ testPrefixThenLower (js "the ") lower = false.
Proof.
  intros Hvar. apply testPrefixes_spec in Hvar. destruct Hvar as (p & Hp & [rest ->]).
  repeat split;
    (destruct (testPrefixThenLower _ _) eqn:E; [|reflexivity]);
    apply testPrefixThenLower_spec in E; destruct E as (c & rest' & E & _); exfalso;
    rewrite !elem_of_cons in Hp;
    (destruct Hp as [->|[->|[->|[->|[->|Hp]]]]];
     [..|apply elem_of_nil in Hp; contradiction]);
    js_literals; cbn [app] in E; discriminate.
Qed.

(** A reference gloss (one [isVariantDefinition] accepts) scores 20 at the
    most: it gets the penalty of 80 and none of the three boosts.  So in the
    definitions [selectBestEntry] returns, nothing that scores above 20
    comes after a reference gloss. *)
Theorem reference_glosses_rank_last (def : jsstring) (entries : list CedictSense)
    (best : CedictSense) (before after : list jsstring) :
  isVariantDefinition def = true ->
  selectBestEntry entries = Some (best, before ++ def :: after) ->
  scoreDefinition def <= 20
  /\ forall d, d ∈ after -> scoreDefinition d <= 20.
Proof.
  intros Hvar Hsel.
  assert (scoreDefinition def <= 20) as Hscore.
  { destruct (variant_not_boosted (toLowerCase def) Hvar) as (Hto & Ha & Hthe).
    unfold scoreDefinition. cbv zeta. rewrite Hvar, Hto, Ha, Hthe.
    rewrite !adjust_b2z.
    repeat match goal with |- context [Z.b2z ?b] =>
      lazymatch b with
      | true => fail
      | false => fail
      | _ => let B := fresh "b" in generalize b; intros B; destruct B
      end end; cbn [Z.b2z]; lia. }
  split; [exact Hscore|]. intros d Hd.
  assert (entries <> []) as Hne by (intros ->; discriminate).
  destruct (selectBestEntry_spec entries Hne) as (b & defs & Hsel' & _ & _ & Hsorted & _).
  rewrite Hsel in Hsel'. injection Hsel' as <- <-.
  clear - Hsorted Hd Hscore.
  induction before as [|x before IH].
  - cbn [app] in Hsorted. apply StronglySorted_inv in Hsorted.
    destruct Hsorted as [_ Hall]. rewrite List.Forall_forall in Hall.
    specialize (Hall d (proj1 (list_elem_of_In _ _) Hd)). unfold byScoreDesc in Hall. lia.
  - cbn [app] in Hsorted. apply StronglySorted_inv in Hsorted. apply IH, Hsorted.
Qed.

Lemma reference_glosses_rank_last_witness :
  isVariantDefinition (js "variant of " ++ [0x500B%N]) = true
  /\ selectBestEntry [sense_ge]
     = Some (sense_ge, [js "a measure word"] ++ (js "variant of " ++ [0x500B%N]) :: [])
  /\ scoreDefinition (js "variant of " ++ [0x500B%N]) <= 20.
Proof.
  assert (isVariantDefinition (js "variant of " ++ [0x500B%N]) = true) as Hvar
    by (vm_compute; reflexivity).
  assert (selectBestEntry [sense_ge]
          = Some (sense_ge, [js "a measure word"] ++ (js "variant of " ++ [0x500B%N]) :: []))
    as Hsel by (vm_compute; reflexivity).
  split; [exact Hvar|]. split; [exact Hsel|].
  destruct (reference_glosses_rank_last _ _ _ _ _ Hvar Hsel) as [Hscore _].
  exact Hscore.
Defined.


(** ** [shared/pinyin.ts]: the tone classes of the popup *)

(** [/[..]/.test(s)] for a class of code units. *)
Definition testClass (class : list N) (s : jsstring) : bool :=
  existsb (fun c => bool_decide (c ∈ class)) s.

Definition tone1Marks : list N := [0x101; 0x113; 0x12B; 0x14D; 0x16B; 0x1D6]%N.
Definition tone2Marks : list N := [0xE1; 0xE9; 0xED; 0xF3; 0xFA; 0x1D8]%N.
Definition tone3Marks : list N := [0x1CE; 0x11B; 0x1D0; 0x1D2; 0x1D4; 0x1DA]%N.
Definition tone4Marks : list N := [0xE0; 0xE8; 0xEC; 0xF2; 0xF9; 0x1DC]%N.

Definition detectToneFromMarks (syllable : jsstring) : Z :=
  if testClass tone1Marks syllable then 1
  else if testClass tone2Marks syllable then 2
  else if testClass tone3Marks syllable then 3
  else if testClass tone4Marks syllable then 4
  else 5.

(** What [.] of a regular expression does not match. *)
Definition isLineTerminator (c : N) : bool :=
  (c =? 0x0A)%N || (c =? 0x0D)%N || (c =? 0x2028)%N || (c =? 0x2029)%N.

(** [syllable.match(/^(.+?)(\d)$/)]: the digit of the second group. *)
Definition matchTrailingDigit (syllable : jsstring) : option N :=
  match last syllable with
  | Some d =>
      if isDigit d && (1 <? length syllable)%nat
         && forallb (fun c => negb (isLineTerminator c)) syllable
      then Some d else None
  | None => None
  end.

(** The template [<span class="mr-tone-${tone}">${body}</span>]. *)
Definition toneSpan (tone body : jsstring) : jsstring :=
  js "<span class=" ++ [0x22%N] ++ js "mr-tone-" ++ tone ++ [0x22%N] ++ js ">"
  ++ body ++ js "</span>".

(** The callback of [syllables.map] in [pinyinToHtml]. *)
Definition spanSyllable (syllable : jsstring) : jsstring :=
  match matchTrailingDigit syllable with
  | Some tone => toneSpan [tone] (numericToToneMark syllable)
  | None => toneSpan (numberToJSON (detectToneFromMarks syllable)) syllable
  end.

Definition pinyinToHtml (pinyin : jsstring) : jsstring :=
  match pinyin with
  | [] => []
  | _ :: _ => join [0x20%N] (map spanSyllable (split_ws pinyin))
  end.

(** Whether the letter that gets the mark, the first that is [v] up to case,
    is in upper case. *)
Definition markedUpper (v : N) (letters : jsstring) : bool :=
  match List.find (fun c => (lowerUnit c =? v)%N) letters with
  | Some c => (c =? upperUnit c)%N
  | None => false
  end.

(** The tone class [pinyinToHtml] gives the syllable [numericToToneMark]
    makes of [letters] and the digit of [tone]. *)
Definition shownTone (letters : jsstring) (tone : Z) : Z :=
  match chosenVowel letters with
  | Some v => if markedUpper v letters then 5 else tone
  | None => 5
  end.

(** A test on a code unit that holds, as facts of arithmetic. *)
Ltac unit_facts H :=
  unfold in_range in H;
  rewrite ?orb_true_iff, ?andb_true_iff, ?negb_true_iff, ?N.leb_le, ?N.ltb_lt,
    ?N.eqb_eq, ?N.eqb_neq in H.

(** A test that fails, given the facts at hand. *)
Ltac unit_fails :=
  let H := fresh in
  apply not_true_is_false; intros H; unit_facts H; lia.

Lemma testClass_app class s t :
  testClass class (s ++ t) = testClass class s || testClass class t.
Proof. apply existsb_app. Qed.

Lemma pinyinLetter_no_mark c :
  isPinyinLetter c = true ->
  bool_decide (c ∈ tone1Marks) = false /\ bool_decide (c ∈ tone2Marks) = false
  /\ bool_decide (c ∈ tone3Marks) = false /\ bool_decide (c ∈ tone4Marks) = false
  /\ isWhiteSpace c = false /\ isDigit c = false /\ isLineTerminator c = false.
Proof.
  intros Hc. unfold isPinyinLetter in Hc. unit_facts Hc.
  unfold tone1Marks, tone2Marks, tone3Marks, tone4Marks.
  repeat split;
    try (apply bool_decide_eq_false_2; rewrite !elem_of_cons, elem_of_nil; lia);
    unfold isWhiteSpace, isDigit, isLineTerminator; unit_fails.
Qed.

Lemma pinyinLetters_no_mark letters :
  Forall (fun c => isPinyinLetter c = true) letters ->
  testClass tone1Marks letters = false /\ testClass tone2Marks letters = false
  /\ testClass tone3Marks letters = false /\ testClass tone4Marks letters = false.
Proof.
  induction 1 as [|c l Hc _ IH]; [repeat split|].
  destruct (pinyinLetter_no_mark c Hc) as (H1 & H2 & H3 & H4 & _).
  destruct IH as (I1 & I2 & I3 & I4). unfold testClass in *. cbn [existsb].
  rewrite H1, H2, H3, H4, I1, I2, I3, I4. repeat split.
Qed.

Lemma placeMark_shape v mark letters :
  v ∈ map lowerUnit letters ->
  exists pre post,
    placeMark v mark letters
    = pre ++ (if markedUpper v letters then toUpperCase mark else mark) ++ post
    /\ (forall c, c ∈ pre ++ post -> c ∈ letters).
Proof.
  induction letters as [|c rest IH]; cbn [map]; intros Hin.
  - apply elem_of_nil in Hin. contradiction.
  - unfold markedUpper. cbn [placeMark List.find].
    destruct (N.eqb_spec (lowerUnit c) v) as [Heq|Hne].
    + exists [], rest. split; [reflexivity|]. intros x Hx. right. exact Hx.
    + apply elem_of_cons in Hin. destruct Hin as [Hin|Hin]; [congruence|].
      destruct (IH Hin) as (pre & post & Hp & Hsub). exists (c :: pre), post.
      unfold markedUpper in Hp. rewrite Hp. split; [reflexivity|].
      intros x Hx. cbn [app] in Hx. apply elem_of_cons in Hx.
      destruct Hx as [->|Hx]; [left | right; apply Hsub, Hx].
Qed.

Lemma detectToneFromMarks_frame pre m post :
  Forall (fun c => isPinyinLetter c = true) (pre ++ post) ->
  detectToneFromMarks (pre ++ m ++ post) = detectToneFromMarks m.
Proof.
  intros Hall. apply Forall_app in Hall. destruct Hall as [Hpre Hpost].
  destruct (pinyinLetters_no_mark pre Hpre) as (A1 & A2 & A3 & A4).
  destruct (pinyinLetters_no_mark post Hpost) as (B1 & B2 & B3 & B4).
  unfold detectToneFromMarks. rewrite !testClass_app.
  rewrite A1, A2, A3, A4, B1, B2, B3, B4, !orb_false_r. reflexivity.
Qed.

(** A code unit that is no white space, no digit and no line terminator. *)
Definition plainUnit (c : N) : bool :=
  negb (isWhiteSpace c) && negb (isDigit c) && negb (isLineTerminator c).

Lemma mark_facts v tone (upper : bool) :
  v ∈ toneVowels -> 1 <= tone <= 5 ->
  let m := if upper then toUpperCase (toneForm v tone) else toneForm v tone in
  m <> [] /\ forallb plainUnit m = true
  /\ detectToneFromMarks m = if upper then 5 else tone.
Proof.
  intros Hv Ht. unfold toneVowels in Hv. rewrite !elem_of_cons, elem_of_nil in Hv.
  assert (tone = 1 \/ tone = 2 \/ tone = 3 \/ tone = 4 \/ tone = 5) as Hc by lia.
  destruct Hc as [->|[->|[->|[->| ->]]]];
    destruct Hv as [->|[->|[->|[->|[->|[->|[->|[]]]]]]]];
    destruct upper; vm_compute; (split; [discriminate | split; reflexivity]).
Qed.

Lemma plainUnit_letter c : isPinyinLetter c = true -> plainUnit c = true.
Proof.
  intros Hc. destruct (pinyinLetter_no_mark c Hc) as (_ & _ & _ & _ & H1 & H2 & H3).
  unfold plainUnit. rewrite H1, H2, H3. reflexivity.
Qed.

Lemma plainUnit_facts c :
  plainUnit c = true ->
  isWhiteSpace c = false /\ isDigit c = false /\ isLineTerminator c = false.
Proof. unfold plainUnit. rewrite !andb_true_iff, !negb_true_iff. tauto. Qed.

Lemma pinyinToHtml_single s :
  s <> [] -> Forall (fun c => isWhiteSpace c = false) s ->
  pinyinToHtml s = spanSyllable s.
Proof.
  intros Hne Hs. unfold pinyinToHtml. rewrite split_ws_plain by exact Hs.
  destruct s; [contradiction | reflexivity].
Qed.

Lemma plain_syllable s :
  s <> [] -> forallb plainUnit s = true ->
  pinyinToHtml s = toneSpan (numberToJSON (detectToneFromMarks s)) s.
Proof.
  intros Hne Hplain. rewrite forallb_forall in Hplain.
  assert (forall c, c ∈ s -> isWhiteSpace c = false /\ isDigit c = false) as Hc.
  { intros c Hin. apply list_elem_of_In, Hplain, plainUnit_facts in Hin. tauto. }
  rewrite pinyinToHtml_single;
    [|exact Hne | apply Forall_forall; intros c Hin; apply (Hc c Hin)].
  unfold spanSyllable, matchTrailingDigit.
  destruct (last s) as [d|] eqn:El; [|reflexivity].
  destruct (Hc d (last_Some_elem_of _ _ El)) as [_ ->]. reflexivity.
Qed.

Lemma raw_syllable letters d :
  letters <> [] -> forallb plainUnit letters = true -> isDigit d = true ->
  pinyinToHtml (letters ++ [d]) = toneSpan [d] (numericToToneMark (letters ++ [d])).
Proof.
  intros Hne Hplain Hd. rewrite forallb_forall in Hplain.
  assert (isWhiteSpace d = false /\ isLineTerminator d = false) as [Hdw Hdl].
  { revert Hd. unfold isDigit, isWhiteSpace, isLineTerminator. intros Hd.
    unit_facts Hd. split; unit_fails. }
  rewrite pinyinToHtml_single.
  - unfold spanSyllable, matchTrailingDigit. rewrite last_snoc, Hd.
    replace (1 <? length (letters ++ [d]))%nat with true
      by (symmetry; apply Nat.ltb_lt; rewrite length_app;
          destruct letters; [contradiction | cbn [length]; lia]).
    replace (forallb (fun c => negb (isLineTerminator c)) (letters ++ [d])) with true;
      [reflexivity|].
    symmetry. apply forallb_forall. intros c Hc. apply in_app_or in Hc.
    destruct Hc as [Hc|[<-|[]]]; apply negb_true_iff;
      [apply (plainUnit_facts c (Hplain c Hc)) | exact Hdl].
  - intros E. apply app_eq_nil in E. destruct E as [_ E]. discriminate.
  - apply Forall_app. split; [|constructor; [exact Hdw | constructor]].
    apply Forall_forall. intros c Hc.
    apply (plainUnit_facts c (Hplain c (proj1 (list_elem_of_In _ _) Hc))).
Qed.

(** The colour of a syllable follows its tone.  A syllable of letters with
    the digit of a tone 1..5 gets the class of that digit.  The syllable
    [numericToToneMark] makes of it, shown in the popup, gets the class of
    the same tone when the letter under the mark is in lower case, and the
    class of tone 5 when that letter is in upper case (the classes list the
    marked vowels in lower case only) or when no vowel took a mark. *)
Theorem pinyinToHtml_class_follows_tone (letters : jsstring) (tone : Z) :
  letters <> [] -> Forall (fun c => isPinyinLetter c = true) letters ->
  1 <= tone <= 5 ->
  let raw := letters ++ [toneDigit tone] in
  let marked := numericToToneMark raw in
  pinyinToHtml raw = toneSpan [toneDigit tone] marked
  /\ pinyinToHtml marked = toneSpan (numberToJSON (shownTone letters tone)) marked
  /\ detectToneFromMarks marked = shownTone letters tone.
Proof.
  intros Hne Hall Ht raw marked.
  assert (isDigit (toneDigit tone) = true) as Hd.
  { assert (tone = 1 \/ tone = 2 \/ tone = 3 \/ tone = 4 \/ tone = 5) as Hc by lia.
    destruct Hc as [->|[->|[->|[->| ->]]]]; reflexivity. }
  assert (forallb plainUnit letters = true) as Hplain.
  { apply forallb_forall. intros c Hc. apply plainUnit_letter.
    rewrite Forall_forall in Hall. apply Hall, list_elem_of_In, Hc. }
  split; [apply raw_syllable; assumption|].
  assert (marked = match chosenVowel letters with
                   | Some v => placeMark v (toneForm v tone) letters
                   | None => letters
                   end) as Hmarked.
  { subst marked raw. rewrite numericToToneMark_plain.
    - apply convertSyllable_tone; assumption.
    - apply Forall_app. split.
      + eapply Forall_impl; [exact Hall|]. intros c Hc. apply isPinyinLetter_not_space, Hc.
      + constructor; [apply isDigit_not_space, Hd | constructor]. }
  assert (marked <> [] /\ forallb plainUnit marked = true
          /\ detectToneFromMarks marked = shownTone letters tone) as (Hm1 & Hm2 & Hm3).
  { rewrite Hmarked. unfold shownTone.
    destruct (chosenVowel letters) as [v|] eqn:Ev.
    - destruct (chosenVowel_facts _ _ Ev) as [Hv Hin].
      rewrite (toLowerCase_pinyin letters Hall) in Hin.
      destruct (placeMark_shape v (toneForm v tone) letters Hin) as (pre & post & -> & Hsub).
      destruct (mark_facts v tone (markedUpper v letters) Hv Ht) as (Hmne & Hmp & Hmd).
      cbv zeta in Hmne, Hmp, Hmd.
      set (m := if markedUpper v letters then toUpperCase (toneForm v tone)
                else toneForm v tone) in *.
      assert (Forall (fun c => isPinyinLetter c = true) (pre ++ post)) as Hpp.
      { apply Forall_forall. intros c Hc. rewrite Forall_forall in Hall.
        apply Hall, Hsub, Hc. }
      split; [|split].
      + intros E. apply app_eq_nil in E. destruct E as [_ E].
        apply app_eq_nil in E. destruct E as [E _]. contradiction.
      + apply Forall_app in Hpp. destruct Hpp as [Hpre Hpost].
        rewrite !forallb_app, Hmp.
        assert (forall l, Forall (fun c => isPinyinLetter c = true) l ->
                          forallb plainUnit l = true) as Hl.
        { intros l Hl. apply forallb_forall. intros c Hc. apply plainUnit_letter.
          rewrite Forall_forall in Hl. apply Hl, list_elem_of_In, Hc. }
        rewrite (Hl pre Hpre), (Hl post Hpost). reflexivity.
      + rewrite detectToneFromMarks_frame by exact Hpp. rewrite Hmd.
        destruct (markedUpper v letters); reflexivity.
    - split; [exact Hne|]. split; [exact Hplain|].
      destruct (pinyinLetters_no_mark letters Hall) as (A1 & A2 & A3 & A4).
      unfold detectToneFromMarks. rewrite A1, A2, A3, A4. reflexivity. }
  split; [|exact Hm3]. rewrite <- Hm3. apply plain_syllable; assumption.
Qed.

Lemma pinyinToHtml_class_follows_tone_witness :
  js "An" <> []
  /\ Forall (fun c => isPinyinLetter c = true) (js "An")
  /\ pinyinToHtml (js "An1") = toneSpan (js "1") [0x100%N; 0x6E%N]
  /\ pinyinToHtml [0x100%N; 0x6E%N] = toneSpan (js "5") [0x100%N; 0x6E%N].
Proof.
  assert (js "An" <> []) as Hne by discriminate.
  assert (Forall (fun c => isPinyinLetter c = true) (js "An")) as Hall
    by (repeat constructor).
  split; [exact Hne|]. split; [exact Hall|].
  destruct (pinyinToHtml_class_follows_tone (js "An") 1 Hne Hall ltac:(lia))
    as (Hraw & Hmarked & _).
  split; [exact Hraw | exact Hmarked].
Defined.


(** ** The spellings of ü *)

(** [pat] starts somewhere in [s]. *)
Fixpoint hasSub (pat s : jsstring) : bool :=
  startsWith pat s
  || match s with
     | [] => false
     | _ :: s' => hasSub pat s'
     end.

Lemma hasSub_occurs pat s : hasSub pat s = true <-> occurs false pat s.
Proof.
  unfold occurs, spells. induction s as [|c s IH]; cbn [hasSub].
  - rewrite orb_false_r, startsWith_spec. unfold hasPrefix. split.
    + intros [rest H]. exists [], pat, rest. auto.
    + intros (pre & mid & post & H & <-). destruct pre; [|discriminate].
      exists post. exact H.
  - rewrite orb_true_iff, IH, startsWith_spec. unfold hasPrefix. split.
    + intros [[rest H]|(pre & mid & post & H & <-)].
      * exists [], pat, rest. auto.
      * exists (c :: pre), pat, post. rewrite H. auto.
    + intros (pre & mid & post & H & <-). destruct pre as [|x pre].
      * left. exists post. exact H.
      * right. injection H as _ H. exists pre, pat, post. auto.
Qed.

Lemma hasSub_tail pat c s : hasSub pat (c :: s) = false -> hasSub pat s = false.
Proof. cbn [hasSub]. intros H. apply orb_false_iff in H. apply H. Qed.

Lemma hasSub_drop pat n s : hasSub pat s = false -> hasSub pat (drop n s) = false.
Proof.
  revert s. induction n as [|n IH]; intros s H; [rewrite drop_0; exact H|].
  destruct s as [|c s]; [exact H|]. cbn [drop]. apply IH, (hasSub_tail pat c s H).
Qed.

Lemma replaceAll_fuel_absent fuel pat by_ s :
  hasSub pat s = false -> replaceAll_fuel fuel pat by_ s = s.
Proof.
  revert s. induction fuel as [|fuel IH]; intros s H; [reflexivity|].
  destruct s as [|c s]; [reflexivity|]. cbn [replaceAll_fuel].
  pose proof H as H'. cbn [hasSub] in H'. apply orb_false_iff in H'.
  destruct H' as [-> Hs]. rewrite (IH s Hs). reflexivity.
Qed.

Lemma replaceAll_fuel_units fuel pat d s :
  Forall (fun c => c ∈ s \/ c = d) (replaceAll_fuel fuel pat [d] s).
Proof.
  revert s. induction fuel as [|fuel IH]; intros s; cbn [replaceAll_fuel].
  - apply Forall_forall. auto.
  - destruct s as [|c s]; [constructor|].
    destruct (startsWith pat (c :: s)).
    + cbn [app]. constructor; [auto|].
      eapply Forall_impl; [apply IH|]. intros x [Hx|Hx]; [left | auto].
      apply list_elem_of_In. apply list_elem_of_In in Hx.
      rewrite <- (take_drop (length pat) (c :: s)). apply in_or_app. auto.
    + constructor; [left; left|].
      eapply Forall_impl; [apply IH|]. intros x [Hx|Hx]; [left; right; exact Hx | auto].
Qed.

Lemma replaceAll_fuel_head fuel pat d s :
  head (replaceAll_fuel fuel pat [d] s) = head s
  \/ head (replaceAll_fuel fuel pat [d] s) = Some d.
Proof.
  destruct fuel as [|fuel]; [auto|]. cbn [replaceAll_fuel].
  destruct s as [|c s]; [auto|]. destruct (startsWith pat (c :: s)); auto.
Qed.

Lemma replaceAll_fuel_length fuel pat d s :
  pat <> [] -> (length (replaceAll_fuel fuel pat [d] s) <= length s)%nat.
Proof.
  intros Hpat. revert s. induction fuel as [|fuel IH]; intros s; [reflexivity|].
  cbn [replaceAll_fuel]. destruct s as [|c s]; [reflexivity|].
  destruct (startsWith pat (c :: s)) eqn:E.
  - cbn [app length]. specialize (IH (drop (length pat) (c :: s))).
    rewrite length_drop in IH.
    destruct pat as [|p pat']; [contradiction|]. cbn [length] in *. lia.
  - cbn [length]. specialize (IH s). lia.
Qed.

(** No [a] directly followed by [b] comes to be where there was none, and
    none is left of the pattern itself. *)
Lemma replaceAll_fuel_no_pair fuel pat d a b s :
  d <> a -> d <> b -> pat <> [] -> (length s <= fuel)%nat ->
  hasSub [a; b] s = false \/ pat = [a; b] ->
  hasSub [a; b] (replaceAll_fuel fuel pat [d] s) = false.
Proof.
  intros Hda Hdb Hpat. revert s. induction fuel as [|fuel IH]; intros s Hlen Hs.
  - destruct s; [reflexivity | cbn in Hlen; lia].
  - destruct s as [|c s]; [reflexivity|]. cbn [replaceAll_fuel].
    cbn [length] in Hlen.
    assert (forall k, hasSub [a; b] (c :: s) = false \/ pat = [a; b] ->
                      hasSub [a; b] (drop k (c :: s)) = false \/ pat = [a; b]) as Hsuf.
    { intros k [H|H]; [left; apply hasSub_drop, H | auto]. }
    destruct (startsWith pat (c :: s)) eqn:E.
    + cbn [app hasSub startsWith].
      rewrite (proj2 (N.eqb_neq a d)) by congruence. cbn [andb orb].
      apply IH; [|apply Hsuf, Hs].
      rewrite length_drop. cbn [length]. destruct pat; [contradiction|].
      cbn [length]. lia.
    + assert (hasSub [a; b] (replaceAll_fuel fuel pat [d] s) = false) as Hrest.
      { apply IH; [lia|]. apply (Hsuf 1%nat Hs). }
      cbn [hasSub]. rewrite Hrest, orb_false_r.
      assert (startsWith [a; b] (c :: s) = false) as Hfront.
      { destruct Hs as [Hs| ->]; [|exact E].
        cbn [hasSub] in Hs. apply orb_false_iff in Hs. apply Hs. }
      cbn [startsWith] in Hfront |- *.
      destruct (a =? c)%N; [|reflexivity]. cbn [andb] in Hfront |- *.
      destruct (replaceAll_fuel_head fuel pat d s) as [Hh|Hh].
      * destruct (replaceAll_fuel fuel pat [d] s) as [|x xs], s as [|y ys];
          try reflexivity; try discriminate.
        cbn [head] in Hh. injection Hh as ->. exact Hfront.
      * destruct (replaceAll_fuel fuel pat [d] s) as [|x xs]; [reflexivity|].
        cbn [head] in Hh. injection Hh as ->.
        rewrite (proj2 (N.eqb_neq b d)) by congruence. reflexivity.
Qed.

Lemma replaceAll_fuel_unit_gone fuel c d s :
  d <> c -> (length s <= fuel)%nat ->
  Forall (fun x => x <> c) (replaceAll_fuel fuel [c] [d] s).
Proof.
  intros Hdc. revert s. induction fuel as [|fuel IH]; intros s Hlen.
  - destruct s; [constructor | cbn in Hlen; lia].
  - destruct s as [|x s]; [constructor|]. cbn [replaceAll_fuel startsWith length drop].
    cbn [length] in Hlen. rewrite andb_true_r.
    destruct (N.eqb_spec c x) as [->|Hne].
    + cbn [app]. rewrite drop_0. constructor; [exact Hdc | apply IH; lia].
    + constructor; [congruence | apply IH; lia].
Qed.

Lemma replaceAll_keeps_units_out pat d c s :
  d <> c -> Forall (fun x => x <> c) s -> Forall (fun x => x <> c) (replaceAll pat [d] s).
Proof.
  intros Hdc Hs. unfold replaceAll.
  eapply Forall_impl; [apply replaceAll_fuel_units|].
  intros x [Hx| ->]; [|exact Hdc]. rewrite Forall_forall in Hs. apply Hs, Hx.
Qed.

Lemma hasSub_unit c s : Forall (fun x => x <> c) s -> hasSub [c] s = false.
Proof.
  induction 1 as [|x s Hx _ IH]; [reflexivity|]. cbn [hasSub startsWith].
  rewrite IH, (proj2 (N.eqb_neq c x)) by congruence. reflexivity.
Qed.

Lemma hasSub_without_second a b s : Forall (fun x => x <> b) s -> hasSub [a; b] s = false.
Proof.
  induction 1 as [|x s Hx Hs IH]; [reflexivity|]. cbn [hasSub startsWith].
  rewrite IH, orb_false_r. destruct s as [|y s]; [apply andb_false_r|].
  apply Forall_inv in Hs. rewrite (proj2 (N.eqb_neq b y)) by congruence.
  apply andb_false_r.
Qed.

(** After [normalizePinyin] the letter ü has one spelling: no "v", no "V",
    no "u:" and no "U:" is left, so normalizing again changes nothing; the
    text never gets longer, and a text without colon, "v" and "V" is
    returned as it is. *)
Theorem normalizePinyin_one_spelling (pinyin : jsstring) :
  let n := normalizePinyin pinyin in
  Forall (fun c => c <> 0x76%N /\ c <> 0x56%N) n
  /\ ~ occurs false (js "u:") n
  /\ ~ occurs false (js "U:") n
  /\ normalizePinyin n = n
  /\ (length n <= length pinyin)%nat
  /\ (Forall (fun c => c <> 0x3A%N /\ c <> 0x76%N /\ c <> 0x56%N) pinyin -> n = pinyin).
Proof.
  intros n.
  set (r1 := replaceAll [0x75; 0x3A]%N [0xFC%N] pinyin).
  set (r2 := replaceAll [0x55; 0x3A]%N [0xDC%N] r1).
  set (r3 := replaceAll [0x76%N] [0xFC%N] r2).
  assert (n = replaceAll [0x56%N] [0xDC%N] r3) as Hn by reflexivity.
  assert (forall pat d s a b, d <> a -> d <> b -> pat <> [] ->
            hasSub [a; b] s = false \/ pat = [a; b] ->
            hasSub [a; b] (replaceAll pat [d] s) = false) as Hpair.
  { intros pat d s a b Hda Hdb Hpat Hs. unfold replaceAll.
    apply replaceAll_fuel_no_pair; auto. }
  assert (hasSub [0x75; 0x3A]%N r1 = false) as Hu1 by (apply Hpair; auto; discriminate).
  assert (hasSub [0x75; 0x3A]%N r2 = false) as Hu2 by (apply Hpair; auto; discriminate).
  assert (hasSub [0x55; 0x3A]%N r2 = false) as HU2 by (apply Hpair; auto; discriminate).
  assert (hasSub [0x75; 0x3A]%N r3 = false) as Hu3 by (apply Hpair; auto; discriminate).
  assert (hasSub [0x55; 0x3A]%N r3 = false) as HU3 by (apply Hpair; auto; discriminate).
  assert (hasSub [0x75; 0x3A]%N n = false) as Hu4
    by (rewrite Hn; apply Hpair; auto; discriminate).
  assert (hasSub [0x55; 0x3A]%N n = false) as HU4
    by (rewrite Hn; apply Hpair; auto; discriminate).
  assert (Forall (fun x => x <> 0x76%N) r3) as Hv3
    by (apply replaceAll_fuel_unit_gone; [discriminate | reflexivity]).
  assert (Forall (fun x => x <> 0x76%N) n) as Hv4
    by (rewrite Hn; apply replaceAll_keeps_units_out; [discriminate | exact Hv3]).
  assert (Forall (fun x => x <> 0x56%N) n) as HV4
    by (rewrite Hn; apply replaceAll_fuel_unit_gone; [discriminate | reflexivity]).
  split; [|split; [|split; [|split; [|split]]]].
  - rewrite Forall_forall in *. intros c Hc. split; [apply Hv4, Hc | apply HV4, Hc].
  - rewrite <- hasSub_occurs. change (js "u:") with [0x75; 0x3A]%N. rewrite Hu4. discriminate.
  - rewrite <- hasSub_occurs. change (js "U:") with [0x55; 0x3A]%N. rewrite HU4. discriminate.
  - unfold normalizePinyin, replaceAll.
    rewrite (replaceAll_fuel_absent _ [0x75; 0x3A]%N) by exact Hu4.
    rewrite (replaceAll_fuel_absent _ [0x55; 0x3A]%N) by exact HU4.
    rewrite (replaceAll_fuel_absent _ [0x76%N]) by (apply hasSub_unit, Hv4).
    apply replaceAll_fuel_absent, hasSub_unit, HV4.
  - pose proof (replaceAll_fuel_length (length pinyin) [0x75; 0x3A]%N 0xFC%N pinyin) as L1.
    pose proof (replaceAll_fuel_length (length r1) [0x55; 0x3A]%N 0xDC%N r1) as L2.
    pose proof (replaceAll_fuel_length (length r2) [0x76%N] 0xFC%N r2) as L3.
    pose proof (replaceAll_fuel_length (length r3) [0x56%N] 0xDC%N r3) as L4.
    rewrite Hn. unfold replaceAll in *. fold r1 in L1. fold r2 in L2. fold r3 in L3.
    specialize (L1 ltac:(discriminate)). specialize (L2 ltac:(discriminate)).
    specialize (L3 ltac:(discriminate)). specialize (L4 ltac:(discriminate)).
    unfold replaceAll in r1, r2, r3. fold r1 r2 r3 in L1, L2, L3, L4 |- *. lia.
  - intros Hp.
    assert (Forall (fun x => x <> 0x3A%N) pinyin /\ Forall (fun x => x <> 0x76%N) pinyin
            /\ Forall (fun x => x <> 0x56%N) pinyin) as (Hc & Hv & HV).
    { rewrite !Forall_forall in *. repeat split; intros x Hx; apply (Hp x Hx). }
    subst n. unfold normalizePinyin, replaceAll.
    rewrite (replaceAll_fuel_absent _ [0x75; 0x3A]%N _ pinyin)
      by (apply hasSub_without_second, Hc).
    rewrite (replaceAll_fuel_absent _ [0x55; 0x3A]%N _ pinyin)
      by (apply hasSub_without_second, Hc).
    rewrite (replaceAll_fuel_absent _ [0x76%N] _ pinyin) by (apply hasSub_unit, Hv).
    apply replaceAll_fuel_absent, hasSub_unit, HV.
Qed.


(** ** What a lookup reports as seen with a component *)

(** Every list of [seenWith] is the list the component map holds. *)
Definition seenMatches (w : World) (seenWith : list (jsstring * list jsstring)) : Prop :=
  forall key chars, object_get seenWith key = Some chars ->
                    chars = getCharactersWithComponent w key.

(** The radical of a character, when it has one, and its components. *)
Definition componentKeys (charInfo : CharacterInfo) : list jsstring :=
  match ci_radical charInfo with
  | [] => []
  | _ :: _ => [ci_radical charInfo]
  end ++ default [] (ci_components charInfo).

Lemma getCharacters_other component character w k :
  k <> component ->
  getCharactersWithComponent (updateComponentMap component character w) k
  = getCharactersWithComponent w k.
Proof.
  intros Hne. unfold updateComponentMap. destruct (bool_decide _); [reflexivity|].
  cbv zeta. unfold getCharactersWithComponent. cbn [componentMap].
  rewrite lookup_insert_ne by congruence. reflexivity.
Qed.

Lemma seen_recordComponent character st key :
  seenMatches (fst st) (snd st) ->
  let st' := recordComponent character st key in
  seenMatches (fst st') (snd st')
  /\ (forall k, is_Some (object_get (snd st) k) -> is_Some (object_get (snd st') k))
  /\ is_Some (object_get (snd st') key).
Proof.
  intros Hinv. unfold recordComponent. cbv zeta. cbn [fst snd].
  split; [|split].
  - intros k chars Hk. destruct (decide (k = key)) as [->|Hne].
    + rewrite object_get_set_eq in Hk. injection Hk as <-. reflexivity.
    + rewrite object_get_set_ne in Hk by exact Hne.
      rewrite getCharacters_other by exact Hne. apply Hinv, Hk.
  - intros k Hk. destruct (decide (k = key)) as [->|Hne].
    + rewrite object_get_set_eq. eauto.
    + rewrite object_get_set_ne by exact Hne. exact Hk.
  - rewrite object_get_set_eq. eauto.
Qed.

Lemma seen_recordComponents character keys st :
  seenMatches (fst st) (snd st) ->
  let st' := fold_left (recordComponent character) keys st in
  seenMatches (fst st') (snd st')
  /\ (forall k, is_Some (object_get (snd st) k) -> is_Some (object_get (snd st') k))
  /\ (forall k, k ∈ keys -> is_Some (object_get (snd st') k)).
Proof.
  revert st. induction keys as [|key keys IH]; intros st Hinv; cbv zeta.
  - cbn [fold_left]. split; [exact Hinv|]. split; [auto|].
    intros k Hk. apply elem_of_nil in Hk. contradiction.
  - cbn [fold_left].
    destruct (seen_recordComponent character st key Hinv) as (H1 & H2 & H3).
    destruct (IH _ H1) as (I1 & I2 & I3).
    split; [exact I1|]. split; [intros k Hk; apply I2, H2, Hk|].
    intros k Hk. apply elem_of_cons in Hk. destruct Hk as [->|Hk];
      [apply I2, H3 | apply I3, Hk].
Qed.

Lemma recordCharacter_keys st charInfo :
  recordCharacter st charInfo
  = fold_left (recordComponent (ci_character charInfo)) (componentKeys charInfo) st.
Proof.
  unfold recordCharacter, componentKeys. rewrite fold_left_app.
  destruct (ci_radical charInfo), (ci_components charInfo); reflexivity.
Qed.

Lemma seen_recordCharacters chars st :
  seenMatches (fst st) (snd st) ->
  let st' := fold_left recordCharacter chars st in
  seenMatches (fst st') (snd st')
  /\ (forall k, is_Some (object_get (snd st) k) -> is_Some (object_get (snd st') k))
  /\ (forall charInfo k, charInfo ∈ chars -> k ∈ componentKeys charInfo ->
        is_Some (object_get (snd st') k)).
Proof.
  revert st. induction chars as [|c chars IH]; intros st Hinv; cbv zeta.
  - cbn [fold_left]. split; [exact Hinv|]. split; [auto|].
    intros ci k Hci. apply elem_of_nil in Hci. contradiction.
  - cbn [fold_left]. rewrite recordCharacter_keys.
    destruct (seen_recordComponents (ci_character c) (componentKeys c) st Hinv)
      as (H1 & H2 & H3).
    destruct (IH _ H1) as (I1 & I2 & I3).
    split; [exact I1|]. split; [intros k Hk; apply I2, H2, Hk|].
    intros ci k Hci Hk. apply elem_of_cons in Hci. destruct Hci as [->|Hci];
      [apply I2, H3, Hk | apply (I3 ci k Hci Hk)].
Qed.

Section SeenWith.

Variable normalize_NFC : jsstring -> jsstring.

Lemma saveVocabularyEntry_componentMap ch now word pinyin defs chars ctx w :
  componentMap (snd (saveVocabularyEntry normalize_NFC ch now word pinyin defs chars ctx w))
  = componentMap w.
Proof.
  rewrite saveVocabularyEntry_world. unfold syncToChrome.
  destruct (syncToChrome_try _ _ _); reflexivity.
Qed.

Lemma seen_handleSegment ch clock context sourceUrl skipSave st segment :
  seenMatches (fst (fst st)) (snd (fst st)) ->
  let st' := handleSegment normalize_NFC ch clock context sourceUrl skipSave st segment in
  seenMatches (fst (fst st')) (snd (fst st'))
  /\ (forall k, is_Some (object_get (snd (fst st)) k) ->
                is_Some (object_get (snd (fst st')) k))
  /\ (forall charInfo k, charInfo ∈ ws_characters segment -> k ∈ componentKeys charInfo ->
        is_Some (object_get (snd (fst st')) k)).
Proof.
  destruct st as [[w seen] i]. cbn [fst snd]. intros Hinv. unfold handleSegment.
  pose proof (seen_recordCharacters (ws_characters segment) (w, seen) Hinv) as H.
  cbv zeta in H.
  destruct (fold_left recordCharacter (ws_characters segment) (w, seen)) as [w1 seen1].
  cbn [fst snd] in H. destruct H as (H1 & H2 & H3).
  destruct skipSave; cbn [fst snd]; (split; [|split; assumption]); [exact H1|].
  intros k chars Hk. unfold getCharactersWithComponent.
  rewrite saveVocabularyEntry_componentMap. apply H1, Hk.
Qed.

Lemma seen_handleSegments ch clock context sourceUrl skipSave segments st :
  seenMatches (fst (fst st)) (snd (fst st)) ->
  let st' := fold_left (handleSegment normalize_NFC ch clock context sourceUrl skipSave)
               segments st in
  seenMatches (fst (fst st')) (snd (fst st'))
  /\ (forall k, is_Some (object_get (snd (fst st)) k) ->
                is_Some (object_get (snd (fst st')) k))
  /\ (forall segment charInfo k,
        segment ∈ segments -> charInfo ∈ ws_characters segment ->
        k ∈ componentKeys charInfo -> is_Some (object_get (snd (fst st')) k)).
Proof.
  revert st. induction segments as [|seg segments IH]; intros st Hinv; cbv zeta.
  - cbn [fold_left]. split; [exact Hinv|]. split; [auto|].
    intros s ci k Hs. apply elem_of_nil in Hs. contradiction.
  - cbn [fold_left].
    destruct (seen_handleSegment ch clock context sourceUrl skipSave st seg Hinv)
      as (H1 & H2 & H3).
    destruct (IH _ H1) as (I1 & I2 & I3).
    split; [exact I1|]. split; [intros k Hk; apply I2, H2, Hk|].
    intros s ci k Hs Hci Hk. apply elem_of_cons in Hs. destruct Hs as [->|Hs];
      [apply I2, (H3 ci k Hci Hk) | apply (I3 s ci k Hs Hci Hk)].
Qed.

(** The lists a lookup reports under [seenWith] are the lists the component
    map holds when the lookup ends, and there is one for the radical (when
    the character has one) and for every component of every character of
    every segment. *)
Theorem handleLookup_seenWith_matches_store
    (cedict : CedictData) (unihan : UnihanData) (radicals : RadicalData) (hsk : HskData)
    (ch : Channel) (clock : nat -> Z) (naturalTranslation : option jsstring)
    (text : jsstring) (context sourceUrl : option jsstring) (skipSave : bool) (w : World) :
  exists result w',
    handleLookup normalize_NFC cedict unihan radicals hsk ch clock naturalTranslation
      text context sourceUrl skipSave w = Some (result, w')
    /\ (forall key chars, object_get (lr_seenWith result) key = Some chars ->
          chars = getCharactersWithComponent w' key)
    /\ (forall segment charInfo key,
          segment ∈ lr_segments result -> charInfo ∈ ws_characters segment ->
          key ∈ componentKeys charInfo ->
          object_get (lr_seenWith result) key
          = Some (getCharactersWithComponent w' key)).
Proof.
  destruct (lookupWithSegmentation_total normalize_NFC cedict text) as [entries He].
  unfold handleLookup, performLookup. rewrite He. cbn [mbind option_bind lr_segments].
  set (segments := map (toSegment unihan radicals hsk (isWordKnown normalize_NFC w)) entries).
  assert (seenMatches w []) as H0 by (intros key chars Hk; discriminate).
  pose proof (seen_handleSegments ch clock context sourceUrl skipSave segments (w, [], O) H0)
    as H. cbv zeta in H.
  destruct (fold_left (handleSegment normalize_NFC ch clock context sourceUrl skipSave)
              segments (w, [], O)) as [[w' seen] i].
  cbn [fst snd] in H. destruct H as (H1 & _ & H3).
  do 2 eexists. split; [reflexivity|]. cbn [lr_seenWith lr_segments].
  split; [exact H1|]. intros seg ci key Hs Hci Hk.
  destruct (H3 seg ci key Hs Hci Hk) as [chars Hget].
  rewrite Hget. f_equal. apply H1, Hget.
Qed.

End SeenWith.


(** * The build script of the dictionary: [scripts/build-dictionary.ts] *)

(** [s.split(sep)] for a separator of one unit: the pieces between the
    separators, the empty ones too. *)
Fixpoint split_on (sep : N) (cur : jsstring) (s : jsstring) : list jsstring :=
  match s with
  | [] => [rev cur]
  | c :: s' =>
      if (c =? sep)%N then rev cur :: split_on sep [] s'
      else split_on sep (c :: cur) s'
  end.

Definition ch_slash : N := 0x2F.
Definition ch_open : N := 0x5B.
Definition ch_close : N := 0x5D.

(** What [\S] matches. *)
Definition notSpace (c : N) : bool := negb (isWhiteSpace c).

(** What [[^\]]] matches. *)
Definition notClose (c : N) : bool := negb (c =? ch_close)%N.

(** [line.match(/^(\S+)\s+(\S+)\s+\[([^\]]+)\]\s+\/(.+)\/$/)]: the four
    groups.  Every quantifier of the pattern is followed by something its
    class excludes, so each takes the longest run there is; [(.+)\/$] takes
    what is left up to the closing slash, which ends the line, and [.]
    matches no line terminator. *)
Definition matchCedictLine (line : jsstring)
  : option (jsstring * jsstring * jsstring * jsstring) :=
  let traditional := takeWhile notSpace line in
  let afterT := dropWhile notSpace line in
  let atS := dropWhile isWhiteSpace afterT in
  let simplified := takeWhile notSpace atS in
  let afterS := dropWhile notSpace atS in
  match traditional, afterT, simplified, afterS, dropWhile isWhiteSpace afterS with
  | _ :: _, _ :: _, _ :: _, _ :: _, bracket :: inBrackets =>
      let pinyin := takeWhile notClose inBrackets in
      match pinyin, dropWhile notClose inBrackets with
      | _ :: _, _ :: ((space :: _) as afterP) =>
          match dropWhile isWhiteSpace afterP with
          | slash :: rest =>
              let definitions := removelast rest in
              if (bracket =? ch_open)%N && isWhiteSpace space && (slash =? ch_slash)%N
                 && bool_decide (last rest = Some ch_slash)
                 && negb (bool_decide (definitions = []))
                 && forallb (fun c => negb (isLineTerminator c)) definitions
              then Some (traditional, simplified, pinyin, definitions)
              else None
          | [] => None
          end
      | _, _ => None
      end
  | _, _, _, _, _ => None
  end.

Definition parseCedictLine (line : jsstring) : option CedictSense :=
  if startsWith (js "#") line || bool_decide (trim line = []) then None
  else
    match matchCedictLine line with
    | Some (traditional, simplified, pinyin, definitions) =>
        let defList :=
          List.filter (fun d => negb (bool_decide (trim d = [])))
            (split_on ch_slash [] definitions) in
        Some {| ce_t := traditional; ce_s := simplified; ce_p := pinyin; ce_d := defList |}
    | None => None
    end.

Section BuildIndex.

(** The names under which an object literal finds a property it has not
    been given, those of [Object.prototype]. *)
Variable inherited : jsstring -> bool.

(** [if (!entries[key]) entries[key] = []; entries[key].push(entry);]
    An inherited property is truthy and has no [push]: the call throws,
    which [None] stands for. *)
Definition fileUnder (key : jsstring) (entry : CedictSense) (entries : CedictData)
  : option CedictData :=
  match entries !! key with
  | Some senses => Some (<[key := senses ++ [entry]]> entries)
  | None => if inherited key then None else Some (<[key := [entry]]> entries)
  end.

(** The body of the loop of [buildCedict] for a parsed line. *)
Definition indexEntry (entries : CedictData) (entry : CedictSense) : option CedictData :=
  match fileUnder (ce_s entry) entry entries with
  | Some entries =>
      if bool_decide (ce_t entry = ce_s entry) then Some entries
      else fileUnder (ce_t entry) entry entries
  | None => None
  end.

(** The loop of [buildCedict] over the lines of the file. *)
Fixpoint indexLines (entries : CedictData) (lines : list jsstring) : option CedictData :=
  match lines with
  | [] => Some entries
  | line :: lines' =>
      match parseCedictLine line with
      | Some entry =>
          match indexEntry entries entry with
          | Some entries => indexLines entries lines'
          | None => None
          end
      | None => indexLines entries lines'
      end
  end.

Definition buildCedictIndex (lines : list jsstring) : option CedictData :=
  indexLines ∅ lines.

(** The senses of the file, in its order, that have [key] as one of their
    two forms. *)
Definition sensesOf (key : jsstring) (parsed : list CedictSense) : list CedictSense :=
  List.filter (fun e => bool_decide (ce_s e = key) || bool_decide (ce_t e = key)) parsed.

Definition nonEmpty {A} (l : list A) : option (list A) :=
  match l with
  | [] => None
  | _ :: _ => Some l
  end.

Lemma nonEmpty_app {A} (l : list A) x : nonEmpty (l ++ [x]) = Some (l ++ [x]).
Proof. destruct l; reflexivity. Qed.

Lemma fileUnder_spec key entry entries l :
  inherited key = false -> entries !! key = nonEmpty l ->
  fileUnder key entry entries = Some (<[key := l ++ [entry]]> entries).
Proof.
  intros Hinh Hl. unfold fileUnder. rewrite Hl, Hinh.
  destruct l; reflexivity.
Qed.

Lemma indexEntry_spec entries entry done :
  inherited (ce_s entry) = false -> inherited (ce_t entry) = false ->
  (forall key, entries !! key = nonEmpty (sensesOf key done)) ->
  exists entries',
    indexEntry entries entry = Some entries'
    /\ forall key, entries' !! key = nonEmpty (sensesOf key (done ++ [entry])).
Proof.
  intros Hs Ht Hinv. unfold indexEntry.
  rewrite (fileUnder_spec _ _ _ _ Hs (Hinv (ce_s entry))).
  assert (forall key, sensesOf key (done ++ [entry])
                      = sensesOf key done
                        ++ (if bool_decide (ce_s entry = key) || bool_decide (ce_t entry = key)
                            then [entry] else [])) as Happ.
  { intros key. unfold sensesOf. rewrite List.filter_app. cbn [List.filter].
    destruct (_ || _); reflexivity. }
  destruct (bool_decide_reflect (ce_t entry = ce_s entry)) as [Heq|Hne].
  - eexists. split; [reflexivity|]. intros key. rewrite Happ, Heq, orb_diag.
    destruct (bool_decide_reflect (ce_s entry = key)) as [<-|Hk].
    + rewrite lookup_insert_eq, nonEmpty_app. reflexivity.
    + rewrite lookup_insert_ne by exact Hk. rewrite app_nil_r. apply Hinv.
  - rewrite (fileUnder_spec _ _ _ (sensesOf (ce_t entry) done) Ht)
      by (rewrite lookup_insert_ne by congruence; apply Hinv).
    eexists. split; [reflexivity|]. intros key. rewrite Happ.
    destruct (bool_decide_reflect (ce_t entry = key)) as [<-|Hkt].
    + rewrite lookup_insert_eq, orb_true_r, nonEmpty_app. reflexivity.
    + rewrite lookup_insert_ne by exact Hkt. rewrite orb_false_r.
      destruct (bool_decide_reflect (ce_s entry = key)) as [<-|Hks].
      * rewrite lookup_insert_eq, nonEmpty_app. reflexivity.
      * rewrite lookup_insert_ne by exact Hks. rewrite app_nil_r. apply Hinv.
Qed.

Lemma indexLines_spec lines entries done :
  (forall e, e ∈ omap parseCedictLine lines ->
             inherited (ce_s e) = false /\ inherited (ce_t e) = false) ->
  (forall key, entries !! key = nonEmpty (sensesOf key done)) ->
  exists index,
    indexLines entries lines = Some index
    /\ forall key,
         index !! key = nonEmpty (sensesOf key (done ++ omap parseCedictLine lines)).
Proof.
  revert entries done. induction lines as [|line lines IH]; intros entries done Hinh Hinv.
  - exists entries. split; [reflexivity|]. intros key. cbn [omap]. rewrite app_nil_r.
    apply Hinv.
  - cbn [indexLines omap list_omap] in *.
    destruct (parseCedictLine line) as [entry|]; [|apply IH; assumption].
    destruct (Hinh entry ltac:(left)) as [Hs Ht].
    destruct (indexEntry_spec entries entry done Hs Ht Hinv) as (entries' & -> & Hinv').
    destruct (IH entries' (done ++ [entry])) as (index & Hrun & Hidx); [|exact Hinv'|].
    + intros e He. apply Hinh. right. exact He.
    + exists index. split; [exact Hrun|]. intros key. rewrite Hidx, <- app_assoc.
      reflexivity.
Qed.

(** When no form of a parsed sense is the name of an inherited property,
    the loop of [buildCedict] ends, and the index it writes holds under each
    key the senses of the file that have the key as their simplified or
    their traditional form, in the order of the file, each once; a key that
    no sense has is absent, so no list of the index is empty.  Such an index
    files every sense under its simplified form only when no sense has a
    traditional form of its own. *)
Theorem buildCedict_files_each_sense_under_both_forms (lines : list jsstring) :
  (forall e, e ∈ omap parseCedictLine lines ->
             inherited (ce_s e) = false /\ inherited (ce_t e) = false) ->
  exists index,
    buildCedictIndex lines = Some index
    /\ (forall key, index !! key = nonEmpty (sensesOf key (omap parseCedictLine lines)))
    /\ (forall key, senses index key = index !! key)
    /\ (forall e, e ∈ omap parseCedictLine lines ->
          (exists l, index !! ce_s e = Some l /\ e ∈ l)
          /\ (exists l, index !! ce_t e = Some l /\ e ∈ l))
    /\ (keyedBySimplified index <->
        forall e, e ∈ omap parseCedictLine lines -> ce_t e = ce_s e).
Proof.
  intros Hinh.
  destruct (indexLines_spec lines ∅ [] Hinh) as (index & Hrun & Hidx).
  { intros key. apply lookup_empty. }
  cbn [app] in Hidx. exists index. split; [exact Hrun|]. split; [exact Hidx|].
  assert (forall key e, e ∈ omap parseCedictLine lines ->
            ce_s e = key \/ ce_t e = key ->
            exists l, index !! key = Some l /\ e ∈ l) as Hfiled.
  { intros key e He Hk. rewrite Hidx.
    assert (e ∈ sensesOf key (omap parseCedictLine lines)) as Hin.
    { unfold sensesOf. apply list_elem_of_In, List.filter_In.
      split; [apply list_elem_of_In, He|].
      destruct Hk as [Hk|Hk]; rewrite (bool_decide_eq_true_2 _ Hk);
        [reflexivity | apply orb_true_r]. }
    destruct (sensesOf key (omap parseCedictLine lines)) as [|x l] eqn:E.
    - apply elem_of_nil in Hin. contradiction.
    - exists (x :: l). split; [reflexivity | exact Hin]. }
  split; [|split; [|split]].
  - intros key. unfold senses. rewrite Hidx.
    destruct (sensesOf key (omap parseCedictLine lines)); reflexivity.
  - intros e He. split; apply Hfiled; auto.
  - intros Hkey e He. destruct (Hfiled (ce_t e) e He (or_intror eq_refl)) as (l & Hl & Hin).
    symmetry. apply (Hkey _ _ _ Hl Hin).
  - intros Hsame key ss e Hss Hin. rewrite Hidx in Hss.
    destruct (sensesOf key (omap parseCedictLine lines)) as [|x l] eqn:E; [discriminate|].
    injection Hss as <-. rewrite <- E in Hin. unfold sensesOf in Hin.
    apply list_elem_of_In, List.filter_In in Hin. destruct Hin as [Hin Hk].
    apply list_elem_of_In in Hin. apply orb_true_iff in Hk.
    destruct Hk as [Hk|Hk]; apply bool_decide_eq_true_1 in Hk; [exact Hk|].
    rewrite <- (Hsame e Hin). exact Hk.
Qed.

End BuildIndex.

(** ** The lines of CC-CEDICT *)

Lemma takeWhile_all {A} (f : A -> bool) (l : list A) :
  Forall (fun x => f x = true) (takeWhile f l).
Proof.
  induction l as [|x l IH]; cbn [takeWhile]; [constructor|].
  destruct (f x) eqn:E; constructor; assumption.
Qed.

Lemma takeWhile_stop {A} (f : A -> bool) (l : list A) x r :
  Forall (fun y => f y = true) l -> f x = false ->
  takeWhile f (l ++ x :: r) = l /\ dropWhile f (l ++ x :: r) = x :: r.
Proof.
  intros Hl Hx. rewrite (takeWhile_app_all f l (x :: r) Hl).
  rewrite (dropWhile_app_all f l (x :: r) Hl). cbn [takeWhile dropWhile].
  rewrite Hx, app_nil_r. auto.
Qed.

Lemma split_on_pieces sep cur s d :
  d ∈ split_on sep cur s ->
  Forall (fun c => c ∈ cur \/ (c <> sep /\ c ∈ s)) d.
Proof.
  revert cur. induction s as [|c s IH]; intros cur; cbn [split_on].
  - intros Hd. apply list_elem_of_singleton in Hd. subst d.
    apply Forall_forall. intros x Hx. left. apply list_elem_of_In, in_rev, list_elem_of_In, Hx.
  - destruct (N.eqb_spec c sep) as [->|Hne]; intros Hd.
    + apply elem_of_cons in Hd. destruct Hd as [->|Hd].
      * apply Forall_forall. intros x Hx. left. apply list_elem_of_In, in_rev, list_elem_of_In, Hx.
      * specialize (IH [] Hd). eapply Forall_impl; [exact IH|].
        intros x [Hx|[Hx Hin]]; [apply elem_of_nil in Hx; contradiction|].
        right. split; [exact Hx | right; exact Hin].
    + specialize (IH (c :: cur) Hd). eapply Forall_impl; [exact IH|].
      intros x [Hx|[Hx Hin]].
      * apply elem_of_cons in Hx. destruct Hx as [->|Hx]; [|auto].
        right. split; [exact Hne | left].
      * right. split; [exact Hx | right; exact Hin].
Qed.

Lemma elem_of_removelast {A} (l : list A) x : x ∈ removelast l -> x ∈ l.
Proof.
  induction l as [|y l IH]; cbn [removelast]; [auto|].
  destruct l as [|z l]; [intros H; apply elem_of_nil in H; contradiction|].
  intros H. apply elem_of_cons in H. destruct H as [->|H]; [left | right; apply IH, H].
Qed.

(** What a parsed line gives: two forms without white space, the first not
    starting with the comment sign, pinyin without the closing bracket, none
    of the three empty, and definitions without slash and line terminator,
    none of them blank. *)
Theorem parseCedictLine_fields (line : jsstring) (entry : CedictSense) :
  parseCedictLine line = Some entry ->
  (ce_t entry <> [] /\ Forall (fun c => isWhiteSpace c = false) (ce_t entry)
   /\ head (ce_t entry) <> Some 0x23%N /\ ce_t entry `prefix_of` line)
  /\ (ce_s entry <> [] /\ Forall (fun c => isWhiteSpace c = false) (ce_s entry))
  /\ (ce_p entry <> [] /\ Forall (fun c => c <> ch_close) (ce_p entry))
  /\ Forall (fun d => trim d <> []
                      /\ Forall (fun c => c <> ch_slash /\ isLineTerminator c = false) d)
       (ce_d entry).
Proof.
  unfold parseCedictLine.
  destruct (startsWith (js "#") line) eqn:Hhash; [discriminate|]. cbn [orb].
  destruct (bool_decide (trim line = [])); [discriminate|].
  destruct (matchCedictLine line) as [[[[t s] p] defs]|] eqn:Hm; [|discriminate].
  intros [= <-]. cbn [ce_t ce_s ce_p ce_d].
  unfold matchCedictLine in Hm. cbv zeta in Hm.
  assert (Forall (fun c => isWhiteSpace c = false) (takeWhile notSpace line)) as Ht.
  { eapply Forall_impl; [apply takeWhile_all|]. intros c Hc. apply negb_true_iff, Hc. }
  assert (takeWhile notSpace line `prefix_of` line) as Hpre.
  { exists (dropWhile notSpace line). clear. induction line as [|c l IH]; [reflexivity|].
    cbn [takeWhile dropWhile]. destruct (notSpace c); [|reflexivity].
    cbn [app]. rewrite <- IH. reflexivity. }
  destruct (takeWhile notSpace line) as [|t0 t'] eqn:Et; [discriminate|].
  destruct (dropWhile notSpace line) as [|a0 a'] eqn:Ea; [discriminate|].
  set (atS := dropWhile isWhiteSpace (a0 :: a')) in *.
  assert (Forall (fun c => isWhiteSpace c = false) (takeWhile notSpace atS)) as Hs.
  { eapply Forall_impl; [apply takeWhile_all|]. intros c Hc. apply negb_true_iff, Hc. }
  destruct (takeWhile notSpace atS) as [|s0 s'] eqn:Es; [discriminate|].
  destruct (dropWhile notSpace atS) as [|b0 b'] eqn:Eb; [discriminate|].
  destruct (dropWhile isWhiteSpace (b0 :: b')) as [|bracket inB] eqn:Ebr; [discriminate|].
  assert (Forall (fun c => c <> ch_close) (takeWhile notClose inB)) as Hp.
  { eapply Forall_impl; [apply takeWhile_all|]. intros c Hc. unfold notClose in Hc.
    apply negb_true_iff, N.eqb_neq in Hc. exact Hc. }
  destruct (takeWhile notClose inB) as [|p0 p'] eqn:Ep; [discriminate|].
  destruct (dropWhile notClose inB) as [|close [|space afterP]] eqn:Ec; try discriminate.
  destruct (dropWhile isWhiteSpace (space :: afterP)) as [|slash rest] eqn:Esl;
    [discriminate|].
  destruct (_ && _) eqn:Hcond in Hm; [|discriminate].
  injection Hm as <- <- <- <-.
  rewrite !andb_true_iff in Hcond. destruct Hcond as [[[[[_ _] _] _] _] Hlt].
  split; [|split; [|split]].
  - split; [discriminate|]. split; [exact Ht|]. split; [|exact Hpre].
    intros E. cbn [head] in E. injection E as ->.
    destruct Hpre as [k Hk]. rewrite Hk in Hhash. cbn in Hhash. discriminate.
  - split; [discriminate | exact Hs].
  - split; [discriminate | exact Hp].
  - apply Forall_forall. intros d Hd. apply list_elem_of_In, List.filter_In in Hd.
    destruct Hd as [Hd Hblank]. apply negb_true_iff, bool_decide_eq_false_1 in Hblank.
    split; [exact Hblank|]. apply list_elem_of_In, split_on_pieces in Hd.
    eapply Forall_impl; [exact Hd|]. intros c [Hc|[Hc Hin]];
      [apply elem_of_nil in Hc; contradiction|].
    split; [exact Hc|]. rewrite forallb_forall in Hlt.
    apply negb_true_iff, Hlt, list_elem_of_In. exact Hin.
Qed.

(** A line of CC-CEDICT:
    [traditional simplified [pinyin] /definition/../definition/]. *)
Definition cedictLine (t s p : jsstring) (ds : list jsstring) : jsstring :=
  t ++ 0x20%N :: s ++ 0x20%N :: ch_open :: p
    ++ ch_close :: 0x20%N :: ch_slash :: join [ch_slash] ds ++ [ch_slash].

(** A form: not empty, without white space. *)
Definition plainForm (f : jsstring) : Prop :=
  f <> [] /\ Forall (fun c => isWhiteSpace c = false) f.

(** A definition: not blank, without slash and line terminator. *)
Definition plainDefinition (d : jsstring) : Prop :=
  trim d <> [] /\ Forall (fun c => c <> ch_slash /\ isLineTerminator c = false) d.

Lemma split_on_run sep cur d rest :
  Forall (fun c => c <> sep) d ->
  split_on sep cur (d ++ rest) = split_on sep (rev d ++ cur) rest.
Proof.
  intros Hd. revert cur. induction Hd as [|c d Hc _ IH]; intros cur; [reflexivity|].
  cbn [app split_on rev]. rewrite (proj2 (N.eqb_neq c sep) Hc), IH, <- app_assoc.
  reflexivity.
Qed.

Lemma split_on_join sep ds :
  ds <> [] -> Forall (Forall (fun c => c <> sep)) ds ->
  split_on sep [] (join [sep] ds) = ds.
Proof.
  intros Hne Hall. induction Hall as [|d ds Hd Hall IH]; [contradiction|].
  destruct ds as [|d2 ds].
  - cbn [join]. rewrite <- (app_nil_r d) at 1. rewrite split_on_run by exact Hd.
    cbn [split_on]. rewrite app_nil_r, rev_involutive. reflexivity.
  - change (join [sep] (d :: d2 :: ds)) with (d ++ [sep] ++ join [sep] (d2 :: ds)).
    rewrite split_on_run by exact Hd. cbn [app split_on]. rewrite N.eqb_refl.
    rewrite app_nil_r, rev_involutive, IH by discriminate. reflexivity.
Qed.

Lemma Forall_join {P : N -> Prop} sep ds :
  P sep -> Forall (Forall P) ds -> Forall P (join [sep] ds).
Proof.
  intros Hsep Hall. induction Hall as [|d ds Hd Hall IH]; [constructor|].
  destruct ds as [|d2 ds]; [exact Hd|].
  change (join [sep] (d :: d2 :: ds)) with (d ++ [sep] ++ join [sep] (d2 :: ds)).
  apply Forall_app. split; [exact Hd|]. constructor; assumption.
Qed.

Lemma trim_nonempty d : trim d <> [] -> d <> [].
Proof. intros H ->. apply H. reflexivity. Qed.

Lemma join_nonempty sep d ds : d <> [] -> join [sep] (d :: ds) <> [].
Proof.
  intros Hd. destruct ds as [|d2 ds]; [exact Hd|].
  change (join [sep] (d :: d2 :: ds)) with (d ++ [sep] ++ join [sep] (d2 :: ds)).
  destruct d; [contradiction | discriminate].
Qed.

(** A line in the format of CC-CEDICT, its forms without white space and the
    first not starting with the comment sign, its pinyin without closing
    bracket, its definitions not blank and without slash and line
    terminator, is parsed into just these fields. *)
Theorem parseCedictLine_reads_cedictLine (t s p : jsstring) (ds : list jsstring) :
  plainForm t -> head t <> Some 0x23%N -> plainForm s ->
  p <> [] -> Forall (fun c => c <> ch_close) p ->
  ds <> [] -> Forall plainDefinition ds ->
  parseCedictLine (cedictLine t s p ds)
  = Some {| ce_t := t; ce_s := s; ce_p := p; ce_d := ds |}.
Proof.
  intros [Htne Ht] Hhash [Hsne Hs] Hpne Hp Hdne Hds.
  set (J := join [ch_slash] ds).
  assert (split_on ch_slash [] J = ds) as Hsplit.
  { apply split_on_join; [exact Hdne|]. eapply Forall_impl; [exact Hds|].
    intros d [_ Hd]. eapply Forall_impl; [exact Hd|]. intros c Hc. apply Hc. }
  assert (J <> []) as HJne.
  { subst J. destruct ds as [|d ds']; [contradiction|]. apply join_nonempty.
    apply Forall_inv in Hds. apply trim_nonempty, Hds. }
  assert (forallb (fun c => negb (isLineTerminator c)) J = true) as HJlt.
  { apply forallb_forall. intros c Hc. apply negb_true_iff.
    assert (Forall (fun c => isLineTerminator c = false) J) as HJ.
    { apply Forall_join; [reflexivity|]. eapply Forall_impl; [exact Hds|].
      intros d [_ Hd]. eapply Forall_impl; [exact Hd|]. intros x Hx. apply Hx. }
    rewrite Forall_forall in HJ. apply HJ, list_elem_of_In, Hc. }
  assert (Forall (fun c => notSpace c = true) t /\ Forall (fun c => notSpace c = true) s
          /\ Forall (fun c => notClose c = true) p) as (Ht' & Hs' & Hp').
  { repeat split; [eapply Forall_impl; [exact Ht|] | eapply Forall_impl; [exact Hs|]
                  | eapply Forall_impl; [exact Hp|]]; intros c Hc.
    - unfold notSpace. rewrite Hc. reflexivity.
    - unfold notSpace. rewrite Hc. reflexivity.
    - unfold notClose. apply negb_true_iff, N.eqb_neq, Hc. }
  set (R3 := 0x20%N :: ch_slash :: J ++ [ch_slash]).
  set (R2 := ch_open :: p ++ ch_close :: R3).
  set (R1 := s ++ 0x20%N :: R2).
  assert (cedictLine t s p ds = t ++ 0x20%N :: R1) as Hline by reflexivity.
  destruct (takeWhile_stop notSpace t 0x20%N R1 Ht' eq_refl) as [Et Ea].
  destruct (takeWhile_stop notSpace s 0x20%N R2 Hs' eq_refl) as [Es Eb].
  fold R1 in Es, Eb.
  destruct (takeWhile_stop notClose p ch_close R3 Hp' eq_refl) as [Ep Ec].
  assert (dropWhile isWhiteSpace (0x20%N :: R1) = R1) as EatS.
  { cbn [dropWhile]. change (isWhiteSpace 0x20%N) with true. cbn iota.
    destruct s as [|s0 s']; [contradiction|]. apply Forall_inv in Hs.
    subst R1. cbn [app dropWhile]. rewrite Hs. reflexivity. }
  unfold parseCedictLine. rewrite Hline.
  assert (startsWith (js "#") (t ++ 0x20%N :: R1) = false) as ->.
  { destruct t as [|t0 t']; [contradiction|]. cbn [head] in Hhash.
    change (js "#") with [0x23%N]. cbn [app startsWith].
    rewrite (proj2 (N.eqb_neq 0x23%N t0)) by congruence. reflexivity. }
  assert (trim (t ++ 0x20%N :: R1) = t ++ 0x20%N :: R1) as Htrim.
  { unfold trim. destruct t as [|t0 t'] eqn:E; [contradiction|]. rewrite <- E in *.
    assert (head (t ++ 0x20%N :: R1) = Some t0) as Hh by (rewrite E; reflexivity).
    assert (isWhiteSpace t0 = false) as Hw by (rewrite E in Ht; apply (Forall_inv Ht)).
    rewrite (dropWhile_keep isWhiteSpace _ t0 Hh Hw).
    apply (dropWhileEnd_keep isWhiteSpace _ ch_slash); [|reflexivity].
    subst R1 R2 R3. rewrite !app_comm_cons, !app_assoc. apply last_snoc. }
  rewrite Htrim. rewrite bool_decide_eq_false_2
    by (destruct t; [contradiction | discriminate]).
  cbn [orb]. unfold matchCedictLine. cbv zeta.
  rewrite Et, Ea, EatS, Es, Eb.
  destruct t as [|t0 t']; [contradiction|]. destruct s as [|s0 s']; [contradiction|].
  change (dropWhile isWhiteSpace (0x20%N :: R2)) with R2. unfold R2 at 1.
  rewrite Ep, Ec. destruct p as [|p0 p']; [contradiction|]. unfold R3 at 1.
  change (dropWhile isWhiteSpace R3) with (ch_slash :: J ++ [ch_slash]).
  cbv beta iota. rewrite last_snoc, removelast_last, HJlt.
  rewrite bool_decide_eq_true_2 by reflexivity.
  rewrite (bool_decide_eq_false_2 _ HJne).
  change ((ch_open =? ch_open)%N && isWhiteSpace 0x20%N && (ch_slash =? ch_slash)%N
          && true && negb false && true) with true.
  cbn iota. rewrite Hsplit. f_equal. f_equal.
  apply filter_all_true. eapply Forall_impl; [exact Hds|]. intros d [Hd _].
  apply negb_true_iff, bool_decide_eq_false_2, Hd.
Qed.

(** The entry of 中國 / 中国 as CC-CEDICT has it. *)
Definition cedictSample : jsstring :=
  cedictLine [han_zhong; han_guo_trad] [han_zhong; han_guo] (js "Zhong1 guo2")
    [js "China"; js "Middle Kingdom"].

Definition cedictSampleSense : CedictSense :=
  {| ce_t := [han_zhong; han_guo_trad]; ce_s := [han_zhong; han_guo];
     ce_p := js "Zhong1 guo2"; ce_d := [js "China"; js "Middle Kingdom"] |}.

(** The names of the properties of [Object.prototype]. *)
Definition objectPrototypeNames : list jsstring :=
  map js ["constructor"; "__defineGetter__"; "__defineSetter__"; "hasOwnProperty";
          "__lookupGetter__"; "__lookupSetter__"; "isPrototypeOf";
          "propertyIsEnumerable"; "toString"; "valueOf"; "__proto__";
          "toLocaleString"]%string.

Definition inheritedName (key : jsstring) : bool :=
  bool_decide (key ∈ objectPrototypeNames).

Lemma parseCedictLine_fields_witness :
  parseCedictLine cedictSample = Some cedictSampleSense
  /\ Forall (fun c => isWhiteSpace c = false) (ce_t cedictSampleSense)
  /\ Forall (fun c => c <> ch_close) (ce_p cedictSampleSense).
Proof.
  assert (parseCedictLine cedictSample = Some cedictSampleSense) as Hparse
    by (vm_compute; reflexivity).
  split; [exact Hparse|].
  destruct (parseCedictLine_fields cedictSample cedictSampleSense Hparse)
    as ((_ & Ht & _) & _ & (_ & Hp) & _).
  split; [exact Ht | exact Hp].
Defined.

Lemma parseCedictLine_reads_cedictLine_witness :
  plainForm [han_zhong; han_guo_trad]
  /\ plainForm [han_zhong; han_guo]
  /\ Forall plainDefinition [js "China"; js "Middle Kingdom"]
  /\ parseCedictLine cedictSample = Some cedictSampleSense.
Proof.
  assert (plainForm [han_zhong; han_guo_trad]) as Ht
    by (split; [discriminate | repeat constructor]).
  assert (plainForm [han_zhong; han_guo]) as Hs
    by (split; [discriminate | repeat constructor]).
  assert (Forall plainDefinition [js "China"; js "Middle Kingdom"]) as Hds.
  { repeat constructor; try (vm_compute; discriminate). }
  split; [exact Ht|]. split; [exact Hs|]. split; [exact Hds|].
  apply (parseCedictLine_reads_cedictLine [han_zhong; han_guo_trad] [han_zhong; han_guo]
           (js "Zhong1 guo2") [js "China"; js "Middle Kingdom"] Ht).
  - discriminate.
  - exact Hs.
  - discriminate.
  - repeat constructor; discriminate.
  - discriminate.
  - exact Hds.
Defined.

Lemma buildCedict_files_each_sense_under_both_forms_witness :
  exists index,
    buildCedictIndex inheritedName [js "# CC-CEDICT"; cedictSample] = Some index
    /\ index !! [han_zhong; han_guo_trad] = Some [cedictSampleSense]
    /\ index !! [han_zhong; han_guo] = Some [cedictSampleSense]
    /\ ~ keyedBySimplified index.
Proof.
  assert (omap parseCedictLine [js "# CC-CEDICT"; cedictSample] = [cedictSampleSense])
    as Hparsed by (vm_compute; reflexivity).
  destruct (buildCedict_files_each_sense_under_both_forms inheritedName
              [js "# CC-CEDICT"; cedictSample]) as (index & Hrun & Hidx & _ & _ & Hkeyed).
  { intros e He. rewrite Hparsed in He. apply list_elem_of_singleton in He. subst e.
    split; vm_compute; reflexivity. }
  exists index. split; [exact Hrun|]. rewrite !Hidx, Hparsed.
  split; [vm_compute; reflexivity|]. split; [vm_compute; reflexivity|].
  intros Hk. rewrite Hkeyed in Hk. specialize (Hk cedictSampleSense).
  rewrite Hparsed in Hk. specialize (Hk ltac:(left)). discriminate.
Defined.


(** * Numbers in the pinyin line: [shared/pinyin.ts] *)

Definition py_ling : jsstring := [0x6C; 0xED; 0x6E; 0x67]%N.
Definition py_yi : jsstring := [0x79; 0x12B]%N.
Definition py_er : jsstring := [0xE8; 0x72]%N.
Definition py_san : jsstring := [0x73; 0x101; 0x6E]%N.
Definition py_si : jsstring := [0x73; 0xEC]%N.
Definition py_wu : jsstring := [0x77; 0x1D4]%N.
Definition py_liu : jsstring := [0x6C; 0x69; 0xF9]%N.
Definition py_qi : jsstring := [0x71; 0x12B]%N.
Definition py_ba : jsstring := [0x62; 0x101]%N.
Definition py_jiu : jsstring := [0x6A; 0x69; 0x1D4]%N.
Definition py_shi : jsstring := [0x73; 0x68; 0xED]%N.
Definition py_bai : jsstring := [0x62; 0x1CE; 0x69]%N.
Definition py_qian : jsstring := [0x71; 0x69; 0x101; 0x6E]%N.
Definition py_wan : jsstring := [0x77; 0xE0; 0x6E]%N.
Definition py_fu : jsstring := [0x66; 0xF9]%N.

(** The table [numberPinyin], by the decimal text of its keys. *)
Definition numberPinyin (key : jsstring) : option jsstring :=
  if decide (key = js "0") then Some py_ling
  else if decide (key = js "1") then Some py_yi
  else if decide (key = js "2") then Some py_er
  else if decide (key = js "3") then Some py_san
  else if decide (key = js "4") then Some py_si
  else if decide (key = js "5") then Some py_wu
  else if decide (key = js "6") then Some py_liu
  else if decide (key = js "7") then Some py_qi
  else if decide (key = js "8") then Some py_ba
  else if decide (key = js "9") then Some py_jiu
  else if decide (key = js "10") then Some py_shi
  else if decide (key = js "100") then Some py_bai
  else if decide (key = js "1000") then Some py_qian
  else if decide (key = js "10000") then Some py_wan
  else None.

(** [numberPinyin[n.toString()]] as an element of [parts]: [join] prints
    [undefined] as the empty string. *)
Definition numberWord (n : Z) : jsstring := default [] (numberPinyin (numberToJSON n)).

(** [numberPinyin[count.toString()] || numberToPinyin(count)], given what
    the call returns. *)
Definition numberWordOr (count : Z) (called : option jsstring) : option jsstring :=
  match numberPinyin (numberToJSON count) with
  | Some (c :: word) => Some (c :: word)
  | _ => called
  end.

(** The blocks of [numberToPinyin] for thousands and for hundreds; the
    state is [(parts, num)]. *)
Definition unitBlock (unit : Z) (unitWord : jsstring) (called : Z -> option jsstring)
    (st : list jsstring * Z) : option (list jsstring * Z) :=
  let '(parts, num) := st in
  if unit <=? num then
    let count := num / unit in
    counted ←
      (if 1 <? count then (fun w => parts ++ [w]) <$> numberWordOr count (called count)
       else if count =? 1 then Some (parts ++ [numberWord 1])
       else Some parts);
    let parts := counted ++ [unitWord] in
    let num := num mod unit in
    let parts := if (0 <? num) && (num <? unit / 10) then parts ++ [numberWord 0] else parts in
    Some (parts, num)
  else Some (parts, num).

(** The block for tens and the last digit. *)
Definition lowBlock (st : list jsstring * Z) : list jsstring :=
  let '(parts, num) := st in
  let '(parts, num) :=
    if 10 <=? num then
      let shiCount := num / 10 in
      let parts := if 1 <? shiCount then parts ++ [numberWord shiCount] else parts in
      (parts ++ [numberWord 10], num mod 10)
    else (parts, num) in
  if 0 <? num then parts ++ [numberWord num] else parts.

(** The block of [numberToPinyin] for ten thousands: the parts and what is
    left of the number. *)
Definition wanBlock (called : Z -> option jsstring) (num : Z)
  : option (list jsstring * Z) :=
  if 10000 <=? num then
    let wanCount := num / 10000 in
    parts ←
      (if (1 <? wanCount) || (20000 <=? num)
       then (fun w => [w]) <$> called wanCount
       else Some []);
    let parts := parts ++ [numberWord 10000] in
    let num := num mod 10000 in
    let parts := if (0 <? num) && (num <? 1000) then parts ++ [numberWord 0] else parts in
    Some (parts, num)
  else Some ([], num).

(** [numberToPinyin] for an integer the host holds exactly (below 2^53 in
    magnitude); one unit of [fuel] for each call, [None] when it runs out. *)
Fixpoint numberToPinyin_fuel (fuel : nat) (num : Z) : option jsstring :=
  match fuel with
  | O => None
  | S fuel' =>
      if num =? 0 then Some (numberWord 0)
      else if num <? 0 then
        (fun rest => py_fu ++ [0x20%N] ++ rest) <$> numberToPinyin_fuel fuel' (- num)
      else
        st ← wanBlock (numberToPinyin_fuel fuel') num;
        st ← unitBlock 1000 (numberWord 1000) (numberToPinyin_fuel fuel') st;
        st ← unitBlock 100 (numberWord 100) (numberToPinyin_fuel fuel') st;
        Some (join [0x20%N] (lowBlock st))
  end.

(** Calls nest no deeper than the number has bits, and once more for the
    sign. *)
Definition numberToPinyin (num : Z) : jsstring :=
  default [] (numberToPinyin_fuel (S (S (Z.to_nat (Z.log2 (Z.abs num))))) num).

(** [parseInt(match, 10)] on a run of digits, digit by digit, and
    [text.replace(/\d+/g, ..)]: [run] is the value of the digits of the run
    under way. *)
Fixpoint convertNumbers_go (run : option Z) (text : jsstring) : jsstring :=
  let flush := match run with
               | Some n => numberToPinyin n
               | None => []
               end in
  match text with
  | [] => flush
  | c :: text' =>
      if isDigit c
      then convertNumbers_go (Some (10 * default 0 run + parseDigit c)) text'
      else flush ++ c :: convertNumbers_go None text'
  end.

Definition convertNumbersInText (text : jsstring) : jsstring :=
  convertNumbers_go None text.

(** ** Reading a number back *)

(** The value of a digit word, 0 for any other word. *)
Definition digitValue (w : jsstring) : Z :=
  if decide (w = py_yi) then 1 else if decide (w = py_er) then 2
  else if decide (w = py_san) then 3 else if decide (w = py_si) then 4
  else if decide (w = py_wu) then 5 else if decide (w = py_liu) then 6
  else if decide (w = py_qi) then 7 else if decide (w = py_ba) then 8
  else if decide (w = py_jiu) then 9 else 0.

(** Reading the words of a number from left to right: [(total, digit)]
    holds what is settled and the digit waiting for its unit. *)
Definition readStep (st : Z * Z) (w : jsstring) : Z * Z :=
  let '(total, digit) := st in
  if decide (w = py_shi) then (total + (if digit =? 0 then 1 else digit) * 10, 0)
  else if decide (w = py_bai) then (total + digit * 100, 0)
  else if decide (w = py_qian) then (total + digit * 1000, 0)
  else if decide (w = py_wan)
       then ((if total + digit =? 0 then 1 else total + digit) * 10000, 0)
  else if decide (w = py_ling) then (total, digit)
  else (total, digitValue w).

Definition readWords (words : list jsstring) : Z :=
  let '(total, digit) := fold_left readStep words (0, 0) in total + digit.

Definition readNumber (s : jsstring) : Z := readWords (split_ws s).

(** The words of the table. *)
Definition numberWords : list jsstring :=
  [py_ling; py_yi; py_er; py_san; py_si; py_wu; py_liu; py_qi; py_ba; py_jiu;
   py_shi; py_bai; py_qian; py_wan].

Lemma numberWord_digit d :
  1 <= d <= 9 ->
  numberWord d ∈ numberWords /\ numberWord d <> []
  /\ numberPinyin (numberToJSON d) = Some (numberWord d)
  /\ forall t c, readStep (t, c) (numberWord d) = (t, d).
Proof.
  intros Hd.
  assert (d = 1 \/ d = 2 \/ d = 3 \/ d = 4 \/ d = 5 \/ d = 6 \/ d = 7 \/ d = 8 \/ d = 9)
    as Hc by lia.
  destruct Hc as [->|[->|[->|[->|[->|[->|[->|[->| ->]]]]]]]];
    (split; [unfold numberWords; rewrite !elem_of_cons; vm_compute; tauto|]);
    (split; [discriminate|]); (split; [reflexivity|]); intros t c; reflexivity.
Qed.

Lemma join_cons sep x xs :
  xs <> [] -> join sep (x :: xs) = x ++ sep ++ join sep xs.
Proof. destruct xs; [contradiction | reflexivity]. Qed.

Lemma join_app sep (A B : list jsstring) :
  A <> [] -> B <> [] -> join sep (A ++ B) = join sep A ++ sep ++ join sep B.
Proof.
  intros HA HB. induction A as [|x A IH]; [contradiction|].
  destruct A as [|y A].
  - cbn [app]. rewrite join_cons by exact HB. reflexivity.
  - change ((x :: y :: A) ++ B) with (x :: (y :: A) ++ B).
    rewrite !join_cons by discriminate. rewrite IH by discriminate.
    rewrite <- !app_assoc. reflexivity.
Qed.

Lemma join_nested sep (W rest : list jsstring) :
  W <> [] -> join sep (join sep W :: rest) = join sep (W ++ rest).
Proof.
  intros HW. destruct rest as [|r rest]; [rewrite app_nil_r; reflexivity|].
  rewrite join_cons by discriminate. rewrite join_app by (auto; discriminate).
  reflexivity.
Qed.

(** Read after a settled state, the words [L] add [amount] to the total and
    leave [digit] waiting. *)
Definition blockReads (L : list jsstring) (amount digit : Z) : Prop :=
  Forall (fun w => w ∈ numberWords) L
  /\ forall t, fold_left readStep L (t, 0) = (t + amount, digit).

Lemma blockReads_nil : blockReads [] 0 0.
Proof. split; [constructor|]. intros t. cbn [fold_left]. f_equal. lia. Qed.

Lemma blockReads_app L1 a1 L2 a2 c2 :
  blockReads L1 a1 0 -> blockReads L2 a2 c2 -> blockReads (L1 ++ L2) (a1 + a2) c2.
Proof.
  intros [F1 R1] [F2 R2]. split; [apply Forall_app; auto|].
  intros t. rewrite fold_left_app, R1, R2. f_equal. lia.
Qed.

Ltac in_numberWords :=
  unfold numberWords;
  repeat first [apply list_elem_of_here | apply list_elem_of_further].

Lemma unitBlock_reads unit called parts num :
  unit = 1000 \/ unit = 100 -> 0 <= num < 10 * unit ->
  exists L,
    unitBlock unit (numberWord unit) called (parts, num) = Some (parts ++ L, num mod unit)
    /\ blockReads L (num / unit * unit) 0.
Proof.
  intros Hunit Hnum. unfold unitBlock.
  destruct (Z.leb_spec unit num) as [Hge|Hlt].
  - assert (1 <= num / unit <= 9) as Hcount.
    { split; [apply Z.div_le_lower_bound; lia | apply Z.lt_succ_r, Z.div_lt_upper_bound; lia]. }
    destruct (numberWord_digit _ Hcount) as (Hin & Hne & Htab & Hread).
    set (count := num / unit) in *. set (r := num mod unit).
    assert (exists counted,
              (if 1 <? count
               then (fun w => parts ++ [w]) <$> numberWordOr count (called count)
               else if count =? 1 then Some (parts ++ [numberWord 1]) else Some parts)
              = Some (parts ++ [counted])
              /\ counted = numberWord count) as (counted & -> & ->).
    { exists (numberWord count). split; [|reflexivity].
      destruct (Z.ltb_spec 1 count) as [Hmany|Hone].
      - unfold numberWordOr. rewrite Htab. destruct (numberWord count); [contradiction|].
        reflexivity.
      - replace count with 1 by lia. reflexivity. }
    cbn [mbind option_bind].
    exists ([numberWord count; numberWord unit]
            ++ (if (0 <? r) && (r <? unit / 10) then [numberWord 0] else [])).
    split.
    + destruct ((0 <? r) && (r <? unit / 10)); rewrite <- ?app_assoc; reflexivity.
    + replace (count * unit) with (count * unit + 0) by lia. apply blockReads_app.
      * split.
        { constructor; [exact Hin|]. constructor; [|constructor].
          destruct Hunit as [-> | ->]; in_numberWords. }
        { intros t. cbn [fold_left]. rewrite Hread.
          destruct Hunit as [-> | ->]; reflexivity. }
      * destruct ((0 <? r) && (r <? unit / 10)); [|apply blockReads_nil].
        split; [constructor; [in_numberWords | constructor]|].
        intros t. cbn [fold_left]. change (numberWord 0) with py_ling.
        cbn. f_equal. lia.
  - exists []. rewrite app_nil_r, Z.mod_small, Z.div_small by lia.
    split; [reflexivity | apply blockReads_nil].
Qed.

Lemma lowBlock_reads parts num :
  0 <= num < 100 ->
  exists L a c, lowBlock (parts, num) = parts ++ L /\ blockReads L a c /\ a + c = num.
Proof.
  intros Hnum. unfold lowBlock. cbv beta iota zeta.
  assert (exists T, (if 10 <=? num
                     then ((if 1 <? num / 10 then parts ++ [numberWord (num / 10)]
                            else parts) ++ [numberWord 10], num mod 10)
                     else (parts, num))
                    = (parts ++ T, num mod 10)
                    /\ blockReads T (num / 10 * 10) 0) as (T & -> & HT).
  { destruct (Z.leb_spec 10 num) as [Hge|Hlt].
    - assert (1 <= num / 10 <= 9) as Hs.
      { split; [apply Z.div_le_lower_bound; lia
               | apply Z.lt_succ_r, Z.div_lt_upper_bound; lia]. }
      destruct (numberWord_digit _ Hs) as (Hin & _ & _ & Hread).
      set (s := num / 10) in *.
      destruct (Z.ltb_spec 1 s) as [Hmany|Hone].
      + exists [numberWord s; numberWord 10]. split; [rewrite <- app_assoc; reflexivity|].
        split; [constructor; [exact Hin|]; constructor; [in_numberWords | constructor]|].
        intros t. cbn [fold_left]. rewrite Hread. change (numberWord 10) with py_shi.
        unfold readStep. cbn [decide]. rewrite decide_True by reflexivity.
        rewrite (proj2 (Z.eqb_neq s 0)) by lia. reflexivity.
      + exists [numberWord 10]. split; [reflexivity|].
        split; [constructor; [in_numberWords | constructor]|].
        intros t. cbn [fold_left]. replace s with 1 by lia. reflexivity.
    - exists []. rewrite app_nil_r, Z.mod_small, Z.div_small by lia.
      split; [reflexivity | apply blockReads_nil]. }
  assert (0 <= num mod 10 < 10) as Hu by (apply Z.mod_pos_bound; lia).
  pose proof (Z.div_mod num 10 ltac:(lia)) as Hdm.
  destruct (Z.ltb_spec 0 (num mod 10)) as [Hpos|Hzero].
  - destruct (numberWord_digit (num mod 10) ltac:(lia)) as (Hin & _ & _ & Hread).
    exists (T ++ [numberWord (num mod 10)]), (num / 10 * 10 + 0), (num mod 10).
    split; [rewrite app_assoc; reflexivity|]. split; [|lia].
    apply blockReads_app; [exact HT|].
    split; [constructor; [exact Hin | constructor]|]. intros t. cbn [fold_left].
    rewrite Hread. f_equal. lia.
  - exists T, (num / 10 * 10), 0. split; [reflexivity|]. split; [exact HT | lia].
Qed.

Lemma log2_of_quotient num :
  10000 <= num -> (Z.to_nat (Z.log2 (num / 10000)) < Z.to_nat (Z.log2 num))%nat.
Proof.
  intros Hnum.
  assert (1 <= num / 10000) as Hq by (apply Z.div_le_lower_bound; lia).
  pose proof (Z.log2_spec num ltac:(lia)) as [Hlo Hhi].
  pose proof (Z.log2_nonneg num) as Hl. pose proof (Z.log2_nonneg (num / 10000)) as Hlq.
  rewrite Z.pow_succ_r in Hhi by exact Hl.
  assert (num / 10000 < 2 ^ Z.log2 num) as Hlt.
  { pose proof (Z.mul_div_le num 10000 ltac:(lia)). lia. }
  apply Z.log2_lt_pow2 in Hlt; lia.
Qed.

(** The words [W] that stand for the parts [P] of the block for ten
    thousands. *)
Lemma wanBlock_reads called num :
  0 < num ->
  (10000 <= num ->
   exists W t c, called (num / 10000) = Some (join [0x20%N] W)
                 /\ Forall (fun w => w ∈ numberWords) W
                 /\ fold_left readStep W (0, 0) = (t, c) /\ t + c = num / 10000) ->
  exists P W,
    wanBlock called num = Some (P, num mod 10000)
    /\ Forall (fun w => w ∈ numberWords) W
    /\ fold_left readStep W (0, 0) = (num / 10000 * 10000, 0)
    /\ forall rest, join [0x20%N] (P ++ rest) = join [0x20%N] (W ++ rest).
Proof.
  intros Hpos Hcall. unfold wanBlock.
  destruct (Z.leb_spec 10000 num) as [Hge|Hlt].
  - destruct (Hcall Hge) as (W & t & c & Hrun & HW & Hfold & Hsum).
    set (m := num mod 10000). set (q := num / 10000) in *.
    assert (1 <= q) as Hq by (apply Z.div_le_lower_bound; lia).
    set (tail := [numberWord 10000]
                 ++ (if (0 <? m) && (m <? 1000) then [numberWord 0] else [])).
    assert (forall t0 c0, t0 + c0 <> 0 ->
              fold_left readStep tail (t0, c0) = ((t0 + c0) * 10000, 0)) as Htail.
    { intros t0 c0 Hne. subst tail. change (numberWord 10000) with py_wan.
      change (numberWord 0) with py_ling. cbn [app fold_left].
      assert (readStep (t0, c0) py_wan = ((t0 + c0) * 10000, 0)) as ->.
      { unfold readStep. cbn [decide]. rewrite (proj2 (Z.eqb_neq (t0 + c0) 0)) by exact Hne.
        reflexivity. }
      destruct ((0 <? m) && (m <? 1000)); reflexivity. }
    assert (Forall (fun w => w ∈ numberWords) tail) as Htok.
    { subst tail. destruct ((0 <? m) && (m <? 1000));
        repeat (constructor; [in_numberWords|]); constructor. }
    destruct ((1 <? q) || (20000 <=? num)) eqn:Hmany.
    + rewrite Hrun. cbn [fmap option_fmap option_map mbind option_bind].
      assert (W <> []) as HWne.
      { intros ->. cbn in Hfold. injection Hfold as <- <-. lia. }
      exists (join [0x20%N] W :: tail), (W ++ tail). split.
      { subst tail. destruct ((0 <? m) && (m <? 1000)); reflexivity. }
      split; [apply Forall_app; auto|]. split.
      { rewrite fold_left_app, Hfold, Htail by lia. rewrite Hsum. reflexivity. }
      intros rest. cbn [app]. rewrite join_nested by exact HWne.
      rewrite <- app_assoc. reflexivity.
    + cbn [mbind option_bind app].
      assert (q = 1) as Hone.
      { apply orb_false_iff in Hmany. destruct Hmany as [H1 H2].
        apply Z.ltb_ge in H1. lia. }
      exists tail, tail. split.
      { subst tail. destruct ((0 <? m) && (m <? 1000)); reflexivity. }
      split; [exact Htok|]. split; [|reflexivity].
      subst tail. change (numberWord 10000) with py_wan.
      change (numberWord 0) with py_ling. rewrite Hone.
      destruct ((0 <? m) && (m <? 1000)); reflexivity.
  - exists [], []. rewrite Z.mod_small, Z.div_small by lia.
    split; [reflexivity|]. split; [constructor|]. split; reflexivity.
Qed.

Lemma numberToPinyin_fuel_reads fuel num :
  0 < num -> (Z.to_nat (Z.log2 num) < fuel)%nat ->
  exists words total digit,
    numberToPinyin_fuel fuel num = Some (join [0x20%N] words)
    /\ Forall (fun w => w ∈ numberWords) words
    /\ fold_left readStep words (0, 0) = (total, digit)
    /\ total + digit = num.
Proof.
  revert num. induction fuel as [|fuel IH]; intros num Hpos Hfuel; [lia|].
  cbn [numberToPinyin_fuel].
  rewrite (proj2 (Z.eqb_neq num 0)) by lia. rewrite (proj2 (Z.ltb_ge num 0)) by lia.
  destruct (wanBlock_reads (numberToPinyin_fuel fuel) num Hpos)
    as (P & W & -> & HW & HfoldW & Hjoin).
  { intros Hge. apply IH; [apply Z.div_str_pos; lia|].
    pose proof (log2_of_quotient num Hge). lia. }
  cbn [mbind option_bind].
  set (m := num mod 10000).
  assert (0 <= m < 10000) as Hm by (apply Z.mod_pos_bound; lia).
  destruct (unitBlock_reads 1000 (numberToPinyin_fuel fuel) P m (or_introl eq_refl)
              ltac:(lia)) as (Lq & -> & Hq).
  cbn [mbind option_bind].
  assert (0 <= m mod 1000 < 1000) as Hm1 by (apply Z.mod_pos_bound; lia).
  destruct (unitBlock_reads 100 (numberToPinyin_fuel fuel) (P ++ Lq) (m mod 1000)
              (or_intror eq_refl) ltac:(lia)) as (Lb & -> & Hb).
  cbn [mbind option_bind].
  assert (0 <= (m mod 1000) mod 100 < 100) as Hm2 by (apply Z.mod_pos_bound; lia).
  destruct (lowBlock_reads ((P ++ Lq) ++ Lb) ((m mod 1000) mod 100) Hm2)
    as (Ll & a & c & -> & Hl & Hsum).
  exists (W ++ Lq ++ Lb ++ Ll), (num / 10000 * 10000 + m / 1000 * 1000
                                 + (m mod 1000) / 100 * 100 + a), c.
  split; [rewrite <- !app_assoc; f_equal; apply Hjoin|].
  destruct Hq as [Fq Rq], Hb as [Fb Rb], Hl as [Fl Rl].
  split; [repeat (apply Forall_app; split); assumption|].
  split; [rewrite !fold_left_app, HfoldW, Rq, Rb, Rl; reflexivity|].
  pose proof (Z.div_mod num 10000 ltac:(lia)).
  pose proof (Z.div_mod m 1000 ltac:(lia)).
  pose proof (Z.div_mod (m mod 1000) 100 ltac:(lia)).
  fold m in H. lia.
Qed.

Lemma split_ws_go_word b cur w rest :
  w <> [] -> Forall (fun c => isWhiteSpace c = false) w ->
  split_ws_go b cur (w ++ rest) = split_ws_go false (rev w ++ cur) rest.
Proof.
  intros Hne Hw. revert b cur. induction Hw as [|c w Hc Hw IH]; [contradiction|].
  intros b cur. cbn [app split_ws_go]. rewrite Hc.
  destruct w as [|c2 w]; [reflexivity|].
  rewrite IH by discriminate. cbn [rev]. rewrite <- !app_assoc. reflexivity.
Qed.

Lemma split_ws_go_join b words :
  words <> [] ->
  Forall (fun w => w <> [] /\ Forall (fun c => isWhiteSpace c = false) w) words ->
  split_ws_go b [] (join [0x20%N] words) = words.
Proof.
  intros Hne Hall. revert b. induction Hall as [|w words [Hw1 Hw2] Hall IH];
    [contradiction|].
  intros b. destruct words as [|w2 words].
  - cbn [join]. rewrite <- (app_nil_r w) at 1. rewrite split_ws_go_word by assumption.
    cbn [split_ws_go]. rewrite app_nil_r, rev_involutive. reflexivity.
  - rewrite join_cons by discriminate. rewrite split_ws_go_word by assumption.
    cbn [app split_ws_go]. change (isWhiteSpace 0x20%N) with true. cbn iota.
    rewrite app_nil_r, rev_involutive, IH by discriminate. reflexivity.
Qed.

Lemma numberWords_plain w :
  w ∈ numberWords ->
  w <> [] /\ Forall (fun c => isWhiteSpace c = false) w
  /\ Forall (fun c => isDigit c = false) w.
Proof.
  unfold numberWords. rewrite !elem_of_cons, elem_of_nil.
  intros H. repeat (destruct H as [->|H]; [split; [discriminate|];
                                           split; repeat constructor|]).
  contradiction.
Qed.

Lemma numberToPinyin_words num :
  0 < num ->
  exists words,
    numberToPinyin num = join [0x20%N] words
    /\ words <> [] /\ Forall (fun w => w ∈ numberWords) words
    /\ readWords words = num.
Proof.
  intros Hpos. unfold numberToPinyin.
  destruct (numberToPinyin_fuel_reads (S (S (Z.to_nat (Z.log2 (Z.abs num))))) num Hpos)
    as (words & t & c & -> & Hok & Hfold & Hsum).
  { rewrite Z.abs_eq by lia. lia. }
  exists words. split; [reflexivity|]. split.
  - intros ->. cbn in Hfold. injection Hfold as <- <-. lia.
  - split; [exact Hok|]. unfold readWords. rewrite Hfold. exact Hsum.
Qed.

Lemma numberToPinyin_spelled n :
  0 <= n ->
  exists words,
    numberToPinyin n = join [0x20%N] words
    /\ words <> [] /\ Forall (fun w => w ∈ numberWords) words
    /\ split_ws (numberToPinyin n) = words
    /\ readWords words = n.
Proof.
  intros Hn. destruct (Z.eq_dec n 0) as [->|Hne].
  - exists [py_ling]. split; [reflexivity|]. split; [discriminate|].
    split; [constructor; [in_numberWords | constructor]|]. split; reflexivity.
  - destruct (numberToPinyin_words n ltac:(lia)) as (words & E & Hne' & Hok & Hread).
    exists words. split; [exact E|]. split; [exact Hne'|]. split; [exact Hok|].
    split; [|exact Hread]. rewrite E. apply split_ws_go_join; [exact Hne'|].
    eapply Forall_impl; [exact Hok|]. intros w Hw.
    destruct (numberWords_plain w Hw) as (H1 & H2 & _). auto.
Qed.

Lemma numberToPinyin_no_digit n :
  0 <= n -> Forall (fun c => isDigit c = false) (numberToPinyin n).
Proof.
  intros Hn. destruct (numberToPinyin_spelled n Hn) as (words & -> & _ & Hok & _).
  apply Forall_join; [reflexivity|].
  eapply Forall_impl; [exact Hok|]. intros w Hw. apply (numberWords_plain w Hw).
Qed.

(** A number is read back from its pinyin: for every integer from 0 up,
    [numberToPinyin] returns, with words of the table only, set apart by
    single spaces and without an ASCII digit, a text from which reading the
    words from left to right gives the number again.  So different numbers
    get different texts. *)
Theorem numberToPinyin_reads_back (num : Z) :
  0 <= num < 2 ^ 53 ->
  (exists words,
     numberToPinyin num = join [0x20%N] words
     /\ words <> [] /\ Forall (fun w => w ∈ numberWords) words
     /\ split_ws (numberToPinyin num) = words)
  /\ Forall (fun c => isDigit c = false) (numberToPinyin num)
  /\ readNumber (numberToPinyin num) = num
  /\ forall other, 0 <= other < 2 ^ 53 ->
       numberToPinyin other = numberToPinyin num -> other = num.
Proof.
  assert (forall n, 0 <= n -> readNumber (numberToPinyin n) = n) as Hback.
  { intros n Hn. destruct (numberToPinyin_spelled n Hn) as (words & _ & _ & _ & Hsplit & Hread).
    unfold readNumber. rewrite Hsplit. exact Hread. }
  intros [Hnum _].
  destruct (numberToPinyin_spelled num Hnum) as (words & E & Hne & Hok & Hsplit & _).
  split; [exists words; auto|]. split; [apply numberToPinyin_no_digit, Hnum|].
  split; [apply Hback, Hnum|]. intros other [Hother _] Heq.
  rewrite <- (Hback other Hother), Heq. apply Hback, Hnum.
Qed.

Lemma numberToPinyin_reads_back_witness :
  0 <= 20305 < 2 ^ 53
  /\ numberToPinyin 20305
     = join [0x20%N] [py_er; py_wan; py_ling; py_san; py_bai; py_ling; py_wu]
  /\ readNumber (numberToPinyin 20305) = 20305.
Proof.
  assert (0 <= 20305 < 2 ^ 53) as Hnum by (split; [lia | reflexivity]).
  split; [exact Hnum|]. split; [vm_compute; reflexivity|].
  destruct (numberToPinyin_reads_back 20305 Hnum) as (_ & _ & Hback & _). exact Hback.
Defined.

Lemma convertNumbers_go_digits run text :
  (forall n, run = Some n -> 0 <= n) ->
  Forall (fun c => isDigit c = false) (convertNumbers_go run text).
Proof.
  revert run. induction text as [|c text IH]; intros run Hrun; cbn [convertNumbers_go].
  - destruct run as [n|]; [|constructor].
    apply (numberToPinyin_no_digit n (Hrun n eq_refl)).
  - destruct (isDigit c) eqn:Hc.
    + apply IH. intros n [= <-].
      assert (0 <= default 0 run) as H0.
      { destruct run as [n|]; [apply (Hrun n eq_refl) | cbn; lia]. }
      revert Hc. unfold isDigit, parseDigit. intros Hc. unit_facts Hc. lia.
    + apply Forall_app. split.
      * destruct run as [n|]; [|constructor].
        apply (numberToPinyin_no_digit n (Hrun n eq_refl)).
      * constructor; [exact Hc|]. apply IH. discriminate.
Qed.

Lemma convertNumbers_go_plain text :
  Forall (fun c => isDigit c = false) text -> convertNumbers_go None text = text.
Proof.
  induction 1 as [|c text Hc _ IH]; [reflexivity|]. cbn [convertNumbers_go].
  rewrite Hc, IH. reflexivity.
Qed.

(** The value of a run of digits, as [parseInt] reads it. *)
Definition digitsValue (digits : jsstring) : Z :=
  fold_left (fun n c => 10 * n + parseDigit c) digits 0.

Lemma convertNumbers_go_run digits n rest :
  Forall (fun c => isDigit c = true) digits ->
  match rest with c :: _ => isDigit c = false | [] => True end ->
  convertNumbers_go (Some n) (digits ++ rest)
  = numberToPinyin (fold_left (fun n c => 10 * n + parseDigit c) digits n)
    ++ convertNumbers_go None rest.
Proof.
  intros Hd Hrest. revert n. induction Hd as [|c digits Hc _ IH]; intros n.
  - cbn [app fold_left]. destruct rest as [|c rest]; cbn [convertNumbers_go].
    + rewrite app_nil_r. reflexivity.
    + rewrite Hrest. reflexivity.
  - cbn [app convertNumbers_go fold_left]. rewrite Hc. cbn [default]. apply IH.
Qed.

(** No run of digits of the text, continuing one of [current] digits, is
    longer than [limit]. *)
Fixpoint digitRunsWithin (limit current : nat) (text : jsstring) : bool :=
  match text with
  | [] => true
  | c :: text' =>
      if isDigit c
      then (S current <=? limit)%nat && digitRunsWithin limit (S current) text'
      else digitRunsWithin limit 0 text'
  end.

(** [convertNumbersInText] spells every number out.  For a text whose runs
    of digits have up to 15 digits (their values are held exactly): the
    result has no ASCII digit; a text without a digit is returned as it is;
    and a run of digits between two texts, the second not starting with a
    digit and the first without any, gives way to the pinyin of its value,
    leading zeros counting for nothing. *)
Theorem convertNumbersInText_spells_numbers (text : jsstring) :
  digitRunsWithin 15 0 text = true ->
  Forall (fun c => isDigit c = false) (convertNumbersInText text)
  /\ (Forall (fun c => isDigit c = false) text -> convertNumbersInText text = text)
  /\ forall before digits after,
       text = before ++ digits ++ after ->
       Forall (fun c => isDigit c = false) before ->
       digits <> [] -> Forall (fun c => isDigit c = true) digits ->
       match after with c :: _ => isDigit c = false | [] => True end ->
       convertNumbersInText text
       = before ++ numberToPinyin (digitsValue digits) ++ convertNumbersInText after.
Proof.
  intros _.
  split; [apply convertNumbers_go_digits; discriminate|].
  split; [apply convertNumbers_go_plain|].
  intros before digits after -> Hb Hne Hd Ha. unfold convertNumbersInText.
  induction Hb as [|c before Hc _ IH].
  - cbn [app]. destruct digits as [|d digits]; [contradiction|].
    cbn [app convertNumbers_go]. rewrite (Forall_inv Hd). cbn [default].
    rewrite convertNumbers_go_run; [reflexivity | apply (Forall_inv_tail Hd) | exact Ha].
  - cbn [app convertNumbers_go]. rewrite Hc, IH. reflexivity.
Qed.

Lemma convertNumbersInText_spells_numbers_witness :
  digitRunsWithin 15 0 (js "di4 12 ke4") = true
  /\ convertNumbersInText (js "di4 12 ke4")
     = js "di" ++ py_si ++ js " " ++ py_shi ++ js " " ++ py_er ++ js " ke" ++ py_si.
Proof.
  split; [reflexivity|].
  destruct (convertNumbersInText_spells_numbers (js "di4 12 ke4") eq_refl)
    as (_ & _ & Hrun).
  rewrite (Hrun (js "di") (js "4") (js " 12 ke4"));
    [vm_compute; reflexivity | reflexivity | repeat constructor | discriminate
    | repeat constructor | reflexivity].
Defined.


(** * Tone marks, syllable by syllable *)

(** A syllable: no white space in it. *)
Definition spaceFree (s : jsstring) : Prop := Forall (fun c => isWhiteSpace c = false) s.

(** Pieces as [split(/\s+/)] leaves them after the first: without white
    space, and only the last may be empty. *)
Fixpoint laterPieces (pieces : list jsstring) : Prop :=
  match pieces with
  | [] => True
  | x :: rest => spaceFree x /\ (rest <> [] -> x <> []) /\ laterPieces rest
  end.

Lemma takeWhile_dropWhile {A} (f : A -> bool) (l : list A) :
  takeWhile f l ++ dropWhile f l = l.
Proof.
  induction l as [|c l IH]; [reflexivity|]. cbn [takeWhile dropWhile].
  destruct (f c); [|reflexivity]. cbn [app]. rewrite IH. reflexivity.
Qed.

Lemma split_ws_go_pieces s :
  (forall cur, spaceFree cur ->
     exists x T, split_ws_go false cur s = x :: T
                 /\ spaceFree x /\ (cur <> [] -> x <> []) /\ laterPieces T)
  /\ (laterPieces (split_ws_go true [] s) /\ split_ws_go true [] s <> []).
Proof.
  induction s as [|c s [IHf IHt]].
  - split.
    + intros cur Hcur. exists (rev cur), []. split; [reflexivity|].
      split; [apply Forall_forall; intros x Hx; unfold spaceFree in Hcur;
              rewrite Forall_forall in Hcur;
              apply Hcur, list_elem_of_In, in_rev, list_elem_of_In, Hx|].
      split; [|exact I]. intros Hne E. apply Hne.
      apply (f_equal (@rev N)) in E. rewrite rev_involutive in E. exact E.
    + split; [|discriminate]. cbn. split; [constructor|]. split; [contradiction | exact I].
  - cbn [split_ws_go]. destruct (isWhiteSpace c) eqn:Hc.
    + split; [|exact IHt]. intros cur Hcur.
      exists (rev cur), (split_ws_go true [] s). split; [reflexivity|].
      split; [apply Forall_forall; intros x Hx; unfold spaceFree in Hcur;
              rewrite Forall_forall in Hcur;
              apply Hcur, list_elem_of_In, in_rev, list_elem_of_In, Hx|].
      split; [|apply IHt]. intros Hne E. apply Hne.
      apply (f_equal (@rev N)) in E. rewrite rev_involutive in E. exact E.
    + assert (forall cur, spaceFree cur ->
                exists x T, split_ws_go false (c :: cur) s = x :: T
                            /\ spaceFree x /\ x <> [] /\ laterPieces T) as Hstep.
      { intros cur Hcur. destruct (IHf (c :: cur)) as (x & T & E & Hx & Hne & HT).
        - constructor; assumption.
        - exists x, T. split; [exact E|]. split; [exact Hx|].
          split; [apply Hne; discriminate | exact HT]. }
      split.
      * intros cur Hcur. destruct (Hstep cur Hcur) as (x & T & E & Hx & Hne & HT).
        exists x, T. auto.
      * destruct (Hstep [] ltac:(constructor)) as (x & T & -> & Hx & Hne & HT).
        split; [|discriminate]. cbn [laterPieces]. auto.
Qed.

Lemma split_ws_pieces s :
  exists x T, split_ws s = x :: T /\ spaceFree x /\ laterPieces T.
Proof.
  destruct (proj1 (split_ws_go_pieces s) [] ltac:(constructor)) as (x & T & E & Hx & _ & HT).
  exists x, T. auto.
Qed.

Lemma split_ws_go_later pieces :
  laterPieces pieces -> pieces <> [] ->
  split_ws_go true [] (join [0x20%N] pieces) = pieces.
Proof.
  induction pieces as [|y pieces IH]; [contradiction|].
  intros (Hy & Hne & Hrest) _. destruct pieces as [|y2 pieces].
  - cbn [join]. destruct y as [|c y]; [reflexivity|].
    rewrite <- (app_nil_r (c :: y)) at 1.
    rewrite split_ws_go_word by (auto; discriminate).
    cbn [split_ws_go]. rewrite app_nil_r, rev_involutive. reflexivity.
  - rewrite join_cons by discriminate.
    rewrite split_ws_go_word by (auto; apply Hne; discriminate).
    cbn [app split_ws_go]. change (isWhiteSpace 0x20%N) with true. cbn iota.
    rewrite app_nil_r, rev_involutive, IH by (auto; discriminate). reflexivity.
Qed.

Lemma split_ws_join_pieces x T :
  spaceFree x -> laterPieces T -> split_ws (join [0x20%N] (x :: T)) = x :: T.
Proof.
  intros Hx HT. unfold split_ws. destruct T as [|y T].
  - cbn [join]. destruct x as [|c x]; [reflexivity|].
    rewrite <- (app_nil_r (c :: x)) at 1.
    rewrite split_ws_go_word by (auto; discriminate).
    cbn [split_ws_go]. rewrite app_nil_r, rev_involutive. reflexivity.
  - rewrite join_cons by discriminate. destruct x as [|c x].
    + cbn [app split_ws_go]. change (isWhiteSpace 0x20%N) with true. cbn iota.
      rewrite split_ws_go_later by (auto; discriminate). reflexivity.
    + rewrite split_ws_go_word by (auto; discriminate).
      cbn [app split_ws_go]. change (isWhiteSpace 0x20%N) with true. cbn iota.
      rewrite app_nil_r, rev_involutive.
      rewrite split_ws_go_later by (auto; discriminate). reflexivity.
Qed.

Lemma matchSyllable_inv s letters dgo :
  matchSyllable s = Some (letters, dgo) ->
  letters <> [] /\ Forall (fun c => isPinyinLetter c = true) letters
  /\ s = letters ++ match dgo with Some dg => [dg] | None => [] end
  /\ (forall dg, dgo = Some dg -> isDigit dg = true).
Proof.
  unfold matchSyllable. cbv zeta.
  pose proof (takeWhile_all isPinyinLetter s) as Hall.
  pose proof (takeWhile_dropWhile isPinyinLetter s) as Hs.
  destruct (takeWhile isPinyinLetter s) as [|l0 ls]; [discriminate|].
  destruct (dropWhile isPinyinLetter s) as [|d [|d2 rest]].
  - intros [= <- <-]. split; [discriminate|]. split; [exact Hall|].
    split; [symmetry; exact Hs | discriminate].
  - destruct (isDigit d) eqn:Hd; [|discriminate]. intros [= <- <-].
    split; [discriminate|]. split; [exact Hall|]. split; [symmetry; exact Hs|].
    intros dg [= <-]. exact Hd.
  - discriminate.
Qed.

Lemma mark_single v tone (upper : bool) :
  v ∈ toneVowels -> 1 <= tone <= 5 ->
  exists x,
    (if upper then toUpperCase (toneForm v tone) else toneForm v tone) = [x]
    /\ plainUnit x = true.
Proof.
  intros Hv Ht. unfold toneVowels in Hv. rewrite !elem_of_cons, elem_of_nil in Hv.
  assert (tone = 1 \/ tone = 2 \/ tone = 3 \/ tone = 4 \/ tone = 5) as Hc by lia.
  destruct Hc as [->|[->|[->|[->| ->]]]];
    destruct Hv as [->|[->|[->|[->|[->|[->|[->|[]]]]]]]];
    destruct upper; eexists; (split; [vm_compute; reflexivity | reflexivity]).
Qed.

Lemma letters_spaceFree letters :
  Forall (fun c => isPinyinLetter c = true) letters -> spaceFree letters.
Proof.
  intros H. eapply Forall_impl; [exact H|]. intros c Hc.
  apply isPinyinLetter_not_space, Hc.
Qed.

Lemma convertSyllable_letters letters :
  letters <> [] -> Forall (fun c => isPinyinLetter c = true) letters ->
  convertSyllable letters = letters.
Proof.
  intros Hne Hall. unfold convertSyllable.
  rewrite (matchSyllable_letters letters Hne Hall). reflexivity.
Qed.

(** A syllable with a unit in it that is no letter, followed by more or by
    something that is no digit, is left as it is. *)
Lemma convertSyllable_marked pre x post :
  Forall (fun c => isPinyinLetter c = true) pre ->
  isPinyinLetter x = false -> isDigit x = false ->
  convertSyllable (pre ++ x :: post) = pre ++ x :: post.
Proof.
  intros Hpre Hx Hd. unfold convertSyllable, matchSyllable. cbv zeta.
  destruct (takeWhile_stop isPinyinLetter pre x post Hpre Hx) as [-> ->].
  destruct pre; [reflexivity|]. destruct post; [rewrite Hd|]; reflexivity.
Qed.

Lemma convertSyllable_settles s :
  spaceFree s ->
  spaceFree (convertSyllable s)
  /\ (s <> [] -> convertSyllable s <> [])
  /\ convertSyllable (convertSyllable s) = convertSyllable s.
Proof.
  intros Hs.
  destruct (matchSyllable s) as [[letters dgo]|] eqn:Em.
  2:{ assert (convertSyllable s = s) as E by (unfold convertSyllable; rewrite Em; reflexivity).
      rewrite !E. auto. }
  destruct (matchSyllable_inv s letters dgo Em) as (Hne & Hall & Hshape & Hdg).
  destruct dgo as [dg|].
  2:{ rewrite app_nil_r in Hshape. subst s.
      rewrite !(convertSyllable_letters letters Hne Hall). auto. }
  specialize (Hdg dg eq_refl).
  destruct ((parseDigit dg <? 1) || (5 <? parseDigit dg)) eqn:Hrange.
  { assert (convertSyllable s = s) as E
      by (unfold convertSyllable; rewrite Em, Hrange; reflexivity).
    rewrite !E. auto. }
  apply orb_false_iff in Hrange. destruct Hrange as [H1 H5].
  apply Z.ltb_ge in H1, H5.
  assert (dg = toneDigit (parseDigit dg)) as Hdigit.
  { unfold toneDigit, parseDigit in *. revert Hdg. unfold isDigit. intros Hdg.
    unit_facts Hdg. lia. }
  set (tone := parseDigit dg) in *.
  assert (convertSyllable s
          = match chosenVowel letters with
            | Some v => placeMark v (toneForm v tone) letters
            | None => letters
            end) as E.
  { rewrite Hshape, Hdigit. apply convertSyllable_tone; [assumption..|lia]. }
  rewrite !E. destruct (chosenVowel letters) as [v|] eqn:Ev.
  2:{ rewrite (convertSyllable_letters letters Hne Hall).
      split; [apply letters_spaceFree, Hall | auto]. }
  destruct (chosenVowel_facts _ _ Ev) as [Hv Hin].
  rewrite (toLowerCase_pinyin letters Hall) in Hin.
  destruct (placeMark_shape v (toneForm v tone) letters Hin) as (pre & post & -> & Hsub).
  destruct (mark_single v tone (markedUpper v letters) Hv ltac:(lia)) as (x & -> & Hx).
  destruct (plainUnit_facts x Hx) as (Hxw & Hxd & _).
  assert (Forall (fun c => isPinyinLetter c = true) pre
          /\ Forall (fun c => isPinyinLetter c = true) post) as [Hpre Hpost].
  { split; apply Forall_forall; intros c Hc; rewrite Forall_forall in Hall;
      apply Hall, Hsub, elem_of_app; auto. }
  split; [|split].
  - apply Forall_app. split; [apply letters_spaceFree, Hpre|].
    constructor; [exact Hxw | apply letters_spaceFree, Hpost].
  - intros _ E'. apply app_eq_nil in E'. destruct E' as [_ E']. discriminate.
  - cbn [app]. destruct (isPinyinLetter x) eqn:Hxl.
    + apply convertSyllable_letters.
      * intros E'. apply app_eq_nil in E'. destruct E' as [_ E']. discriminate.
      * apply Forall_app. split; [exact Hpre|]. constructor; assumption.
    + apply convertSyllable_marked; assumption.
Qed.

Lemma laterPieces_map (f : jsstring -> jsstring) pieces :
  (forall s, spaceFree s -> spaceFree (f s) /\ (s <> [] -> f s <> [])) ->
  laterPieces pieces -> laterPieces (map f pieces).
Proof.
  intros Hf. induction pieces as [|x rest IH]; [auto|].
  cbn [laterPieces map]. intros (Hx & Hne & Hrest).
  destruct (Hf x Hx) as [Hfx Hfne].
  split; [exact Hfx|]. split; [|apply IH, Hrest].
  intros Hmap. apply Hfne, Hne. intros ->. apply Hmap. reflexivity.
Qed.

(** [numericToToneMark] converts each syllable on its own and settles at
    once: syllables set apart by single spaces are converted one by one, a
    text of any kind is converted into a text that another conversion leaves
    as it is, and so is every syllable. *)
Theorem numericToToneMark_settles (pinyin : jsstring) :
  numericToToneMark (numericToToneMark pinyin) = numericToToneMark pinyin
  /\ (forall first others,
        spaceFree first -> laterPieces others ->
        numericToToneMark (join [0x20%N] (first :: others))
        = join [0x20%N] (map convertSyllable (first :: others)))
  /\ (forall syllable, spaceFree syllable ->
        numericToToneMark syllable = convertSyllable syllable
        /\ convertSyllable (convertSyllable syllable) = convertSyllable syllable).
Proof.
  assert (forall s, spaceFree s ->
            spaceFree (convertSyllable s) /\ (s <> [] -> convertSyllable s <> [])) as Hkeep.
  { intros s Hs. destruct (convertSyllable_settles s Hs) as (H1 & H2 & _). auto. }
  split; [|split].
  - unfold numericToToneMark at 2 3.
    destruct (split_ws_pieces pinyin) as (x & T & -> & Hx & HT).
    unfold numericToToneMark. change (map convertSyllable (x :: T))
      with (convertSyllable x :: map convertSyllable T).
    rewrite split_ws_join_pieces;
      [|apply Hkeep, Hx | apply laterPieces_map; [exact Hkeep | exact HT]].
    f_equal. cbn [map]. f_equal; [apply (convertSyllable_settles x Hx)|].
    rewrite map_map. clear -HT. induction T as [|y T IH]; [reflexivity|].
    cbn [laterPieces] in HT. destruct HT as (Hy & _ & HT). cbn [map].
    f_equal; [apply (convertSyllable_settles y Hy) | apply IH, HT].
  - intros first others Hf Ho. unfold numericToToneMark.
    rewrite split_ws_join_pieces by assumption. reflexivity.
  - intros s Hs. split; [apply numericToToneMark_plain, Hs|].
    apply (convertSyllable_settles s Hs).
Qed.


(** * The list of the vocabulary page: [pages/vocabulary/VocabularyPage.tsx] *)

Inductive SortBy :=
| SortRecent
| SortCount
| SortPinyin.

Inductive FilterType :=
| FilterAll
| FilterSingle
| FilterCompound.

(** [result.sort(compare)]: the sort is stable, an entry goes behind the
    ones it compares greater than. *)
Fixpoint insertEntry (compare : VocabularyEntry -> VocabularyEntry -> Z)
    (x : VocabularyEntry) (l : list VocabularyEntry) : list VocabularyEntry :=
  match l with
  | [] => [x]
  | y :: l' => if 0 <? compare x y then y :: insertEntry compare x l' else x :: y :: l'
  end.

Definition sortEntries (compare : VocabularyEntry -> VocabularyEntry -> Z)
    (l : list VocabularyEntry) : list VocabularyEntry :=
  foldr (insertEntry compare) [] l.

Section VocabularyPage.

(** [a.localeCompare(b)] and [s.toLowerCase()], functions of the host: the
    page lower-cases text of any script, and nothing below depends on how. *)
Variable localeCompare : jsstring -> jsstring -> Z.
Variable hostLowerCase : jsstring -> jsstring.

(** The callback of the search filter, [query] in lower case already. *)
Definition matchesQuery (query : jsstring) (e : VocabularyEntry) : bool :=
  includes (ve_word e) query
  || includes (hostLowerCase (ve_pinyin e)) query
  || existsb (fun d => includes (hostLowerCase d) query) (ve_definitions e).

Definition compareEntries (sortBy : SortBy) (a b : VocabularyEntry) : Z :=
  match sortBy with
  | SortRecent => ve_lastSeenAt b - ve_lastSeenAt a
  | SortCount => ve_lookupCount b - ve_lookupCount a
  | SortPinyin => localeCompare (ve_pinyin a) (ve_pinyin b)
  end.

(** The value of [filteredAndSorted]. *)
Definition filteredAndSorted (entries : list VocabularyEntry) (sortBy : SortBy)
    (filterType : FilterType) (minLookups : Z) (searchQuery : jsstring)
  : list VocabularyEntry :=
  let result := entries in
  let result :=
    match filterType with
    | FilterSingle => List.filter (fun e => (length (ve_word e) =? 1)%nat) result
    | FilterCompound => List.filter (fun e => (1 <? length (ve_word e))%nat) result
    | FilterAll => result
    end in
  let result :=
    if 0 <? minLookups
    then List.filter (fun e => minLookups <=? ve_lookupCount e) result
    else result in
  let result :=
    match searchQuery with
    | [] => result
    | _ :: _ =>
        let query := hostLowerCase searchQuery in
        List.filter (matchesQuery query) result
    end in
  sortEntries (compareEntries sortBy) result.

(** An entry passes the three filters. *)
Definition passesFilters (filterType : FilterType) (minLookups : Z) (searchQuery : jsstring)
    (e : VocabularyEntry) : bool :=
  match filterType with
  | FilterSingle => (length (ve_word e) =? 1)%nat
  | FilterCompound => (1 <? length (ve_word e))%nat
  | FilterAll => true
  end
  && ((minLookups <=? 0) || (minLookups <=? ve_lookupCount e))
  && (bool_decide (searchQuery = []) || matchesQuery (hostLowerCase searchQuery) e).

(** The key the page sorts by, for the two numeric orders. *)
Definition sortKey (sortBy : SortBy) (e : VocabularyEntry) : Z :=
  match sortBy with
  | SortRecent => ve_lastSeenAt e
  | SortCount => ve_lookupCount e
  | SortPinyin => 0
  end.

Lemma insertEntry_perm compare x l : insertEntry compare x l ≡ₚ x :: l.
Proof.
  induction l as [|y l IH]; cbn [insertEntry]; [reflexivity|].
  destruct (0 <? compare x y); [|reflexivity]. rewrite IH. apply perm_swap.
Qed.

Lemma sortEntries_perm compare l : sortEntries compare l ≡ₚ l.
Proof.
  induction l as [|x l IH]; [reflexivity|].
  change (sortEntries compare (x :: l)) with (insertEntry compare x (sortEntries compare l)).
  rewrite insertEntry_perm, IH. reflexivity.
Qed.

Lemma filter_filter_and {A} (f g : A -> bool) (l : list A) :
  List.filter g (List.filter f l) = List.filter (fun x => f x && g x) l.
Proof.
  induction l as [|x l IH]; [reflexivity|]. cbn [List.filter].
  destruct (f x); cbn [List.filter andb]; [destruct (g x)|]; rewrite IH; reflexivity.
Qed.

Lemma filter_true {A} (l : list A) : List.filter (fun _ => true) l = l.
Proof. induction l as [|x l IH]; [reflexivity|]. cbn [List.filter]. rewrite IH. reflexivity. Qed.

Lemma filtered_is_passing entries filterType minLookups searchQuery :
  (let result := entries in
   let result :=
     match filterType with
     | FilterSingle => List.filter (fun e => (length (ve_word e) =? 1)%nat) result
     | FilterCompound => List.filter (fun e => (1 <? length (ve_word e))%nat) result
     | FilterAll => result
     end in
   let result :=
     if 0 <? minLookups
     then List.filter (fun e => minLookups <=? ve_lookupCount e) result
     else result in
   match searchQuery with
   | [] => result
   | _ :: _ => List.filter (matchesQuery (hostLowerCase searchQuery)) result
   end)
  = List.filter (passesFilters filterType minLookups searchQuery) entries.
Proof.
  cbv zeta. unfold passesFilters.
  assert (forall (l : list VocabularyEntry),
            (if 0 <? minLookups
             then List.filter (fun e => minLookups <=? ve_lookupCount e) l else l)
            = List.filter
                (fun e => (minLookups <=? 0) || (minLookups <=? ve_lookupCount e)) l)
    as Hmin.
  { intros l. destruct (Z.ltb_spec 0 minLookups) as [Hpos|Hno].
    - apply List.filter_ext. intros e.
      rewrite (proj2 (Z.leb_gt minLookups 0) Hpos). reflexivity.
    - rewrite <- (filter_true l) at 1. apply List.filter_ext. intros e.
      rewrite (proj2 (Z.leb_le minLookups 0) Hno). reflexivity. }
  assert (forall (l : list VocabularyEntry),
            match searchQuery with
            | [] => l
            | _ :: _ => List.filter (matchesQuery (hostLowerCase searchQuery)) l
            end
            = List.filter
                (fun e => bool_decide (searchQuery = [])
                          || matchesQuery (hostLowerCase searchQuery) e) l) as Hquery.
  { intros l. destruct searchQuery as [|c q].
    - rewrite <- (filter_true l) at 1. reflexivity.
    - apply List.filter_ext. intros e. reflexivity. }
  rewrite Hquery, Hmin, !filter_filter_and.
  destruct filterType; [|rewrite filter_filter_and..]; apply List.filter_ext; intros e;
    rewrite ?andb_assoc; reflexivity.
Qed.

Lemma filter_perm {A} (f : A -> bool) (l l' : list A) :
  l ≡ₚ l' -> List.filter f l ≡ₚ List.filter f l'.
Proof.
  induction 1 as [|x l l' _ IH|x y l|l l' l'' _ IH1 _ IH2]; cbn [List.filter].
  - reflexivity.
  - destruct (f x); [constructor|]; exact IH.
  - destruct (f x), (f y); try reflexivity. apply perm_swap.
  - etransitivity; eassumption.
Qed.

Lemma single_and_compound (atLeast found : VocabularyEntry -> bool)
    (l : list VocabularyEntry) :
  List.filter (fun e => (length (ve_word e) =? 1)%nat && atLeast e && found e) l
  ++ List.filter (fun e => (1 <? length (ve_word e))%nat && atLeast e && found e) l
  ≡ₚ List.filter (fun e => negb (bool_decide (ve_word e = [])))
       (List.filter (fun e => true && atLeast e && found e) l).
Proof.
  induction l as [|e l IH]; [reflexivity|]. cbn [List.filter andb].
  rewrite <- !andb_assoc.
  destruct (atLeast e && found e).
  - rewrite !andb_true_r. cbn [List.filter].
    destruct (ve_word e) as [|c [|c2 w]] eqn:Hw.
    + rewrite bool_decide_eq_true_2 by reflexivity. exact IH.
    + rewrite bool_decide_eq_false_2 by discriminate.
      cbn. constructor. exact IH.
    + rewrite bool_decide_eq_false_2 by discriminate.
      cbn. rewrite <- Permutation_middle. constructor. exact IH.
  - rewrite !andb_false_r. exact IH.
Qed.

Lemma insertEntry_sorted sortBy x l :
  sortBy <> SortPinyin ->
  StronglySorted (fun a b => sortKey sortBy b <= sortKey sortBy a) l ->
  StronglySorted (fun a b => sortKey sortBy b <= sortKey sortBy a)
    (insertEntry (compareEntries sortBy) x l).
Proof.
  intros Hsort. induction 1 as [|y l Hs IH Hall]; cbn [insertEntry].
  - repeat constructor.
  - assert (compareEntries sortBy x y = sortKey sortBy y - sortKey sortBy x) as ->
      by (destruct sortBy; [reflexivity | reflexivity | contradiction]).
    destruct (Z.ltb_spec 0 (sortKey sortBy y - sortKey sortBy x)) as [Hlt|Hge].
    + constructor; [exact IH|]. rewrite insertEntry_perm.
      constructor; [lia | exact Hall].
    + constructor; [constructor; assumption|]. constructor; [lia|].
      eapply Forall_impl; [exact Hall|]. cbv beta. intros z Hz. lia.
Qed.

Lemma insertEntry_stable sortBy v x l :
  sortBy <> SortPinyin ->
  List.filter (fun e => sortKey sortBy e =? v) (insertEntry (compareEntries sortBy) x l)
  = List.filter (fun e => sortKey sortBy e =? v) (x :: l).
Proof.
  intros Hsort. induction l as [|y l IH]; [reflexivity|]. cbn [insertEntry].
  assert (compareEntries sortBy x y = sortKey sortBy y - sortKey sortBy x) as ->
    by (destruct sortBy; [reflexivity | reflexivity | contradiction]).
  destruct (Z.ltb_spec 0 (sortKey sortBy y - sortKey sortBy x)) as [Hlt|Hge];
    [|reflexivity].
  cbn [List.filter] in *. rewrite IH.
  destruct (Z.eqb_spec (sortKey sortBy x) v), (Z.eqb_spec (sortKey sortBy y) v);
    try reflexivity. lia.
Qed.

(** What the page lists.  The list is a rearrangement of the entries that
    pass the three filters: none is lost and none comes twice.  Sorted by
    recency or by count it is in descending order of lastSeenAt or
    lookupCount, entries of one value staying in the order they were loaded
    in.  The single-character and the compound lists together hold the
    entries whose word is not empty, and no entry is in both. *)
Theorem filteredAndSorted_lists_what_passes (entries : list VocabularyEntry)
    (sortBy : SortBy) (filterType : FilterType) (minLookups : Z)
    (searchQuery : jsstring) :
  let shown := filteredAndSorted entries sortBy filterType minLookups searchQuery in
  shown ≡ₚ List.filter (passesFilters filterType minLookups searchQuery) entries
  /\ (sortBy <> SortPinyin ->
      StronglySorted (fun a b => sortKey sortBy b <= sortKey sortBy a) shown
      /\ forall v,
           List.filter (fun e => sortKey sortBy e =? v) shown
           = List.filter (fun e => sortKey sortBy e =? v)
               (List.filter (passesFilters filterType minLookups searchQuery) entries))
  /\ (filteredAndSorted entries sortBy FilterSingle minLookups searchQuery
      ++ filteredAndSorted entries sortBy FilterCompound minLookups searchQuery
      ≡ₚ List.filter (fun e => negb (bool_decide (ve_word e = [])))
           (filteredAndSorted entries sortBy FilterAll minLookups searchQuery)).
Proof.
  assert (forall ft q,
            filteredAndSorted entries sortBy ft minLookups q
            = sortEntries (compareEntries sortBy)
                (List.filter (passesFilters ft minLookups q) entries)) as Hshape.
  { intros ft q. unfold filteredAndSorted.
    rewrite <- (filtered_is_passing entries ft minLookups q). reflexivity. }
  cbv zeta. rewrite !Hshape.
  set (passing := List.filter (passesFilters filterType minLookups searchQuery) entries).
  split; [apply sortEntries_perm|]. split.
  - intros Hsort. split.
    + induction passing as [|x l IH]; [constructor|].
      change (sortEntries (compareEntries sortBy) (x :: l))
        with (insertEntry (compareEntries sortBy) x (sortEntries (compareEntries sortBy) l)).
      apply insertEntry_sorted; assumption.
    + intros v. induction passing as [|x l IH]; [reflexivity|].
      change (sortEntries (compareEntries sortBy) (x :: l))
        with (insertEntry (compareEntries sortBy) x (sortEntries (compareEntries sortBy) l)).
      rewrite insertEntry_stable by exact Hsort. cbn [List.filter]. rewrite IH.
      reflexivity.
  - rewrite !sortEntries_perm, (filter_perm _ _ _ (sortEntries_perm _ _)).
    apply (single_and_compound
             (fun e => (minLookups <=? 0) || (minLookups <=? ve_lookupCount e))
             (fun e => bool_decide (searchQuery = [])
                       || matchesQuery (hostLowerCase searchQuery) e)).
Qed.


End VocabularyPage.
